(** * pepe-mage-source: the moderated meme relay bot (src/index.mjs)

    A shallow embedding of the second revision of the script (the one with
    [postRandomMessages], the backlog-scaled post chance and the blacklist),
    of what the first revision does differently, and of the startup code,
    with the properties its design document states about it and further
    properties read off the code.

    Conventions of the embedding.
    - A JavaScript object with optional properties is a record of [option]
      fields; [None] is [undefined].  Conditions of the source test values
      for truthiness, which the class [Truthy] reproduces per type.
    - Numbers are exact: integers are [Z], the other numbers are rationals
      [Q]; the only division whose divisor comes from the configuration
      ([count / BASE_POST_CHANCE_POST_COUNT]) is evaluated in [Num], which
      has JavaScript's infinities and NaN.  Rounding of doubles and signed
      zeros are not modelled, so a strict inequality between rationals
      need not hold between the doubles the code computes.
    - Effects (the nedb store, the Telegram gateway, timers, [Math.random])
      are threaded through a state-and-exception monad [M] over [World].
      [Math.random()] reads the next element of a stream of draws; every
      store or gateway operation asks an oracle whether it fails.
    - In [step] and [run] an [async] handler is run from its start to its
      end before the next event is looked at, and [await] is sequencing:
      these describe handlers that do not overlap.  Calls of
      [postRandomMessage] that overlap are described by [resume] and
      [overlap], which stop at every [await].
    - [Number] and the counter of a loop are exact integers, which is what
      the code has up to 2^53; beyond that a double rounds, and the loop of
      [postRandomMessages] does not end. *)

From Stdlib Require Import ZArith QArith Qround Qminmax List String Ascii Bool Lia Lqa.
From Stdlib Require Import DecimalString.
Import ListNotations.

Set Implicit Arguments.

(* ------------------------------------------------------------------ *)
(** ** JavaScript values *)

Module Js.

(** Truthiness, as [if (x)], [x ? a : b] and [!!x] see a value. *)
Class Truthy (A : Type) := truthy : A -> bool.

#[export] Instance truthy_string : Truthy string :=
  fun s => negb (String.eqb s EmptyString).
#[export] Instance truthy_Z : Truthy Z :=
  fun n => negb (Z.eqb n 0).
(** Arrays are objects: even the empty array is truthy. *)
#[export] Instance truthy_list (A : Type) : Truthy (list A) :=
  fun _ => true.
(** A missing property reads [undefined], which is falsy. *)
#[export] Instance truthy_option (A : Type) `{Truthy A} : Truthy (option A) :=
  fun o => match o with Some a => truthy a | None => false end.

(** What a [throw] carries.  [SerializationError] is the script's own class;
    [TypeError] is what reading a property of [undefined] or [null] raises;
    [IOError] stands for a rejected store or gateway promise. *)
Inductive exn : Type :=
| SerializationError (message : string)
| TypeError
| IOError.

Inductive result (A : Type) : Type :=
| Return (a : A)
| Throw (e : exn).
Arguments Return {A} a.
Arguments Throw {A} e.

Definition rbind {A B} (r : result A) (k : A -> result B) : result B :=
  match r with
  | Return a => k a
  | Throw e => Throw e
  end.

(** [o.p] where [o] may be [undefined]: a TypeError when it is. *)
Definition deref {A} (o : option A) : result A :=
  match o with
  | Some a => Return a
  | None => Throw TypeError
  end.

(** Numbers that a division by a configured value can produce. *)
Inductive Num : Type :=
| Fin (q : Q)
| PosInf
| NegInf
| NaN.

Definition Qsgn (q : Q) : Z := Z.sgn (Qnum q).

(** [a / b] on finite operands. *)
Definition num_div (a b : Q) : Num :=
  if Qeq_bool b 0 then
    match Qsgn a with
    | Z0 => NaN
    | Zpos _ => PosInf
    | Zneg _ => NegInf
    end
  else Fin (a / b).

(** [a * x] with [a] finite. *)
Definition num_mul (a : Q) (x : Num) : Num :=
  match x with
  | Fin q => Fin (a * q)
  | NaN => NaN
  | PosInf =>
      match Qsgn a with Z0 => NaN | Zpos _ => PosInf | Zneg _ => NegInf end
  | NegInf =>
      match Qsgn a with Z0 => NaN | Zpos _ => NegInf | Zneg _ => PosInf end
  end.

(** [Math.min(x, b)] with [b] finite. *)
Definition Math_min (x : Num) (b : Q) : Num :=
  match x with
  | Fin q => Fin (Qmin q b)
  | PosInf => Fin b
  | NegInf => NegInf
  | NaN => NaN
  end.

(** [a < x] with [a] finite; every comparison with NaN is false. *)
Definition num_ltb (a : Q) (x : Num) : bool :=
  match x with
  | Fin q => negb (Qle_bool q a)
  | PosInf => true
  | NegInf => false
  | NaN => false
  end.

Definition Qltb (a b : Q) : bool := negb (Qle_bool b a).

(** [Math.floor] and [Math.round] (ties go up) on finite numbers. *)
Definition Math_floor (q : Q) : Z := Qfloor q.
Definition Math_round (q : Q) : Z := Qfloor (q + (1 # 2)).

End Js.
Export Js.

Notation "x <~ c ;; k" := (rbind c (fun x => k))
  (at level 61, c at next level, right associativity).

(* ------------------------------------------------------------------ *)
(** ** Telegram objects the script reads *)

Record User := { user_id : Z }.
Record Chat := { chat_id : Z }.
(** [PhotoSize], [Video] and [Animation]: the script reads their [file_id]. *)
Record File := { file_id : string }.
Record MessageEntity :=
  { entity_type : string; entity_offset : Z; entity_length : Z }.

(** Objects are always truthy. *)
#[export] Instance truthy_Chat : Truthy Chat := fun _ => true.
#[export] Instance truthy_File : Truthy File := fun _ => true.

Record Message := {
  message_id : Z;
  from : option User;
  chat : Chat;
  forward_date : option Z;
  forward_from_chat : option Chat;
  media_group_id : option string;
  photo : option (list File);
  video : option File;
  animation : option File;
  text : option string;
  caption : option string;
  parse_mode : option string;
  caption_entities : option (list MessageEntity)
}.

Record CallbackQuery := {
  cq_id : string;
  cq_from : option User;
  cq_message : option Message;
  cq_data : option string
}.

(** [reply_markup]: the administrators' reply keyboard (rows of button
    texts) or the reviewer's inline keyboard (rows of text and
    [callback_data]). *)
Inductive ReplyMarkup : Type :=
| keyboard (rows : list (list string))
| inline_keyboard (rows : list (list (string * string))).

(** Values of the options object passed to the gateway's send methods. *)
Inductive PropVal : Type :=
| PStr (s : string)
| PEntities (l : list MessageEntity)
| PMarkup (m : ReplyMarkup).

(** An options object: its own properties in insertion order. *)
Definition Options := list (string * PropVal).

Definition lookup_prop (o : Options) (key : string) : option PropVal :=
  option_map snd (find (fun kv => String.eqb (fst kv) key) o).

(** [{...o, key: v}] *)
Fixpoint set_prop (o : Options) (key : string) (v : PropVal) : Options :=
  match o with
  | [] => [(key, v)]
  | (k, x) :: o' =>
      if String.eqb k key then (k, v) :: o' else (k, x) :: set_prop o' key v
  end.

(** [message[key]] for the keys whose values can go into an options object. *)
Definition message_prop (message : Message) (key : string) : option PropVal :=
  if String.eqb key "caption" then option_map PStr (caption message)
  else if String.eqb key "parse_mode" then option_map PStr (parse_mode message)
  else if String.eqb key "caption_entities" then
    option_map PEntities (caption_entities message)
  else None.

(** lodash's [pick(object, paths)]: a new object with, for each path in
    turn, the property of that name when the object has it. *)
Definition pick (object : string -> option PropVal) (paths : list string)
  : Options :=
  flat_map (fun key => match object key with
                       | Some v => [(key, v)]
                       | None => []
                       end) paths.

(* ------------------------------------------------------------------ *)
(** ** The submission codec *)

Inductive Method : Type := sendPhoto | sendVideo | sendAnimation.

(** The three-element array [[method, fileId, options]]. *)
Record Serialized := {
  method : Method;
  fileId : string;
  options : Options
}.
#[export] Instance truthy_Serialized : Truthy Serialized := fun _ => true.

Definition pickMessageProps (message : Message) : Options :=
  if truthy (forward_date message) then []
  else pick (message_prop message) ["caption"; "parse_mode"; "caption_entities"]%string.

Definition serializeMessage (message : Message) : result Serialized :=
  if truthy (media_group_id message) then
    Throw (SerializationError "Media groups are not supported yet :(")
  else if truthy (photo message) then
    sizes <~ deref (photo message) ;;
    first <~ deref (nth_error sizes 0) ;;
    Return {| method := sendPhoto; fileId := file_id first;
              options := pickMessageProps message |}
  else if truthy (video message) then
    v <~ deref (video message) ;;
    Return {| method := sendVideo; fileId := file_id v;
              options := pickMessageProps message |}
  else if truthy (animation message) then
    a <~ deref (animation message) ;;
    Return {| method := sendAnimation; fileId := file_id a;
              options := pickMessageProps message |}
  else if truthy (text message) then
    Throw (SerializationError "No text only content :(")
  else
    Throw (SerializationError "No allowed content found :(").

(** The array always has length 3 and a plain object last, so the source's
    other branch (return the argument unchanged) is never taken on a value
    of this type. *)
Definition addAdminReplyMarkup (serializedMessage : Serialized) : Serialized :=
  {| method := method serializedMessage;
     fileId := fileId serializedMessage;
     options := set_prop (options serializedMessage) "reply_markup"
                  (PMarkup (inline_keyboard
                              [[("Yes", "accept"); ("No", "reject")]]%string)) |}.

(* ------------------------------------------------------------------ *)
(** ** Configuration and the process state *)

(** The values destructured from config.json ([TOKEN] is only handed to the
    gateway). *)
Record Config := {
  CHAT_ID : Z;
  DEBUG : bool;
  MIN_HOUR : Q;
  MAX_HOUR : Q;
  MIN_POST_COUNT : Q;
  MAX_POST_COUNT : Q;
  POST_INTERVAL : Q;
  POST_INTERVAL_OFFSET : Q;
  BASE_POST_CHANCE : Q;
  BASE_POST_CHANCE_POST_COUNT : Q;
  BLACKLISTED_CHAT_IDS : list Z
}.

(** The defaults of the destructuring pattern, for a given chat. *)
Definition default_config (chatId : Z) : Config := {|
  CHAT_ID := chatId;
  DEBUG := false;
  MIN_HOUR := 5;
  MAX_HOUR := 19;
  MIN_POST_COUNT := 4;
  MAX_POST_COUNT := 5;
  POST_INTERVAL := 90 * 60 * 1000;
  POST_INTERVAL_OFFSET := (90 * 60 * 1000) / 10;
  BASE_POST_CHANCE := 1 # 4;
  BASE_POST_CHANCE_POST_COUNT := 25;
  BLACKLISTED_CHAT_IDS := []
|}.

(** What the process learns from outside: the administrators fetched at
    startup, the values [Math.random()] will return, and which store or
    gateway operations will be rejected. *)
Record Env := {
  administratorsIds : list Z;
  ownerId : Z;
  random : nat -> Q;
  fails : nat -> bool
}.

(** The reading of the clock a tick makes with [new Date()]. *)
Record Date := { getHours : Z; getTimezoneOffset : Z }.

(** A document of store.db; all have [type: 'message'].  The [message]
    property is [null] when [null] was stored. *)
Record Doc := { _id : nat; doc_message : option Serialized }.

(** Calls issued to the gateway and to the timer functions. *)
Inductive Effect : Type :=
| SendMessage (chatId : Z) (text : string) (options : Options)
| SendMedia (m : Method) (chatId : Z) (fileId : string) (options : Options)
| DeleteMessage (chatId : Z) (messageId : Z)
| AnswerCallbackQuery (id : string)
| SetTimeout (handle : nat) (delay : Q)
| ClearTimeout (handle : nat).

Record World := {
  docs : list Doc;           (* store.db, in the order the store enumerates *)
  next_id : nat;             (* supply of fresh [_id]s *)
  postTimer : option nat;    (* [let postTimer = null] *)
  pending : list (nat * Q);  (* timers armed and not yet fired or cleared *)
  next_handle : nat;         (* supply of fresh timer handles *)
  trace : list Effect;       (* calls issued so far, oldest first *)
  draws : nat;               (* calls of [Math.random()] so far *)
  ios : nat                  (* store and gateway operations so far *)
}.

Definition with_store (d : list Doc) (n : nat) (w : World) : World :=
  {| docs := d; next_id := n; postTimer := postTimer w; pending := pending w;
     next_handle := next_handle w; trace := trace w; draws := draws w;
     ios := ios w |}.

Definition with_timers (t : option nat) (p : list (nat * Q)) (n : nat)
  (w : World) : World :=
  {| docs := docs w; next_id := next_id w; postTimer := t; pending := p;
     next_handle := n; trace := trace w; draws := draws w; ios := ios w |}.

Definition with_trace (t : list Effect) (w : World) : World :=
  {| docs := docs w; next_id := next_id w; postTimer := postTimer w;
     pending := pending w; next_handle := next_handle w; trace := t;
     draws := draws w; ios := ios w |}.

Definition with_draws (n : nat) (w : World) : World :=
  {| docs := docs w; next_id := next_id w; postTimer := postTimer w;
     pending := pending w; next_handle := next_handle w; trace := trace w;
     draws := n; ios := ios w |}.

Definition with_ios (n : nat) (w : World) : World :=
  {| docs := docs w; next_id := next_id w; postTimer := postTimer w;
     pending := pending w; next_handle := next_handle w; trace := trace w;
     draws := draws w; ios := n |}.

(* ------------------------------------------------------------------ *)
(** ** The monad of handlers: state and exceptions *)

Definition M (A : Type) : Type := World -> result A * World.

Definition ret {A} (a : A) : M A := fun w => (Return a, w).
Definition throw {A} (e : exn) : M A := fun w => (Throw e, w).
Definition bind {A B} (c : M A) (k : A -> M B) : M B :=
  fun w => match c w with
           | (Return a, w') => k a w'
           | (Throw e, w') => (Throw e, w')
           end.
Definition lift {A} (r : result A) : M A := fun w => (r, w).
Definition gets {A} (f : World -> A) : M A := fun w => (Return (f w), w).
Definition modify (f : World -> World) : M unit := fun w => (Return tt, f w).

(** [try { body } finally { fin }]: [fin] runs whatever [body] did; the
    outcome is [body]'s unless [fin] itself throws. *)
Definition try_finally {A} (body : M A) (fin : M unit) : M A :=
  fun w => match body w with
           | (r, w') => match fin w' with
                        | (Return _, w'') => (r, w'')
                        | (Throw e, w'') => (Throw e, w'')
                        end
           end.

Notation "x <- c ;; k" := (bind c (fun x => k))
  (at level 61, c at next level, right associativity).
Notation "c ;; k" := (bind c (fun _ => k))
  (at level 61, right associativity).

Fixpoint repeatM (n : nat) (body : M unit) : M unit :=
  match n with
  | O => ret tt
  | S n' => body ;; repeatM n' body
  end.

(* ------------------------------------------------------------------ *)
(** ** Strings: the command pattern and number formatting *)

(** A text is the string of the bytes of its UTF-8 encoding. *)
Definition bytes (l : list nat) : string :=
  fold_right (fun n s => String (ascii_of_nat n) s) EmptyString l.

(** The characters [\s] matches: tab, line feed, vertical tab, form feed,
    carriage return, space, U+00A0, U+1680, U+2000 to U+200A, U+2028,
    U+2029, U+202F, U+205F, U+3000 and U+FEFF. *)
Definition white_space : list string :=
  map bytes
    [[9]; [10]; [11]; [12]; [13]; [32];
     [194; 160];
     [225; 154; 128];
     [226; 128; 128]; [226; 128; 129]; [226; 128; 130]; [226; 128; 131];
     [226; 128; 132]; [226; 128; 133]; [226; 128; 134]; [226; 128; 135];
     [226; 128; 136]; [226; 128; 137]; [226; 128; 138];
     [226; 128; 168]; [226; 128; 169]; [226; 128; 175];
     [226; 129; 159];
     [227; 128; 128];
     [239; 187; 191]]%nat.

Definition is_digit (c : ascii) : bool :=
  let n := N_of_ascii c in N.leb 48 n && N.leb n 57.

Fixpoint strip_prefix (p s : string) : option string :=
  match p, s with
  | EmptyString, _ => Some s
  | String a p', String b s' =>
      if Ascii.eqb a b then strip_prefix p' s' else None
  | String _ _, EmptyString => None
  end.

(** The text after one of the given characters, when it starts with one. *)
Fixpoint strip_any (xs : list string) (s : string) : option string :=
  match xs with
  | [] => None
  | x :: xs' =>
      match strip_prefix x s with
      | Some rest => Some rest
      | None => strip_any xs' s
      end
  end.

(** The text after its leading white space; every character dropped takes
    at least one byte, so the length of the text is fuel enough. *)
Fixpoint drop_spaces_fuel (fuel : nat) (s : string) : string :=
  match fuel with
  | O => s
  | S fuel' =>
      match strip_any white_space s with
      | Some rest => drop_spaces_fuel fuel' rest
      | None => s
      end
  end.

Definition drop_spaces (s : string) : string :=
  drop_spaces_fuel (String.length s) s.

Fixpoint all_chars (f : ascii -> bool) (s : string) : bool :=
  match s with
  | EmptyString => true
  | String c s' => f c && all_chars f s'
  end.

(** [command.match(/^\/random_post(?:\s+(\d+))?$/)]: [None] is [null];
    [Some g] is a match whose group 1 is [g].  White space and digits have
    no character in common, so the longest run of white space is the only
    one that can be followed by digits up to the end. *)
Definition match_random_post (command : string) : option (option string) :=
  match strip_prefix "/random_post" command with
  | None => None
  | Some EmptyString => Some None
  | Some rest =>
      match strip_any white_space rest with
      | None => None
      | Some rest' =>
          let digits := drop_spaces rest' in
          if truthy digits && all_chars is_digit digits
          then Some (Some digits) else None
      end
  end.

(** [Number(s)] for a string of decimal digits, as an exact integer: it is
    the value the code computes for numbers up to 2^53, which a double
    holds exactly. *)
Definition Number (s : string) : Z :=
  (fix go (acc : Z) (s : string) : Z :=
     match s with
     | EmptyString => acc
     | String c s' => go (10 * acc + (Z.of_N (N_of_ascii c) - 48))%Z s'
     end) 0%Z s.

(** [`${n}`] for an integer. *)
Definition toString (n : Z) : string := NilZero.string_of_int (Z.to_int n).

(** [x === s] for a string literal [s]. *)
Definition is_string (x : option string) (s : string) : bool :=
  match x with
  | Some y => String.eqb y s
  | None => false
  end.

(* ------------------------------------------------------------------ *)
(** ** The script *)

Section Bot.

Variable cfg : Config.
Variable env : Env.

(** *** Primitive operations *)

Definition Math_random : M Q :=
  fun w => (Return (random env (draws w)), with_draws (S (draws w)) w).

(** One store or gateway operation: it is rejected when the oracle says so,
    and then leaves the store as it was. *)
Definition io : M unit :=
  fun w => let w' := with_ios (S (ios w)) w in
           if fails env (ios w) then (Throw IOError, w') else (Return tt, w').

Definition emit (e : Effect) : M unit :=
  modify (fun w => with_trace (trace w ++ [e]) w).

(** An awaited (or returned) call of a gateway method. *)
Definition call (e : Effect) : M unit := emit e ;; io.

(** A gateway call whose promise is dropped: a rejection does not reach the
    caller. *)
Definition call_detached (e : Effect) : M unit :=
  emit e ;; modify (fun w => with_ios (S (ios w)) w).

(** [db.count({type: 'message'})] *)
Definition db_count : M Z :=
  io ;; gets (fun w => Z.of_nat (List.length (docs w))).

(** [db.findOne({type: 'message'}).skip(k)]: [null] past the end. *)
Definition db_findOne_skip (k : Z) : M (option Doc) :=
  io ;; gets (fun w => nth_error (docs w) (Z.to_nat k)).

Fixpoint remove_id (i : nat) (l : list Doc) : list Doc :=
  match l with
  | [] => []
  | d :: l' => if Nat.eqb (_id d) i then l' else d :: remove_id i l'
  end.

(** [db.remove({_id: i})]: without [multi], the first match only. *)
Definition db_remove (i : nat) : M unit :=
  io ;; modify (fun w => with_store (remove_id i (docs w)) (next_id w) w).

(** [db.insert({type: 'message', message})]: the store assigns the [_id]. *)
Definition db_insert (message : option Serialized) : M unit :=
  io ;;
  modify (fun w =>
    with_store (docs w ++ [{| _id := next_id w; doc_message := message |}])
               (S (next_id w)) w).

Definition clearTimeout (h : nat) : M unit :=
  emit (ClearTimeout h) ;;
  modify (fun w =>
    with_timers (postTimer w)
                (filter (fun t => negb (Nat.eqb (fst t) h)) (pending w))
                (next_handle w) w).

Definition setTimeout (delay : Q) : M nat :=
  h <- gets next_handle ;;
  emit (SetTimeout h delay) ;;
  modify (fun w => with_timers (postTimer w) (pending w ++ [(h, delay)])
                               (S h) w) ;;
  ret h.

(** *** Publishing *)

Definition sendSerializedMessage (chatId : Z)
  (serializedMessage : option Serialized) : M unit :=
  s <- lift (deref serializedMessage) ;;
  call (SendMedia (method s) chatId (fileId s) (options s)).

Definition postRandomMessage : M unit :=
  count <- db_count ;;
  if (0 <? count)%Z then
    r <- Math_random ;;
    doc <- db_findOne_skip (Math_floor (r * inject_Z count)) ;;
    d <- lift (deref doc) ;;
    sendSerializedMessage (if DEBUG cfg then ownerId env else CHAT_ID cfg)
                          (doc_message d) ;;
    db_remove (_id d)
  else ret tt.

(** [for (let i = 0; i < count; i++) await postRandomMessage()], for a
    [count] of at most 2^53: [i++] leaves a counter of 2^53 where it is, so
    for a larger [count] the loop of the code does not end. *)
Definition postRandomMessages (count : Z) : M unit :=
  repeatM (Z.to_nat count) postRandomMessage.

(** *** Takes that overlap *)

(** An [async] function runs until an [await] and goes on, in a later turn
    of the event loop, once the awaited operation has settled.  Nothing
    awaits a handler: the ['message'] listener calls [handleCommand] and
    drops its promise, and a timer's callback runs on its own.  So a call
    of [postRandomMessage] can start while another one is waiting.  [Take]
    is the operation a call of [postRandomMessage] is waiting for. *)
Inductive Take : Type :=
| Counting
| Finding (skip : Z)
| Sending (doc : Doc)
| Removing (doc : Doc)
| Returned.

(** The awaited operation settles, and the call runs on up to its next
    [await]: the request to Telegram leaves when [sendSerializedMessage] is
    called, and it settles in a later turn. *)
Definition resume (t : Take) : M Take :=
  match t with
  | Counting =>
      count <- db_count ;;
      if (0 <? count)%Z then
        r <- Math_random ;;
        ret (Finding (Math_floor (r * inject_Z count)))
      else ret Returned
  | Finding skip =>
      doc <- db_findOne_skip skip ;;
      d <- lift (deref doc) ;;
      s <- lift (deref (doc_message d)) ;;
      emit (SendMedia (method s)
                      (if DEBUG cfg then ownerId env else CHAT_ID cfg)
                      (fileId s) (options s)) ;;
      ret (Sending d)
  | Sending d => io ;; ret (Removing d)
  | Removing d => db_remove (_id d) ;; ret Returned
  | Returned => ret Returned
  end.

(** The promise of a call of [postRandomMessage]. *)
Inductive Promise : Type :=
| Pending (t : Take)
| Fulfilled
| Rejected (e : exn).

(** One turn of the event loop for a call: an exception rejects its
    promise and reaches no other call. *)
Definition settle (p : Promise) (w : World) : Promise * World :=
  match p with
  | Pending t =>
      match resume t w with
      | (Return Returned, w') => (Fulfilled, w')
      | (Return t', w') => (Pending t', w')
      | (Throw e, w') => (Rejected e, w')
      end
  | _ => (p, w)
  end.

(** Two calls in flight, and the order in which the event loop resumes
    them. *)
Inductive Turn : Type := First | Second.

Fixpoint overlap (turns : list Turn) (a b : Promise) (w : World)
  : Promise * Promise * World :=
  match turns with
  | [] => (a, b, w)
  | First :: turns' => let (a', w') := settle a w in overlap turns' a' b w'
  | Second :: turns' => let (b', w') := settle b w in overlap turns' a b' w'
  end.

(** *** The scheduler *)

Definition schedulePostTimer : M unit :=
  t <- gets postTimer ;;
  match t with
  | Some h => clearTimeout h
  | None => ret tt
  end ;;
  r <- Math_random ;;
  h <- setTimeout (POST_INTERVAL cfg + POST_INTERVAL_OFFSET cfg * r) ;;
  modify (fun w => with_timers (Some h) (pending w) (next_handle w) w).

Definition postChance (count : Z) : Num :=
  Math_min (num_mul (BASE_POST_CHANCE cfg)
              (num_div (inject_Z count) (BASE_POST_CHANCE_POST_COUNT cfg)))
           1.

Definition hour_of (now : Date) : Q :=
  inject_Z (getHours now) + inject_Z (getTimezoneOffset now) / 60.

Definition postCount (r : Q) : Z :=
  Math_round (MIN_POST_COUNT cfg + r * (MAX_POST_COUNT cfg - MIN_POST_COUNT cfg)).

Definition handlePostTimer (now : Date) : M unit :=
  try_finally
    (count <- db_count ;;
     let postChance := postChance count in
     let hour := hour_of now in
     if Qltb (MIN_HOUR cfg) hour && Qltb hour (MAX_HOUR cfg) then
       r <- Math_random ;;
       if num_ltb r postChance then
         r' <- Math_random ;;
         postRandomMessages (postCount r')
       else ret tt
     else ret tt)
    schedulePostTimer.

(** *** Moderation *)

(** [administratorsIds.includes(x.from.id)], for a message or a callback
    query [x]. *)
Definition checkAdminRights (sender : option User) : M bool :=
  u <- lift (deref sender) ;;
  ret (existsb (Z.eqb (user_id u)) (administratorsIds env)).

Definition checkIfBlacklisted (message : Message) : bool :=
  truthy (forward_from_chat message) &&
  match forward_from_chat message with
  | Some c => existsb (Z.eqb (chat_id c)) (BLACKLISTED_CHAT_IDS cfg)
  | None => false
  end.

Definition storeSerializedMessage (serializedMessage : option Serialized)
  : M unit :=
  db_insert serializedMessage.

Definition sendMessage (chatId : Z) (text : string) : M unit :=
  call (SendMessage chatId text []).

Definition handleCommand (message : Message) : M unit :=
  isAdmin <- checkAdminRights (from message) ;;
  let command := text message in
  let chatId := chat_id (chat message) in
  let unknown := sendMessage chatId "Unknown command :(" in
  if is_string command "/start" then
    if negb isAdmin then sendMessage chatId "Hi! Send me some memes :)"
    else call (SendMessage chatId "Hi!"
                 [("reply_markup",
                   PMarkup (keyboard [["/queue_info"; "/random_post"]]))]%string)
  else if is_string command "/queue_info" then
    if isAdmin then
      count <- db_count ;;
      sendMessage chatId ("Message queue size: " ++ toString count)
    else unknown
  else
    c <- lift (deref command) ;;
    match match_random_post c with
    | Some group1 =>
        if isAdmin then
          let count := match group1 with
                       | Some digits => Number digits
                       | None => 1%Z
                       end in
          schedulePostTimer ;;
          postRandomMessages count
        else unknown
    | None => unknown
    end.

Definition handleMedia (message : Message) : M unit :=
  isAdmin <- checkAdminRights (from message) ;;
  match serializeMessage message with
  | Throw (SerializationError msg) =>
      (* the catch clause returns *)
      sendMessage (chat_id (chat message)) msg
  | outcome =>
      (* any other exception is swallowed and leaves [null] *)
      let serializedMessage :=
        match outcome with Return s => Some s | Throw _ => None end in
      if truthy serializedMessage then
        if isAdmin then
          storeSerializedMessage serializedMessage ;;
          call (DeleteMessage (chat_id (chat message)) (message_id message))
        else
          if checkIfBlacklisted message then
            sendMessage (chat_id (chat message))
                        "This content is not welcome here :("
          else
            sendSerializedMessage (ownerId env)
              (option_map addAdminReplyMarkup serializedMessage) ;;
            sendMessage (chat_id (chat message)) "Thanks for your contribution!"
      else ret tt
  end.

Definition handleCallbackQuery (callbackQuery : CallbackQuery) : M unit :=
  isAdmin <- checkAdminRights (cq_from callbackQuery) ;;
  let answer := call_detached (AnswerCallbackQuery (cq_id callbackQuery)) in
  if isAdmin then
    let delete :=
      m <- lift (deref (cq_message callbackQuery)) ;;
      call (DeleteMessage (chat_id (chat m)) (message_id m)) in
    if is_string (cq_data callbackQuery) "accept" then
      match (m <~ deref (cq_message callbackQuery) ;; serializeMessage m) with
      | Throw (SerializationError msg) =>
          (* the catch clause returns *)
          m <- lift (deref (cq_message callbackQuery)) ;;
          sendMessage (chat_id (chat m)) msg
      | outcome =>
          let serializedMessage :=
            match outcome with Return s => Some s | Throw _ => None end in
          storeSerializedMessage serializedMessage ;;
          delete ;;
          answer
      end
    else delete ;; answer
  else answer.

(** *** The event loop *)

(** [bot.on('message', ...)]: commands are texts that start with a slash. *)
Definition onMessage (message : Message) : M unit :=
  match text message with
  | Some (String "/" _) => handleCommand message
  | _ => handleMedia message
  end.

Inductive Event : Type :=
| Incoming (message : Message)
| Pressed (callbackQuery : CallbackQuery)
| Fires (handle : nat) (now : Date).

Definition armed (h : nat) (w : World) : bool :=
  existsb (fun t => Nat.eqb (fst t) h) (pending w).

(** A timer that fires leaves the set of armed timers. *)
Definition expire (h : nat) (w : World) : World :=
  with_timers (postTimer w)
              (filter (fun t => negb (Nat.eqb (fst t) h)) (pending w))
              (next_handle w) w.

(** One event, handled from the start of its handler to the end before the
    next event is looked at: [run] describes the runs in which no event
    arrives while a handler is waiting at an [await] (for handlers that do
    overlap, see [overlap]).  A handler's rejection is logged by the
    [unhandledRejection] listener and the process goes on.  A timer can
    only fire while it is armed: [None] is an event that cannot happen. *)
Definition step (ev : Event) (w : World) : option World :=
  match ev with
  | Incoming message => Some (snd (onMessage message w))
  | Pressed callbackQuery => Some (snd (handleCallbackQuery callbackQuery w))
  | Fires h now =>
      if armed h w then Some (snd (handlePostTimer now (expire h w)))
      else None
  end.

Fixpoint run (evs : list Event) (w : World) : option World :=
  match evs with
  | [] => Some w
  | ev :: evs' =>
      match step ev w with
      | Some w' => run evs' w'
      | None => None
      end
  end.

(** The process after startup: the store as loaded from disk, no call made
    yet, and the first tick scheduled by the top-level
    [schedulePostTimer()]. *)
Definition loaded (d : list Doc) (n : nat) : World :=
  {| docs := d; next_id := n; postTimer := None; pending := [];
     next_handle := 0; trace := []; draws := 0; ios := 0 |}.

Definition startup (d : list Doc) (n : nat) : World :=
  snd (schedulePostTimer (loaded d n)).

End Bot.

(* ------------------------------------------------------------------ *)
(** ** Startup: the administrators of the chat *)

(** An entry of [bot.getChatAdministrators(CHAT_ID)]. *)
Record ChatMember := { member_user : User; status : string }.

Inductive Startup : Type :=
| Started (administratorsIds : list Z) (ownerId : Z)
| NoOwnerFound.

(** [map(administrators, ({user: {id}}) => id)],
    [find(administrators, {status: 'creator'})?.user?.id], and
    [if (!ownerId) throw new Error('No owner found')]. *)
Definition administrators_of (administrators : list ChatMember) : Startup :=
  let administratorsIds :=
    map (fun a => user_id (member_user a)) administrators in
  let ownerId :=
    option_map (fun a => user_id (member_user a))
      (find (fun a => String.eqb (status a) "creator") administrators) in
  if truthy ownerId then
    match ownerId with
    | Some i => Started administratorsIds i
    | None => NoOwnerFound
    end
  else NoOwnerFound.

(* ------------------------------------------------------------------ *)
(** ** The first revision of the script

    The codec, [postRandomMessage], [sendSerializedMessage],
    [checkAdminRights], [storeSerializedMessage] and [handleCallbackQuery]
    are the same text in both revisions.  The first revision has a fixed
    post chance, publishes one document per tick, keeps no timer handle and
    has no blacklist. *)

Module Rev1.

Section Bot.

Variable cfg : Config.
Variable env : Env.
(** [postChance: POST_CHANCE = 0.2] *)
Variable POST_CHANCE : Q.

Definition schedulePostTimer : M unit :=
  r <- Math_random env ;;
  _ <- setTimeout (POST_INTERVAL cfg + POST_INTERVAL_OFFSET cfg * r) ;;
  ret tt.

Definition handlePostTimer (now : Date) : M unit :=
  try_finally
    (let hour := hour_of now in
     if Qltb (MIN_HOUR cfg) hour && Qltb hour (MAX_HOUR cfg) then
       r <- Math_random env ;;
       if Qltb r POST_CHANCE then postRandomMessage cfg env else ret tt
     else ret tt)
    schedulePostTimer.

Definition handleCommand (message : Message) : M unit :=
  isAdmin <- checkAdminRights env (from message) ;;
  let command := text message in
  let chatId := chat_id (chat message) in
  let unknown := sendMessage env chatId "Unknown command :(" in
  if is_string command "/start" then
    if negb isAdmin then sendMessage env chatId "Hi! Send me some memes :)"
    else call env (SendMessage chatId "Hi!"
                 [("reply_markup",
                   PMarkup (keyboard [["/queue_info"; "/random_post"]]))]%string)
  else if is_string command "/queue_info" then
    if isAdmin then
      count <- db_count env ;;
      sendMessage env chatId ("Message queue size: " ++ toString count)
    else unknown
  else if is_string command "/random_post" then
    if isAdmin then postRandomMessage cfg env else unknown
  else unknown.

Definition handleMedia (message : Message) : M unit :=
  isAdmin <- checkAdminRights env (from message) ;;
  match serializeMessage message with
  | Throw (SerializationError msg) =>
      sendMessage env (chat_id (chat message)) msg
  | outcome =>
      let serializedMessage :=
        match outcome with Return s => Some s | Throw _ => None end in
      if truthy serializedMessage then
        if isAdmin then
          storeSerializedMessage env serializedMessage ;;
          call env (DeleteMessage (chat_id (chat message)) (message_id message))
        else
          sendSerializedMessage env (ownerId env)
            (option_map addAdminReplyMarkup serializedMessage) ;;
          sendMessage env (chat_id (chat message))
                      "Thanks for your contribution!"
      else ret tt
  end.

End Bot.

End Rev1.

(* ------------------------------------------------------------------ *)
(** * Vocabulary of the properties *)

(** A computation is [stable] for a relation between the world before and
    the world after when it always ends in a related world, whether it
    returns or throws. *)
Definition stable (R : World -> World -> Prop) {A} (c : M A) : Prop :=
  forall w, R w (snd (c w)).

(** The properties [pickMessageProps] picks. *)
Definition caption_keys : list string :=
  ["caption"; "parse_mode"; "caption_entities"]%string.

(** The three rejections of the codec, by the message each one carries. *)
Definition grouped_media_unsupported : exn :=
  SerializationError "Media groups are not supported yet :(".
Definition text_only_unsupported : exn :=
  SerializationError "No text only content :(".
Definition no_allowed_content : exn :=
  SerializationError "No allowed content found :(".

(** The media of the kind a method sends is on the message. *)
Definition kind_present (k : Method) (message : Message) : Prop :=
  match k with
  | sendPhoto => photo message <> None
  | sendVideo => video message <> None
  | sendAnimation => animation message <> None
  end.

(** Order and value of numbers; NaN is comparable to nothing. *)
Definition num_le (x y : Num) : Prop :=
  match x, y with
  | NaN, _ | _, NaN => False
  | Fin a, Fin b => a <= b
  | NegInf, _ => True
  | _, PosInf => True
  | _, _ => False
  end.

Definition num_is (x : Num) (q : Q) : Prop :=
  match x with
  | Fin a => a == q
  | _ => False
  end.

(** The calls to the timer functions, and the calls to the gateway. *)
Definition is_timer_call (e : Effect) : bool :=
  match e with
  | SetTimeout _ _ | ClearTimeout _ => true
  | _ => false
  end.

Definition timer_calls (t : list Effect) : list Effect :=
  filter is_timer_call t.

Definition gateway_calls (t : list Effect) : list Effect :=
  filter (fun e => negb (is_timer_call e)) t.

(** Nothing about timers changed: the trace grew by calls that are not
    timer calls, and [Math.random] was not rewound. *)
Definition timers_kept (w w' : World) : Prop :=
  postTimer w' = postTimer w /\
  pending w' = pending w /\
  next_handle w' = next_handle w /\
  (exists t, trace w' = trace w ++ t /\ timer_calls t = []) /\
  (draws w <= draws w')%nat.

(** The store is as it was and no call went to the gateway. *)
Definition quiet (w w' : World) : Prop :=
  docs w' = docs w /\
  next_id w' = next_id w /\
  gateway_calls (trace w') = gateway_calls (trace w).

(** The delay of a tick scheduled with the [k]-th draw, as the rational
    number that the code's sum of doubles rounds. *)
Definition next_delay (cfg : Config) (env : Env) (k : nat) : Q :=
  POST_INTERVAL cfg + POST_INTERVAL_OFFSET cfg * random env k.

(** What [if (postTimer) clearTimeout(postTimer)] calls and leaves armed. *)
Definition cancel (t : option nat) : list Effect :=
  match t with
  | Some h => [ClearTimeout h]
  | None => []
  end.

Definition disarm (t : option nat) (p : list (nat * Q)) : list (nat * Q) :=
  match t with
  | Some h => filter (fun x => negb (Nat.eqb (fst x) h)) p
  | None => p
  end.

(** The world in which a tick continues after its [db.count] succeeded and
    it made [n] draws. *)
Definition counted (n : nat) (w : World) : World :=
  with_draws (n + draws w) (with_ios (S (ios w)) w).

Definition ids (l : list Doc) : list nat := map _id l.

(** The store as nedb keeps it: identifiers are unique and below the supply
    of fresh ones; [stocked] adds that every document holds a serialized
    message (not [null]). *)
Definition store_ok (w : World) : Prop :=
  NoDup (ids (docs w)) /\
  Forall (fun d => (_id d < next_id w)%nat) (docs w).

Definition stocked (w : World) : Prop :=
  Forall (fun d => doc_message d <> None) (docs w).

(** The gateway and the store never fail; the draws are in [0, 1). *)
Definition reliable (env : Env) : Prop := forall n, fails env n = false.
Definition uniform (env : Env) : Prop := forall n, 0 <= random env n < 1.

(** The position [postRandomMessage] skips to. *)
Definition pick_index (env : Env) (w : World) : nat :=
  Z.to_nat (Math_floor (random env (draws w) *
                        inject_Z (Z.of_nat (List.length (docs w))))).

(** Where a publish goes: the chat, or the owner when debugging. *)
Definition target (cfg : Config) (env : Env) : Z :=
  if DEBUG cfg then ownerId env else CHAT_ID cfg.

Definition publish_of (cfg : Config) (env : Env) (s : Serialized) : Effect :=
  SendMedia (method s) (target cfg env) (fileId s) (options s).

(** The world after document [d], holding [s], was published and removed. *)
Definition taken (cfg : Config) (env : Env) (d : Doc) (s : Serialized)
  (w : World) : World :=
  with_store (remove_id (_id d) (docs w)) (next_id w)
    (with_trace (trace w ++ [publish_of cfg env s])
       (with_draws (S (draws w)) (with_ios (4 + ios w) w))).

Definition is_publish (e : Effect) : bool :=
  match e with
  | SendMedia _ _ _ _ => true
  | _ => false
  end.

(** How many media were sent. *)
Definition published (t : list Effect) : nat :=
  List.length (filter is_publish t).

(** An identifier that was handed out and is no longer in the store. *)
Definition spent (i : nat) (w : World) : Prop :=
  (i < next_id w)%nat /\ ~ In i (ids (docs w)).

Definition spent_kept (i : nat) (w w' : World) : Prop :=
  spent i w -> spent i w'.

(** [storeSerializedMessage] of each item in turn. *)
Fixpoint storeAll (env : Env) (items : list Serialized) : M unit :=
  match items with
  | [] => ret tt
  | s :: rest => storeSerializedMessage env (Some s) ;; storeAll env rest
  end.

(** A property of worlds that holds after if it held before. *)
Definition keeps (P : World -> Prop) (w w' : World) : Prop := P w -> P w'.

(** At most one timer is armed, and it is the one [postTimer] holds. *)
Definition timers_ok (w : World) : Prop :=
  (List.length (pending w) <= 1)%nat /\
  (forall t, In t (pending w) -> postTimer w = Some (fst t)) /\
  (forall h, postTimer w = Some h -> (h < next_handle w)%nat).

(** A handle that was issued and is not armed. *)
Definition retired (h : nat) (w : World) : Prop :=
  (h < next_handle w)%nat /\ armed h w = false.

(** Concrete inputs used to exercise the statements below. *)
Module Demo.

Definition blacklist : list Z := [-100666]%Z.

Definition cfg : Config := {|
  CHAT_ID := -1001;
  DEBUG := false;
  MIN_HOUR := 5;
  MAX_HOUR := 19;
  MIN_POST_COUNT := 4;
  MAX_POST_COUNT := 5;
  POST_INTERVAL := 90 * 60 * 1000;
  POST_INTERVAL_OFFSET := (90 * 60 * 1000) / 10;
  BASE_POST_CHANCE := 1 # 4;
  BASE_POST_CHANCE_POST_COUNT := 25;
  BLACKLISTED_CHAT_IDS := blacklist
|}.

(** Users 1 (the owner) and 2 administer the chat; every draw is 1/2 and
    nothing fails. *)
Definition env : Env := {|
  administratorsIds := [1; 2]%Z;
  ownerId := 1;
  random := fun _ => 1 # 2;
  fails := fun _ => false
|}.

(** The same, with a store and gateway that reject every operation. *)
Definition failing_env : Env := {|
  administratorsIds := [1; 2]%Z;
  ownerId := 1;
  random := fun _ => 1 # 2;
  fails := fun _ => true
|}.

(** The same as [env], with every draw 0. *)
Definition eager_env : Env := {|
  administratorsIds := [1; 2]%Z;
  ownerId := 1;
  random := fun _ => 0;
  fails := fun _ => false
|}.

(** A photo forwarded from the blacklisted chat, sent by [sender] as part
    of an album when [group] is set. *)
Definition forwarded_photo (sender : Z) (group : option string) : Message := {|
  message_id := 7;
  from := Some {| user_id := sender |};
  chat := {| chat_id := sender |};
  forward_date := Some 1600000000%Z;
  forward_from_chat := Some {| chat_id := -100666 |};
  media_group_id := group;
  photo := Some [{| file_id := "small" |}; {| file_id := "large" |}];
  video := None;
  animation := None;
  text := None;
  caption := Some "look"%string;
  parse_mode := None;
  caption_entities := None
|}.

(** A photo of the sender's own, with a caption. *)
Definition own_photo : Message := {|
  message_id := 10;
  from := Some {| user_id := 5 |};
  chat := {| chat_id := 5 |};
  forward_date := None;
  forward_from_chat := None;
  media_group_id := None;
  photo := Some [{| file_id := "small" |}; {| file_id := "large" |}];
  video := None;
  animation := None;
  text := None;
  caption := Some "look"%string;
  parse_mode := None;
  caption_entities := None
|}.

(** A text message from [sender]. *)
Definition text_message (sender : Z) (t : string) : Message := {|
  message_id := 8;
  from := Some {| user_id := sender |};
  chat := {| chat_id := sender |};
  forward_date := None;
  forward_from_chat := None;
  media_group_id := None;
  photo := None;
  video := None;
  animation := None;
  text := Some t;
  caption := None;
  parse_mode := None;
  caption_entities := None
|}.

(** A message from [sender] with no content. *)
Definition bare_message (sender : Z) : Message := {|
  message_id := 9;
  from := Some {| user_id := sender |};
  chat := {| chat_id := sender |};
  forward_date := None;
  forward_from_chat := None;
  media_group_id := None;
  photo := None;
  video := None;
  animation := None;
  text := None;
  caption := None;
  parse_mode := None;
  caption_entities := None
|}.

Definition photo_doc (i : nat) (f : string) : Doc :=
  {| _id := i;
     doc_message := Some {| method := sendPhoto; fileId := f; options := [] |} |}.

(** The process just started on a store of two photos. *)
Definition world : World :=
  startup cfg env [photo_doc 0 "a"; photo_doc 1 "b"] 2.

End Demo.

Definition not_welcome : string := "This content is not welcome here :(".

Definition carries_media (m : Message) : Prop :=
  photo m <> None \/ video m <> None \/ animation m <> None.

(** The store holds what it held. *)
Definition store_kept (w w' : World) : Prop :=
  docs w' = docs w /\ next_id w' = next_id w.

(** The configuration with another blacklist. *)
Definition with_blacklist (l : list Z) (cfg : Config) : Config := {|
  CHAT_ID := CHAT_ID cfg;
  DEBUG := DEBUG cfg;
  MIN_HOUR := MIN_HOUR cfg;
  MAX_HOUR := MAX_HOUR cfg;
  MIN_POST_COUNT := MIN_POST_COUNT cfg;
  MAX_POST_COUNT := MAX_POST_COUNT cfg;
  POST_INTERVAL := POST_INTERVAL cfg;
  POST_INTERVAL_OFFSET := POST_INTERVAL_OFFSET cfg;
  BASE_POST_CHANCE := BASE_POST_CHANCE cfg;
  BASE_POST_CHANCE_POST_COUNT := BASE_POST_CHANCE_POST_COUNT cfg;
  BLACKLISTED_CHAT_IDS := l
|}.

Definition is_answer (e : Effect) : bool :=
  match e with
  | AnswerCallbackQuery _ => true
  | _ => false
  end.

(** How many times the callback was acknowledged. *)
Definition answers (t : list Effect) : nat :=
  List.length (filter is_answer t).

(** An administrator presses "Yes" on a prompt whose content the gateway no
    longer delivers (a message too old to be accessible comes with its chat
    and identifier only). *)
Definition accept_stale_prompt : CallbackQuery := {|
  cq_id := "q1";
  cq_from := Some {| user_id := 1 |};
  cq_message := Some (Demo.bare_message 1);
  cq_data := Some "accept"%string
|}.

Definition noon : Date := {| getHours := 12; getTimezoneOffset := 0 |}.
Definition five : Date := {| getHours := 8; getTimezoneOffset := -180 |}.

(** Who an event comes from; a timer comes from nobody. *)
Definition sender (ev : Event) : option User :=
  match ev with
  | Incoming message => from message
  | Pressed callbackQuery => cq_from callbackQuery
  | Fires _ _ => None
  end.

Definition is_admin (env : Env) (u : User) : bool :=
  existsb (Z.eqb (user_id u)) (administratorsIds env).

(** An event caused by a user who is not an administrator. *)
Definition ordinary (env : Env) (ev : Event) : Prop :=
  exists u, sender ev = Some u /\ is_admin env u = false.

(** The reply of [handleCommand] to someone who is not an administrator. *)
Definition ordinary_reply (command : string) : string :=
  if String.eqb command "/start" then "Hi! Send me some memes :)"
  else "Unknown command :(".

(** The inline keyboard of a review prompt. *)
Definition review_keyboard : PropVal :=
  PMarkup (inline_keyboard [[("Yes", "accept"); ("No", "reject")]]%string).

(** The reply keyboard administrators get from [/start]. *)
Definition admin_keyboard : Options :=
  [("reply_markup",
    PMarkup (keyboard [["/queue_info"; "/random_post"]]))]%string.

(** The number of items a matched publish command asks for. *)
Definition requested (group1 : option string) : Z :=
  match group1 with
  | Some digits => Number digits
  | None => 1%Z
  end.

(** The document a stored [null] makes. *)
Definition null_doc (i : nat) : Doc := {| _id := i; doc_message := None |}.

(** What [handleCallbackQuery] passes to the codec: the message of the
    query, when it has one. *)
Definition reencoded (q : CallbackQuery) : result Serialized :=
  m <~ deref (cq_message q) ;; serializeMessage m.

(** A batch only drops what it sent: no identifier is handed out, every
    document left was there before, every call added publishes to the target
    chat, and at most as many documents are gone as calls were added. *)
Definition no_loss (cfg : Config) (env : Env) (w w' : World) : Prop :=
  next_id w' = next_id w /\
  (forall d, In d (docs w') -> In d (docs w)) /\
  exists t,
    trace w' = trace w ++ t /\
    Forall (fun e => exists s, e = publish_of cfg env s) t /\
    (List.length (docs w) <= List.length (docs w') + List.length t)%nat.

(** A store whose only document holds [null], and an oracle that rejects
    the third operation only. *)
Definition poisoned : World :=
  {| docs := [null_doc 0]; next_id := 1; postTimer := None; pending := [];
     next_handle := 0; trace := []; draws := 0; ios := 0 |}.

Definition third_fails : Env := {|
  administratorsIds := [1; 2]%Z;
  ownerId := 1;
  random := fun _ => 1 # 2;
  fails := fun n => Nat.eqb n 2
|}.

(** The process on a store of one photo. *)
Definition one_photo : World :=
  startup Demo.cfg Demo.env [Demo.photo_doc 0 "a"] 1.

(** The same after two [/random_post] commands of an administrator that
    arrived together: each handler has replaced the timer and has called
    [postRandomMessage], which waits for its count. *)
Definition two_commands : World :=
  snd (schedulePostTimer Demo.cfg Demo.env
         (snd (schedulePostTimer Demo.cfg Demo.env one_photo))).

(** The event loop resumes two calls in turn, four times each. *)
Definition in_turn : list Turn :=
  [First; Second; First; Second; First; Second; First; Second].

(** As [Demo.env], with a fourth operation that is rejected. *)
Definition fourth_fails : Env := {|
  administratorsIds := [1; 2]%Z;
  ownerId := 1;
  random := fun _ => 1 # 2;
  fails := fun n => Nat.eqb n 3
|}.

(** The process just started on an empty store. *)
Definition empty_world : World := startup Demo.cfg Demo.eager_env [] 0.

(** A photo message whose size list is empty. *)
Definition no_sizes_photo : Message := {|
  message_id := 11;
  from := Some {| user_id := 2 |};
  chat := {| chat_id := 2 |};
  forward_date := None;
  forward_from_chat := None;
  media_group_id := None;
  photo := Some [];
  video := None;
  animation := None;
  text := None;
  caption := None;
  parse_mode := None;
  caption_entities := None
|}.

(** A channel post: a message without a sender. *)
Definition channel_post : Message := {|
  message_id := 12;
  from := None;
  chat := {| chat_id := -1001 |};
  forward_date := None;
  forward_from_chat := None;
  media_group_id := None;
  photo := Some [{| file_id := "small" |}];
  video := None;
  animation := None;
  text := None;
  caption := None;
  parse_mode := None;
  caption_entities := None
|}.

(** An event that cannot make the codec raise anything but its own error:
    a pressed button comes with a message whose photo, if any, has a size. *)
Definition well_formed (ev : Event) : Prop :=
  match ev with
  | Pressed q => reencoded q <> Throw TypeError
  | _ => True
  end.

(** A computation out of which no SerializationError escapes. *)
Definition contained {A} (c : M A) : Prop :=
  forall w msg, fst (c w) <> Throw (SerializationError msg).

(** A text made of white-space characters only, possibly none. *)
Inductive white_spaces : string -> Prop :=
| no_space : white_spaces EmptyString
| one_more_space (x s : string) :
    In x white_space -> white_spaces s -> white_spaces (x ++ s).

(* ------------------------------------------------------------------ *)
(** * Properties *)

(** Unfold the truthiness tests down to the comparison they make. *)
Ltac unfold_truthy :=
  cbv [truthy truthy_option truthy_string truthy_Z truthy_list truthy_Chat
       truthy_File truthy_Serialized] in *.

(** ** The codec *)

Lemma pick_In (object : string -> option PropVal) (paths : list string)
  (key : string) (v : PropVal) :
  In (key, v) (pick object paths) <-> In key paths /\ object key = Some v.
Proof.
  unfold pick. rewrite in_flat_map. split.
  - intros [k [Hk Hin]]. destruct (object k) eqn:E.
    + destruct Hin as [Heq | []]. inversion Heq; subst. auto.
    + destruct Hin.
  - intros [Hk Ho]. exists key. split; [assumption|].
    rewrite Ho. left. reflexivity.
Qed.

(** C9.  A message whose forward timestamp is set (a non-zero number, which
    is what the test [message.forward_date ? ...] sees) gets the empty
    bundle, whatever caption, parse mode and entities it has.  Any other
    message gets exactly those of its caption, parse_mode and
    caption_entities that it has: in the bundle, each of the three keys has
    the value the message has for it and is missing when the message has
    none, there is no other key, and no key comes twice. *)
Theorem pickMessageProps_forwarded_or_subset (message : Message) :
  (forall date : Z, forward_date message = Some date -> date <> 0%Z ->
     pickMessageProps message = []) /\
  (truthy (forward_date message) = false ->
     lookup_prop (pickMessageProps message) "caption" =
       option_map PStr (caption message) /\
     lookup_prop (pickMessageProps message) "parse_mode" =
       option_map PStr (parse_mode message) /\
     lookup_prop (pickMessageProps message) "caption_entities" =
       option_map PEntities (caption_entities message) /\
     (forall key v, In (key, v) (pickMessageProps message) ->
                    In key caption_keys) /\
     NoDup (map fst (pickMessageProps message))).
Proof.
  unfold pickMessageProps. split.
  - intros date Hd Hnz. rewrite Hd.
    unfold_truthy.
    destruct (Z.eqb_spec date 0); [contradiction | reflexivity].
  - intros Hf. rewrite Hf.
    split; [|split; [|split; [|split]]].
    + unfold pick, message_prop. cbn.
      destruct (caption message); [reflexivity|].
      destruct (parse_mode message), (caption_entities message); reflexivity.
    + unfold pick, message_prop. cbn.
      destruct (caption message), (parse_mode message); try reflexivity;
        destruct (caption_entities message); reflexivity.
    + unfold pick, message_prop. cbn.
      destruct (caption message), (parse_mode message),
        (caption_entities message); reflexivity.
    + intros key v Hin. apply pick_In in Hin. apply Hin.
    + unfold pick, message_prop. cbn.
      destruct (caption message), (parse_mode message),
        (caption_entities message); cbn;
        repeat constructor; cbn; intuition discriminate.
Qed.

(** C1.  The rules of [serializeMessage], in order: a media-group marker
    rejects whatever else the message has; otherwise a photo (with [first]
    the first entry of its size list) gives a sendPhoto of [first]'s file
    handle; otherwise a video gives a sendVideo; otherwise an animation a
    sendAnimation; otherwise a text rejects as text-only; otherwise the
    message has no allowed content.  A success has the kind of a media that
    is present, and no message both succeeds and is rejected. *)
Theorem serializeMessage_rules (message : Message) :
  (truthy (media_group_id message) = true ->
     serializeMessage message = Throw grouped_media_unsupported) /\
  (truthy (media_group_id message) = false ->
     (forall first rest, photo message = Some (first :: rest) ->
        serializeMessage message =
        Return {| method := sendPhoto; fileId := file_id first;
                  options := pickMessageProps message |}) /\
     (photo message = None ->
        (forall v, video message = Some v ->
           serializeMessage message =
           Return {| method := sendVideo; fileId := file_id v;
                     options := pickMessageProps message |}) /\
        (video message = None ->
           (forall a, animation message = Some a ->
              serializeMessage message =
              Return {| method := sendAnimation; fileId := file_id a;
                        options := pickMessageProps message |}) /\
           (animation message = None ->
              (truthy (text message) = true ->
                 serializeMessage message = Throw text_only_unsupported) /\
              (truthy (text message) = false ->
                 serializeMessage message = Throw no_allowed_content))))) /\
  (forall s, serializeMessage message = Return s ->
     kind_present (method s) message /\
     options s = pickMessageProps message) /\
  (forall s e, serializeMessage message = Return s ->
     serializeMessage message <> Throw e).
Proof.
  split; [|split; [|split]].
  - unfold serializeMessage. intros ->. reflexivity.
  - unfold serializeMessage. intros Hg. rewrite Hg. split.
    { intros first rest Hp. rewrite Hp. reflexivity. }
    intros Hp. rewrite Hp. split.
    { intros v Hv. rewrite Hv. reflexivity. }
    intros Hv. rewrite Hv. split.
    { intros a Ha. rewrite Ha. reflexivity. }
    intros Ha. rewrite Ha. cbn.
    split; intros Ht; rewrite Ht; reflexivity.
  - intros s. unfold serializeMessage.
    destruct (truthy (media_group_id message)); [discriminate|].
    destruct (photo message) as [[|p ps]|] eqn:Ep; cbn; try discriminate.
    { intros H; inversion H; subst; cbn. rewrite Ep. split; [discriminate | reflexivity]. }
    destruct (video message) eqn:Ev; cbn.
    { intros H; inversion H; subst; cbn. rewrite Ev. split; [discriminate | reflexivity]. }
    destruct (animation message) eqn:Ea; cbn.
    { intros H; inversion H; subst; cbn. rewrite Ea. split; [discriminate | reflexivity]. }
    destruct (truthy (text message)); discriminate.
  - intros s e H He. rewrite H in He. discriminate.
Qed.

(** ** The post chance *)

Lemma Qltb_lt (a b : Q) : Qltb a b = true <-> a < b.
Proof.
  unfold Qltb. rewrite negb_true_iff. split.
  - intros H. apply Qnot_le_lt. intros Hle.
    apply Qle_bool_iff in Hle. congruence.
  - intros H. destruct (Qle_bool b a) eqn:E; [|reflexivity].
    apply Qle_bool_iff in E. exfalso. apply (Qlt_not_le _ _ H E).
Qed.

Lemma postChance_finite (cfg : Config) (count : Z) :
  0 < BASE_POST_CHANCE_POST_COUNT cfg ->
  postChance cfg count =
  Fin (Qmin (BASE_POST_CHANCE cfg *
             (inject_Z count / BASE_POST_CHANCE_POST_COUNT cfg)) 1).
Proof.
  intros Hn. unfold postChance, num_div.
  destruct (Qeq_bool (BASE_POST_CHANCE_POST_COUNT cfg) 0) eqn:E.
  - apply Qeq_bool_iff in E. rewrite E in Hn. discriminate.
  - reflexivity.
Qed.

(** C2.  For a non-negative base chance and a positive normalising backlog,
    the post chance min(base * (backlog / norm), 1) does not decrease when
    the backlog grows, never exceeds 1 and is 0 for an empty backlog; with
    base 0.25 and norm 25 it is 0.25 at backlog 25 and 1 at backlog 200. *)
Theorem postChance_monotone_capped (cfg : Config)
  (Hbase : 0 <= BASE_POST_CHANCE cfg)
  (Hnorm : 0 < BASE_POST_CHANCE_POST_COUNT cfg) :
  (forall n m : Z, (n <= m)%Z ->
     num_le (postChance cfg n) (postChance cfg m)) /\
  (forall n : Z, num_le (postChance cfg n) (Fin 1)) /\
  num_is (postChance cfg 0) 0 /\
  (BASE_POST_CHANCE cfg == 1 # 4 ->
   BASE_POST_CHANCE_POST_COUNT cfg == 25 ->
   num_is (postChance cfg 25) (1 # 4) /\ num_is (postChance cfg 200) 1).
Proof.
  repeat split.
  - intros n m Hnm. rewrite !postChance_finite by assumption. cbn.
    apply Q.min_le_compat_r.
    rewrite !(Qmult_comm (BASE_POST_CHANCE cfg)).
    apply Qmult_le_compat_r; [|assumption].
    unfold Qdiv. apply Qmult_le_compat_r.
    + rewrite <- Zle_Qle. assumption.
    + apply Qinv_le_0_compat. apply Qlt_le_weak. assumption.
  - intros n. rewrite postChance_finite by assumption. cbn.
    apply Q.le_min_r.
  - rewrite postChance_finite by assumption. cbn.
    setoid_replace (BASE_POST_CHANCE cfg *
                    (inject_Z 0 / BASE_POST_CHANCE_POST_COUNT cfg)) with 0
      by (unfold Qdiv; ring).
    reflexivity.
  - rewrite postChance_finite by assumption. cbn. rewrite H, H0. reflexivity.
  - rewrite postChance_finite by assumption. cbn. rewrite H, H0. reflexivity.
Qed.

(** The claim at the defaults of the script. *)
Lemma postChance_monotone_capped_witness :
  num_is (postChance (default_config 0) 25) (1 # 4) /\
  num_is (postChance (default_config 0) 200) 1 /\
  num_le (postChance (default_config 0) 3) (postChance (default_config 0) 40).
Proof.
  assert (Hb : 0 <= BASE_POST_CHANCE (default_config 0)) by (cbn; lra).
  assert (Hn : 0 < BASE_POST_CHANCE_POST_COUNT (default_config 0))
    by (cbn; lra).
  destruct (postChance_monotone_capped (default_config 0) Hb Hn)
    as (Hmono & _ & _ & Hex).
  destruct (Hex (Qeq_refl _) (Qeq_refl _)) as [H25 H200].
  split; [exact H25 | split; [exact H200 | apply Hmono; lia]].
Defined.

(* ------------------------------------------------------------------ *)
(** ** Frame reasoning for handlers *)

(** For a preorder, [stable] is closed under the operations of the
    monad. *)
Section Stable.

Variable R : World -> World -> Prop.
Hypothesis R_refl : forall w, R w w.
Hypothesis R_trans : forall a b c, R a b -> R b c -> R a c.

Lemma stable_ret {A} (a : A) : stable R (ret a).
Proof. intros w. apply R_refl. Qed.

Lemma stable_throw {A} (e : exn) : stable R (@throw A e).
Proof. intros w. apply R_refl. Qed.

Lemma stable_lift {A} (r : result A) : stable R (lift r).
Proof. intros w. apply R_refl. Qed.

Lemma stable_gets {A} (f : World -> A) : stable R (gets f).
Proof. intros w. apply R_refl. Qed.

Lemma stable_modify (f : World -> World) :
  (forall w, R w (f w)) -> stable R (modify f).
Proof. intros H w. apply H. Qed.

Lemma stable_bind {A B} (c : M A) (k : A -> M B) :
  stable R c -> (forall a, stable R (k a)) -> stable R (bind c k).
Proof.
  intros Hc Hk w. unfold bind. specialize (Hc w).
  destruct (c w) as [[a | e] w']; cbn in *.
  - eapply R_trans; [exact Hc | apply Hk].
  - exact Hc.
Qed.

Lemma stable_repeatM (n : nat) (body : M unit) :
  stable R body -> stable R (repeatM n body).
Proof.
  intros Hb. induction n as [| n IH]; cbn.
  - apply stable_ret.
  - apply stable_bind; [exact Hb | intros _; exact IH].
Qed.

Lemma stable_try_finally {A} (body : M A) (fin : M unit) :
  stable R body -> stable R fin -> stable R (try_finally body fin).
Proof.
  intros Hb Hf w. unfold try_finally. specialize (Hb w).
  destruct (body w) as [r w']. specialize (Hf w').
  destruct (fin w') as [[[] | e] w'']; cbn in *;
    eapply R_trans; eassumption.
Qed.

End Stable.

(** [try ... finally] ends where the finally block ends. *)
Lemma try_finally_world {A} (body : M A) (fin : M unit) (w : World) :
  snd (try_finally body fin w) = snd (fin (snd (body w))).
Proof.
  unfold try_finally. destruct (body w) as [r w']. cbn.
  destruct (fin w') as [[[] | e] w'']; reflexivity.
Qed.

Lemma timers_kept_refl w : timers_kept w w.
Proof.
  unfold timers_kept. repeat split; try reflexivity.
  exists []. rewrite app_nil_r. auto.
Qed.

Lemma timers_kept_trans a b c :
  timers_kept a b -> timers_kept b c -> timers_kept a c.
Proof.
  unfold timers_kept.
  intros (H1 & H2 & H3 & (t & Ht & Hn) & H5) (G1 & G2 & G3 & (u & Hu & Hm) & G5).
  repeat split; try congruence; try lia.
  exists (t ++ u). split.
  - rewrite Hu, Ht, app_assoc. reflexivity.
  - unfold timer_calls in *. rewrite filter_app, Hn, Hm. reflexivity.
Qed.

Lemma quiet_refl w : quiet w w.
Proof. unfold quiet. auto. Qed.

Lemma quiet_trans a b c : quiet a b -> quiet b c -> quiet a c.
Proof.
  unfold quiet. intros (H1 & H2 & H3) (G1 & G2 & G3).
  repeat split; congruence.
Qed.

Create HintDb frame.
#[local] Hint Resolve timers_kept_refl quiet_refl : frame.

(** Decompose a handler into its primitive operations, for a preorder
    given by its reflexivity and transitivity lemmas. *)
Ltac stable_auto refl trans :=
  repeat match goal with
    | |- stable _ (ret _) => apply stable_ret; exact refl
    | |- stable _ (throw _) => apply stable_throw; exact refl
    | |- stable _ (lift _) => apply stable_lift; exact refl
    | |- stable _ (gets _) => apply stable_gets; exact refl
    | |- stable _ (bind _ _) => apply stable_bind; [exact trans | | intro]
    | |- stable _ (repeatM _ _) =>
        apply stable_repeatM; [exact refl | exact trans |]
    | |- stable _ (try_finally _ _) =>
        apply stable_try_finally; [exact trans | |]
    | |- stable _ (if ?b then _ else _) => destruct b
    | |- stable _ (match ?x with _ => _ end) => destruct x
    | |- stable _ _ => solve [auto with frame]
    end.

Section Frames.

Variable cfg : Config.
Variable env : Env.

Ltac timers_untouched :=
  unfold timers_kept; cbn; repeat split; try lia;
  exists []; rewrite app_nil_r; auto.

Lemma Math_random_timers_kept : stable timers_kept (Math_random env).
Proof. intros w. timers_untouched. Qed.

Lemma io_timers_kept : stable timers_kept (io env).
Proof.
  intros w. unfold io. destruct (fails env (ios w)); timers_untouched.
Qed.

Lemma emit_timers_kept e :
  is_timer_call e = false -> stable timers_kept (emit e).
Proof.
  intros He w. unfold timers_kept; cbn. repeat split; try lia.
  exists [e]. split; [reflexivity|]. cbn. rewrite He. reflexivity.
Qed.

Lemma modify_ios_timers_kept f :
  stable timers_kept (modify (fun w => with_ios (f w) w)).
Proof. intros w. timers_untouched. Qed.

Lemma modify_store_timers_kept d n :
  stable timers_kept (modify (fun w => with_store (d w) (n w) w)).
Proof. intros w. timers_untouched. Qed.

#[local] Hint Resolve Math_random_timers_kept io_timers_kept
  modify_ios_timers_kept modify_store_timers_kept : frame.

Lemma call_timers_kept e :
  is_timer_call e = false -> stable timers_kept (call env e).
Proof.
  intros He. unfold call.
  apply stable_bind; [exact timers_kept_trans | | intro].
  - apply emit_timers_kept, He.
  - apply io_timers_kept.
Qed.

Lemma call_detached_timers_kept e :
  is_timer_call e = false -> stable timers_kept (call_detached e).
Proof.
  intros He. unfold call_detached.
  apply stable_bind; [exact timers_kept_trans | | intro].
  - apply emit_timers_kept, He.
  - apply modify_ios_timers_kept.
Qed.

Lemma db_count_timers_kept : stable timers_kept (db_count env).
Proof. unfold db_count. stable_auto timers_kept_refl timers_kept_trans. Qed.

Lemma db_findOne_skip_timers_kept k :
  stable timers_kept (db_findOne_skip env k).
Proof.
  unfold db_findOne_skip. stable_auto timers_kept_refl timers_kept_trans.
Qed.

Lemma db_remove_timers_kept i : stable timers_kept (db_remove env i).
Proof. unfold db_remove. stable_auto timers_kept_refl timers_kept_trans. Qed.

Lemma db_insert_timers_kept m : stable timers_kept (db_insert env m).
Proof. unfold db_insert. stable_auto timers_kept_refl timers_kept_trans. Qed.

#[local] Hint Resolve db_count_timers_kept db_findOne_skip_timers_kept
  db_remove_timers_kept db_insert_timers_kept : frame.

Lemma sendSerializedMessage_timers_kept chatId s :
  stable timers_kept (sendSerializedMessage env chatId s).
Proof.
  unfold sendSerializedMessage.
  stable_auto timers_kept_refl timers_kept_trans.
  apply call_timers_kept. reflexivity.
Qed.

Lemma sendMessage_timers_kept chatId t :
  stable timers_kept (sendMessage env chatId t).
Proof. apply call_timers_kept. reflexivity. Qed.

#[local] Hint Resolve sendSerializedMessage_timers_kept
  sendMessage_timers_kept : frame.

Lemma postRandomMessage_timers_kept :
  stable timers_kept (postRandomMessage cfg env).
Proof.
  unfold postRandomMessage. stable_auto timers_kept_refl timers_kept_trans.
Qed.

Lemma postRandomMessages_timers_kept count :
  stable timers_kept (postRandomMessages cfg env count).
Proof.
  unfold postRandomMessages.
  apply stable_repeatM;
    [exact timers_kept_refl | exact timers_kept_trans |].
  apply postRandomMessage_timers_kept.
Qed.

End Frames.

(** Symbolic execution: unfold the operations of the monad and the
    primitives, then simplify the fields of the worlds built on the way. *)
Ltac run_monad :=
  cbv beta iota zeta delta
    [bind gets ret lift modify throw emit call call_detached io try_finally
     Math_random db_count db_findOne_skip db_remove db_insert
     clearTimeout setTimeout sendMessage sendSerializedMessage
     storeSerializedMessage checkAdminRights deref];
  cbn [docs next_id postTimer pending next_handle trace draws ios
       with_store with_timers with_trace with_draws with_ios fst snd].

(* ------------------------------------------------------------------ *)
(** ** The scheduler *)

Lemma schedulePostTimer_spec (cfg : Config) (env : Env) (w : World) :
  exists w',
    schedulePostTimer cfg env w = (Return tt, w') /\
    postTimer w' = Some (next_handle w) /\
    pending w' = disarm (postTimer w) (pending w) ++
                 [(next_handle w, next_delay cfg env (draws w))] /\
    next_handle w' = S (next_handle w) /\
    trace w' = trace w ++ cancel (postTimer w) ++
               [SetTimeout (next_handle w) (next_delay cfg env (draws w))] /\
    draws w' = S (draws w) /\
    docs w' = docs w /\ next_id w' = next_id w /\ ios w' = ios w.
Proof.
  unfold schedulePostTimer, bind, gets. cbn.
  destruct (postTimer w) as [h|] eqn:E; cbn; eexists; split;
    try reflexivity; cbn; rewrite ?E, <- ?app_assoc; cbn;
    repeat split; reflexivity.
Qed.

(** C5.  Every run of the tick handler, whatever the clock, the draws and
    the failures of the store and of the gateway, and whether it returns or
    throws, ends by scheduling exactly one next tick: the calls it adds to
    the trace are calls [t] that are not timer calls, then the cancelling of
    the handle it found in [postTimer], then one [setTimeout] whose delay is
    POST_INTERVAL + POST_INTERVAL_OFFSET * u for [u] the last draw made; that
    timer is armed and its handle is in [postTimer]. *)
Theorem handlePostTimer_always_reschedules
  (cfg : Config) (env : Env) (now : Date) (w : World) :
  exists (k : nat) (t : list Effect),
    (draws w <= k)%nat /\
    draws (snd (handlePostTimer cfg env now w)) = S k /\
    timer_calls t = [] /\
    trace (snd (handlePostTimer cfg env now w)) =
      trace w ++ t ++ cancel (postTimer w) ++
      [SetTimeout (next_handle w) (next_delay cfg env k)] /\
    postTimer (snd (handlePostTimer cfg env now w)) = Some (next_handle w) /\
    pending (snd (handlePostTimer cfg env now w)) =
      disarm (postTimer w) (pending w) ++
      [(next_handle w, next_delay cfg env k)].
Proof.
  unfold handlePostTimer. rewrite try_finally_world.
  match goal with
  | |- context [snd (schedulePostTimer cfg env (snd (?body w)))] =>
      assert (Hbody : stable timers_kept body)
  end.
  { stable_auto timers_kept_refl timers_kept_trans;
      auto using db_count_timers_kept, Math_random_timers_kept,
                 postRandomMessages_timers_kept. }
  specialize (Hbody w).
  match type of Hbody with timers_kept w ?x => set (w1 := x) in * end.
  destruct Hbody as (Ht & Hp & Hn & (t & Htr & Hnt) & Hd).
  destruct (schedulePostTimer_spec cfg env w1)
    as (w' & Heq & Hpt & Hpe & _ & Htrace & Hdr & _).
  rewrite Heq. cbn.
  exists (draws w1), t.
  rewrite Hpt, Hpe, Htrace, Hdr, Ht, Hp, Hn, Htr, <- app_assoc.
  repeat split; auto.
Qed.

Lemma gateway_calls_timer_suffix (t u : list Effect) :
  gateway_calls u = [] -> gateway_calls (t ++ u) = gateway_calls t.
Proof.
  intros H. unfold gateway_calls in *. rewrite filter_app, H, app_nil_r.
  reflexivity.
Qed.

Ltac quiet_untouched :=
  unfold quiet;
  cbn [docs next_id trace with_store with_timers with_trace with_draws
       with_ios snd];
  auto.

Lemma schedulePostTimer_quiet (cfg : Config) (env : Env) :
  stable quiet (schedulePostTimer cfg env).
Proof.
  intros w. destruct (schedulePostTimer_spec cfg env w)
    as (w' & Heq & _ & _ & _ & Htrace & _ & Hdocs & Hid & _).
  rewrite Heq. cbn. unfold quiet. rewrite Hdocs, Hid, Htrace.
  repeat split. apply gateway_calls_timer_suffix.
  destruct (postTimer w); reflexivity.
Qed.

Lemma num_ltb_Fin (a q : Q) : num_ltb a (Fin q) = true <-> a < q.
Proof. apply Qltb_lt. Qed.

(** C8.  A tick publishes only when its [db.count] succeeded, the adjusted
    hour is strictly between MIN_HOUR and MAX_HOUR, and the draw [u] is
    below the post chance of the backlog: otherwise it leaves the store as
    it is and sends nothing; in particular at hour = MIN_HOUR and at
    hour = MAX_HOUR.  When it does publish, it is by
    [postRandomMessages] of round(MIN_POST_COUNT + u' * (MAX_POST_COUNT -
    MIN_POST_COUNT)) for the next draw [u']. *)
Theorem handlePostTimer_gate
  (cfg : Config) (env : Env) (now : Date) (w : World) :
  let hour := hour_of now in
  let chance := postChance cfg (Z.of_nat (List.length (docs w))) in
  let u := random env (draws w) in
  let u' := random env (S (draws w)) in
  (fails env (ios w) = true \/ ~ MIN_HOUR cfg < hour \/
   ~ hour < MAX_HOUR cfg \/ num_ltb u chance = false ->
     quiet w (snd (handlePostTimer cfg env now w))) /\
  (hour == MIN_HOUR cfg \/ hour == MAX_HOUR cfg ->
     quiet w (snd (handlePostTimer cfg env now w))) /\
  (fails env (ios w) = false -> MIN_HOUR cfg < hour ->
   hour < MAX_HOUR cfg -> num_ltb u chance = true ->
     handlePostTimer cfg env now w =
     try_finally
       (postRandomMessages cfg env
          (Math_round (MIN_POST_COUNT cfg +
                       u' * (MAX_POST_COUNT cfg - MIN_POST_COUNT cfg))))
       (schedulePostTimer cfg env) (counted 2 w)).
Proof.
  intros hour chance u u'.
  assert (Hquiet :
    fails env (ios w) = true \/ ~ MIN_HOUR cfg < hour \/
    ~ hour < MAX_HOUR cfg \/ num_ltb u chance = false ->
    quiet w (snd (handlePostTimer cfg env now w))).
  { intros Hno. unfold handlePostTimer. rewrite try_finally_world.
    eapply quiet_trans; [|apply schedulePostTimer_quiet].
    run_monad.
    destruct (fails env (ios w)) eqn:Ef; cbn [snd]; [quiet_untouched|].
    fold hour.
    destruct (Qltb (MIN_HOUR cfg) hour) eqn:E1; cbn [andb];
      [|quiet_untouched].
    destruct (Qltb hour (MAX_HOUR cfg)) eqn:E2; [|quiet_untouched].
    run_monad. fold u chance.
    destruct (num_ltb u chance) eqn:E3; [|quiet_untouched].
    apply Qltb_lt in E1, E2.
    destruct Hno as [H | [H | [H | H]]]; try discriminate; contradiction. }
  split; [exact Hquiet | split].
  - intros [H | H]; apply Hquiet; right.
    + left. rewrite H. apply Qlt_irrefl.
    + right; left. rewrite H. apply Qlt_irrefl.
  - intros Hf H1 H2 H3. apply Qltb_lt in H1, H2.
    unfold handlePostTimer. run_monad.
    fold hour. rewrite Hf, H1, H2. cbn [andb]. run_monad.
    fold u chance. rewrite H3. run_monad. reflexivity.
Qed.

(* ------------------------------------------------------------------ *)
(** ** The queue store *)

Lemma remove_id_incl (i : nat) (l : list Doc) (d : Doc) :
  In d (remove_id i l) -> In d l.
Proof.
  induction l as [| x l IH]; cbn; [auto|].
  destruct (Nat.eqb (_id x) i); cbn; intuition.
Qed.

Lemma remove_id_In (i : nat) (l : list Doc) (d : Doc) :
  NoDup (ids l) ->
  In d (remove_id i l) <-> In d l /\ _id d <> i.
Proof.
  induction l as [| x l IH]; cbn; intros Hnd; [tauto|].
  inversion Hnd as [| ? ? Hx Hl]; subst.
  destruct (Nat.eqb_spec (_id x) i) as [E | E]; cbn.
  - split.
    + intros Hd. split; [auto|]. intros Hi. apply Hx.
      unfold ids. rewrite E, <- Hi. apply in_map, Hd.
    + intros [[Hd | Hd] Hi]; [subst; contradiction | assumption].
  - rewrite (IH Hl). split.
    + intros [Hd | [Hd Hi]]; [subst; auto | auto].
    + intros [[Hd | Hd] Hi]; auto.
Qed.

Lemma remove_id_length (i : nat) (l : list Doc) :
  In i (ids l) -> List.length (remove_id i l) = pred (List.length l).
Proof.
  induction l as [| x l IH]; cbn; [tauto|].
  destruct (Nat.eqb_spec (_id x) i) as [E | E]; cbn; [reflexivity|].
  intros [H | H]; [contradiction|].
  rewrite (IH H). destruct l; [destruct H | reflexivity].
Qed.

Lemma remove_id_ids_incl (i j : nat) (l : list Doc) :
  In j (ids (remove_id i l)) -> In j (ids l).
Proof.
  unfold ids. rewrite !in_map_iff. intros [d [Hj Hd]].
  exists d. split; [assumption | eapply remove_id_incl; eassumption].
Qed.

Lemma remove_id_NoDup (i : nat) (l : list Doc) :
  NoDup (ids l) -> NoDup (ids (remove_id i l)).
Proof.
  induction l as [| x l IH]; cbn; intros Hnd; [constructor|].
  inversion Hnd as [| ? ? Hx Hl]; subst.
  destruct (Nat.eqb (_id x) i); cbn; [assumption|].
  constructor; [|auto].
  intros Hin. apply Hx. eapply remove_id_ids_incl; eassumption.
Qed.

Lemma remove_id_absent (i : nat) (l : list Doc) :
  NoDup (ids l) -> ~ In i (ids (remove_id i l)).
Proof.
  intros Hnd Hin. unfold ids in Hin. apply in_map_iff in Hin.
  destruct Hin as [d [Hi Hd]]. apply remove_id_In in Hd; [|assumption].
  tauto.
Qed.

Lemma pick_index_lt (env : Env) (w : World) :
  uniform env -> docs w <> [] ->
  (pick_index env w < List.length (docs w))%nat.
Proof.
  intros Hu Hne. unfold pick_index, Math_floor.
  destruct (Hu (draws w)) as [H0 H1].
  set (r := random env (draws w)) in *.
  set (n := List.length (docs w)).
  assert (Hn : (0 < n)%nat).
  { subst n. destruct (docs w); [contradiction | cbn; lia]. }
  assert (Hq : 0 < inject_Z (Z.of_nat n)).
  { replace 0 with (inject_Z 0) by reflexivity. rewrite <- Zlt_Qlt. lia. }
  assert (Hlo : (0 <= Qfloor (r * inject_Z (Z.of_nat n)))%Z).
  { change 0%Z with (Qfloor (inject_Z 0)).
    apply Qfloor_resp_le. change (inject_Z 0) with 0.
    apply Qmult_le_0_compat; [assumption | apply Qlt_le_weak; assumption]. }
  assert (Hhi : (Qfloor (r * inject_Z (Z.of_nat n)) < Z.of_nat n)%Z).
  { rewrite Zlt_Qlt.
    eapply Qle_lt_trans; [apply Qfloor_le|].
    rewrite <- (Qmult_1_l (inject_Z (Z.of_nat n))) at 2.
    apply Qmult_lt_compat_r; assumption. }
  lia.
Qed.

Lemma bind_Return {A B} (c : M A) (k : A -> M B) (w w' : World) (a : A) :
  c w = (Return a, w') -> bind c k w = k a w'.
Proof. intros H. unfold bind. rewrite H. reflexivity. Qed.
Arguments bind_Return {A B c} k {w w' a} _.

Lemma postRandomMessage_empty (cfg : Config) (env : Env) (w : World) :
  docs w = [] ->
  snd (postRandomMessage cfg env w) = with_ios (S (ios w)) w /\
  (fails env (ios w) = false -> fst (postRandomMessage cfg env w) = Return tt).
Proof.
  intros He. unfold postRandomMessage. run_monad.
  destruct (fails env (ios w)); run_monad; rewrite ?He; cbn; split; auto;
    discriminate.
Qed.

Lemma postRandomMessage_take (cfg : Config) (env : Env) (w : World)
  (d : Doc) (s : Serialized) :
  reliable env ->
  nth_error (docs w) (pick_index env w) = Some d ->
  doc_message d = Some s ->
  postRandomMessage cfg env w = (Return tt, taken cfg env d s w).
Proof.
  intros Hio Hd Hs.
  assert (Hpos : (0 <? Z.of_nat (List.length (docs w)))%Z = true).
  { apply Z.ltb_lt. destruct (docs w); [|cbn; lia].
    destruct (pick_index env w); discriminate. }
  unfold postRandomMessage.
  repeat (progress (run_monad; rewrite ?Hio, ?Hpos)).
  fold (pick_index env w). rewrite Hd.
  repeat (progress (run_monad; rewrite ?Hio, ?Hs)).
  reflexivity.
Qed.

Lemma taken_store_ok cfg env d s w :
  store_ok w -> store_ok (taken cfg env d s w).
Proof.
  intros [Hnd Hlt]. split; cbn.
  - apply remove_id_NoDup, Hnd.
  - rewrite Forall_forall in *. intros x Hx.
    apply Hlt. eapply remove_id_incl; eassumption.
Qed.

Lemma taken_stocked cfg env d s w :
  stocked w -> stocked (taken cfg env d s w).
Proof.
  unfold stocked. rewrite !Forall_forall. cbn. intros H x Hx.
  apply H. eapply remove_id_incl; eassumption.
Qed.

(** On a well-formed store, with a reliable gateway and store, a take
    finds a document and publishes it. *)
Lemma postRandomMessage_nonempty (cfg : Config) (env : Env) (w : World) :
  reliable env -> uniform env -> stocked w -> docs w <> [] ->
  exists d s,
    nth_error (docs w) (pick_index env w) = Some d /\
    doc_message d = Some s /\
    postRandomMessage cfg env w = (Return tt, taken cfg env d s w).
Proof.
  intros Hio Hu Hst Hne.
  pose proof (pick_index_lt w Hu Hne) as Hlt.
  destruct (nth_error (docs w) (pick_index env w)) as [d|] eqn:Hd.
  2:{ apply nth_error_None in Hd. lia. }
  assert (Hin : In d (docs w)) by (eapply nth_error_In; eassumption).
  unfold stocked in Hst. rewrite Forall_forall in Hst.
  destruct (doc_message d) as [s|] eqn:Hs.
  2:{ exfalso. apply (Hst d Hin). assumption. }
  exists d, s. repeat split; auto.
  apply postRandomMessage_take; assumption.
Qed.

Lemma published_app (t u : list Effect) :
  published (t ++ u) = (published t + published u)%nat.
Proof. unfold published. rewrite filter_app, length_app. reflexivity. Qed.

(** A batch of [n] takes publishes min(n, backlog) documents and returns. *)
Lemma repeat_postRandomMessage (cfg : Config) (env : Env) :
  reliable env -> uniform env ->
  forall (n : nat) (w : World),
    store_ok w -> stocked w ->
    let w' := snd (repeatM n (postRandomMessage cfg env) w) in
    fst (repeatM n (postRandomMessage cfg env) w) = Return tt /\
    store_ok w' /\ stocked w' /\
    List.length (docs w') = (List.length (docs w) - n)%nat /\
    published (trace w') =
      (published (trace w) + Nat.min n (List.length (docs w)))%nat.
Proof.
  intros Hio Hu n. induction n as [| n IH]; intros w Hok Hst; cbn zeta.
  - cbn [repeatM ret fst snd].
    split; [reflexivity | split; [exact Hok | split; [exact Hst |]]].
    split; lia.
  - cbn [repeatM].
    destruct (docs w) as [| x l] eqn:Hd.
    + destruct (postRandomMessage_empty cfg env w Hd) as [Hw Hr].
      specialize (Hr (Hio _)).
      assert (Hrun : postRandomMessage cfg env w =
                     (Return tt, with_ios (S (ios w)) w)).
      { destruct (postRandomMessage cfg env w) as [r w1]. cbn in *.
        subst. reflexivity. }
      rewrite (bind_Return _ Hrun).
      destruct (IH (with_ios (S (ios w)) w)) as (H1 & H2 & H3 & H4 & H5);
        [exact Hok | exact Hst |].
      cbn [docs trace with_ios] in H4, H5. rewrite Hd in H4, H5.
      cbn [List.length] in *.
      split; [exact H1 | split; [exact H2 | split; [exact H3 |]]].
      split; [rewrite H4; lia | rewrite H5; lia].
    + assert (Hne : docs w <> []) by (rewrite Hd; discriminate).
      destruct (postRandomMessage_nonempty cfg Hio Hu Hst Hne)
        as (d & s & Hnth & Hs & Hrun).
      rewrite (bind_Return _ Hrun).
      destruct (IH (taken cfg env d s w)) as (H1 & H2 & H3 & H4 & H5);
        [apply taken_store_ok, Hok | apply taken_stocked, Hst |].
      assert (Hlen : List.length (docs (taken cfg env d s w)) =
                     pred (List.length (docs w))).
      { cbn. apply remove_id_length. unfold ids. apply in_map.
        eapply nth_error_In; eassumption. }
      rewrite Hlen in H4, H5. rewrite Hd in H4, H5.
      cbn [List.length pred] in *.
      split; [exact H1 | split; [exact H2 | split; [exact H3 |]]].
      split; [rewrite H4; lia |].
      rewrite H5. cbn [trace taken with_store with_trace].
      rewrite published_app. cbn [published publish_of filter is_publish List.length].
      lia.
Qed.

Lemma spent_kept_refl i w : spent_kept i w w.
Proof. unfold spent_kept. auto. Qed.

Lemma spent_kept_trans i a b c :
  spent_kept i a b -> spent_kept i b c -> spent_kept i a c.
Proof. unfold spent_kept. auto. Qed.

Section Spent.

Variable cfg : Config.
Variable env : Env.
Variable i : nat.

Ltac store_untouched :=
  intros w; unfold spent_kept, spent; run_monad;
  try destruct (fails env (ios w)); cbn; auto.

Lemma Math_random_spent : stable (spent_kept i) (Math_random env).
Proof. store_untouched. Qed.

Lemma io_spent : stable (spent_kept i) (io env).
Proof. store_untouched. Qed.

Lemma emit_spent e : stable (spent_kept i) (emit e).
Proof. store_untouched. Qed.

Lemma modify_ios_spent f :
  stable (spent_kept i) (modify (fun w => with_ios (f w) w)).
Proof. store_untouched. Qed.

Lemma modify_timers_spent t p n :
  stable (spent_kept i)
         (modify (fun w => with_timers (t w) (p w) (n w) w)).
Proof. store_untouched. Qed.

Lemma db_remove_spent j : stable (spent_kept i) (db_remove env j).
Proof.
  intros w. unfold spent_kept, spent. run_monad.
  destruct (fails env (ios w)); cbn; [auto|].
  intros [Hlt Hin]. split; [assumption|].
  intros H. apply Hin. eapply remove_id_ids_incl; eassumption.
Qed.

Lemma db_insert_spent m : stable (spent_kept i) (db_insert env m).
Proof.
  intros w. unfold spent_kept, spent. run_monad.
  destruct (fails env (ios w)); cbn; [auto|].
  intros [Hlt Hin]. split; [lia|].
  unfold ids. rewrite map_app, in_app_iff. cbn.
  intros [H | [H | []]]; [apply Hin, H | lia].
Qed.

#[local] Hint Resolve Math_random_spent io_spent emit_spent modify_ios_spent
  modify_timers_spent db_remove_spent db_insert_spent : frame.

Ltac spent_auto := stable_auto (@spent_kept_refl i) (@spent_kept_trans i).

Lemma call_spent e : stable (spent_kept i) (call env e).
Proof. unfold call. spent_auto. Qed.

Lemma call_detached_spent e : stable (spent_kept i) (call_detached e).
Proof. unfold call_detached. spent_auto. Qed.

Lemma db_count_spent : stable (spent_kept i) (db_count env).
Proof. unfold db_count. spent_auto. Qed.

Lemma db_findOne_skip_spent k : stable (spent_kept i) (db_findOne_skip env k).
Proof. unfold db_findOne_skip. spent_auto. Qed.

#[local] Hint Resolve call_spent call_detached_spent db_count_spent
  db_findOne_skip_spent : frame.

Lemma schedulePostTimer_spent : stable (spent_kept i) (schedulePostTimer cfg env).
Proof.
  unfold schedulePostTimer, clearTimeout, setTimeout. spent_auto.
Qed.

Lemma postRandomMessages_spent count :
  stable (spent_kept i) (postRandomMessages cfg env count).
Proof.
  unfold postRandomMessages, postRandomMessage, sendSerializedMessage.
  spent_auto.
Qed.

#[local] Hint Resolve schedulePostTimer_spent postRandomMessages_spent : frame.

Lemma handlePostTimer_spent now :
  stable (spent_kept i) (handlePostTimer cfg env now).
Proof. unfold handlePostTimer. spent_auto. Qed.

Lemma handleCommand_spent m : stable (spent_kept i) (handleCommand cfg env m).
Proof.
  unfold handleCommand, checkAdminRights, sendMessage. spent_auto.
Qed.

Lemma handleMedia_spent m : stable (spent_kept i) (handleMedia cfg env m).
Proof.
  unfold handleMedia, checkAdminRights, sendMessage, sendSerializedMessage,
    storeSerializedMessage.
  spent_auto.
Qed.

Lemma handleCallbackQuery_spent q :
  stable (spent_kept i) (handleCallbackQuery env q).
Proof.
  unfold handleCallbackQuery, checkAdminRights, sendMessage,
    storeSerializedMessage.
  spent_auto.
Qed.

(** Whatever happens next, a spent identifier stays out of the store. *)
Lemma run_spent (evs : list Event) :
  forall w w', run cfg env evs w = Some w' -> spent i w -> spent i w'.
Proof.
  induction evs as [| ev evs IH]; cbn; intros w w' Hrun Hs.
  - inversion Hrun; subst; assumption.
  - destruct (step cfg env ev w) as [w1|] eqn:Hstep; [|discriminate].
    apply (IH w1 w' Hrun).
    destruct ev as [m | q | h now]; cbn in Hstep.
    + inversion Hstep; subst. unfold onMessage.
      destruct (text m) as [[| [[] [] [] [] [] [] [] []] ?]|];
        first [apply handleCommand_spent | apply handleMedia_spent];
        assumption.
    + inversion Hstep; subst. apply handleCallbackQuery_spent. assumption.
    + destruct (armed h w); [|discriminate].
      inversion Hstep; subst. apply handlePostTimer_spent.
      exact Hs.
Qed.

End Spent.

Lemma storeAll_spec (env : Env) :
  reliable env ->
  forall (items : list Serialized) (w : World),
    store_ok w -> stocked w ->
    let w' := snd (storeAll env items w) in
    store_ok w' /\ stocked w' /\
    List.length (docs w') = (List.length (docs w) + List.length items)%nat.
Proof.
  intros Hio items. induction items as [| s rest IH]; intros w Hok Hst; cbn zeta.
  - cbn. repeat split; try apply Hok; auto.
  - cbn [storeAll].
    assert (Hrun : storeSerializedMessage env (Some s) w =
      (Return tt,
       with_store (docs w ++ [{| _id := next_id w; doc_message := Some s |}])
                  (S (next_id w)) (with_ios (S (ios w)) w))).
    { run_monad. rewrite Hio. reflexivity. }
    rewrite (bind_Return _ Hrun).
    match type of Hrun with _ = (_, ?x) => set (w1 := x) in * end.
    destruct (IH w1) as (H1 & H2 & H3).
    + destruct Hok as [Hnd Hlt]. rewrite Forall_forall in Hlt.
      split; cbn.
      * unfold ids. rewrite map_app. cbn.
        apply NoDup_app; [exact Hnd | repeat constructor; auto |].
        intros a Ha [Hb | []]. subst a. unfold ids in Ha.
        apply in_map_iff in Ha. destruct Ha as [d [Hd Hin]].
        specialize (Hlt d Hin). lia.
      * rewrite Forall_forall. intros d Hd. apply in_app_iff in Hd.
        destruct Hd as [Hd | [Hd | []]]; [specialize (Hlt d Hd); lia |].
        subst d. cbn. lia.
    + unfold stocked in *. cbn. rewrite Forall_app. split; [exact Hst|].
      repeat constructor. cbn. discriminate.
    + split; [exact H1 | split; [exact H2 |]].
      rewrite H3. subst w1. cbn. rewrite length_app. cbn. lia.
Qed.

(** A call of [postRandomMessage] that is resumed four times with nothing
    in between is the call run from start to end. *)
Lemma postRandomMessage_resumed (cfg : Config) (env : Env) (w : World) :
  postRandomMessage cfg env w =
  (t1 <- resume cfg env Counting ;;
   t2 <- resume cfg env t1 ;;
   t3 <- resume cfg env t2 ;;
   t4 <- resume cfg env t3 ;;
   ret tt) w.
Proof.
  unfold postRandomMessage, resume. run_monad.
  destruct (fails env (ios w)); [reflexivity|]. run_monad.
  destruct (0 <? Z.of_nat (List.length (docs w)))%Z; [|reflexivity].
  run_monad.
  destruct (fails env (S (ios w))); [reflexivity|]. run_monad.
  destruct (nth_error (docs w) _) as [d|]; [|reflexivity]. run_monad.
  destruct (doc_message d) as [s|]; [|reflexivity]. run_monad.
  destruct (fails env (S (S (ios w)))); [reflexivity|]. run_monad.
  destruct (fails env (S (S (S (ios w))))); reflexivity.
Qed.

Lemma first_of_one (r : Q) : 0 <= r < 1 -> Math_floor (r * inject_Z 1) = 0%Z.
Proof.
  intros [H0 H1]. unfold Math_floor.
  assert (Hr : r * inject_Z 1 == r) by (unfold inject_Z; ring).
  rewrite Hr.
  assert (Hlo : (0 <= Qfloor r)%Z).
  { change 0%Z with (Qfloor (inject_Z 0)). apply Qfloor_resp_le. exact H0. }
  assert (Hhi : (Qfloor r < 1)%Z).
  { rewrite Zlt_Qlt. eapply Qle_lt_trans; [apply Qfloor_le | exact H1]. }
  lia.
Qed.

(** C7.  Two calls of [postRandomMessage] that overlap publish the same
    stored document twice.  On a store of one document [d], with a store
    and gateway that do not fail and draws in [0, 1), let the event loop
    resume the two calls in turn.  After two turns each, both calls have
    been handed [d] by [findOne] and both requests have left, while the
    store is as it was (nothing was inserted); after four turns each, both
    calls have returned normally, the gateway was asked twice to publish
    the message of [d], and the store is empty. *)
Theorem overlapping_takes_publish_twice
  (cfg : Config) (env : Env) (w : World) (d : Doc) (s : Serialized)
  (Hio : reliable env) (Hu : uniform env)
  (Hdocs : docs w = [d]) (Hs : doc_message d = Some s) :
  let found :=
    overlap cfg env [First; Second; First; Second]
            (Pending Counting) (Pending Counting) w in
  let done :=
    overlap cfg env in_turn (Pending Counting) (Pending Counting) w in
  fst found = (Pending (Sending d), Pending (Sending d)) /\
  trace (snd found) = trace w ++ [publish_of cfg env s; publish_of cfg env s] /\
  docs (snd found) = [d] /\
  next_id (snd found) = next_id w /\
  fst done = (Fulfilled, Fulfilled) /\
  trace (snd done) = trace w ++ [publish_of cfg env s; publish_of cfg env s] /\
  docs (snd done) = [] /\
  next_id (snd done) = next_id w.
Proof.
  intros found done. subst found done.
  pose proof (first_of_one (Hu (draws w))) as H1.
  pose proof (first_of_one (Hu (S (draws w)))) as H2.
  unfold in_turn, overlap, settle, resume.
  repeat (progress (run_monad; rewrite ?Hio, ?Hdocs; cbn [List.length Z.of_nat Pos.of_succ_nat Z.ltb Z.compare]; rewrite ?H1, ?H2; cbn [Z.to_nat nth_error]; rewrite ?Hs)).
  cbn [remove_id]. rewrite Nat.eqb_refl.
  unfold publish_of, target. rewrite <- !app_assoc. cbn [app].
  repeat split.
Qed.

(* ------------------------------------------------------------------ *)
(** ** Invariants of the timer *)

#[local] Hint Resolve Math_random_timers_kept io_timers_kept
  modify_ios_timers_kept modify_store_timers_kept call_timers_kept
  call_detached_timers_kept db_count_timers_kept db_findOne_skip_timers_kept
  db_remove_timers_kept db_insert_timers_kept
  sendSerializedMessage_timers_kept sendMessage_timers_kept
  postRandomMessage_timers_kept postRandomMessages_timers_kept : frame.

Lemma handleMedia_timers_kept cfg env m :
  stable timers_kept (handleMedia cfg env m).
Proof.
  unfold handleMedia, checkAdminRights, storeSerializedMessage.
  stable_auto timers_kept_refl timers_kept_trans.
Qed.

Lemma handleCallbackQuery_timers_kept env q :
  stable timers_kept (handleCallbackQuery env q).
Proof.
  unfold handleCallbackQuery, checkAdminRights, storeSerializedMessage.
  stable_auto timers_kept_refl timers_kept_trans.
Qed.

Lemma keeps_refl P w : keeps P w w.
Proof. unfold keeps. auto. Qed.

Lemma keeps_trans P a b c : keeps P a b -> keeps P b c -> keeps P a c.
Proof. unfold keeps. auto. Qed.

(** A property of the timers that [schedulePostTimer] and the firing of a
    timer preserve is preserved by every turn of the event loop: nothing
    else touches the timers. *)
Section TimerInvariant.

Variable cfg : Config.
Variable env : Env.
Variable P : World -> Prop.
Hypothesis P_frame : forall w w', timers_kept w w' -> P w -> P w'.
Hypothesis P_schedule : forall w, P w -> P (snd (schedulePostTimer cfg env w)).
Hypothesis P_expire : forall h w, P w -> P (expire h w).

Lemma keeps_of_timers_kept {A} (c : M A) :
  stable timers_kept c -> stable (keeps P) c.
Proof. intros H w. unfold keeps. apply P_frame, H. Qed.

Lemma schedulePostTimer_keeps : stable (keeps P) (schedulePostTimer cfg env).
Proof. intros w. unfold keeps. apply P_schedule. Qed.

Ltac keeps_auto :=
  stable_auto (@keeps_refl P) (@keeps_trans P);
  try (apply keeps_of_timers_kept; auto with frame);
  try apply schedulePostTimer_keeps.

Lemma handlePostTimer_keeps now :
  stable (keeps P) (handlePostTimer cfg env now).
Proof. unfold handlePostTimer. keeps_auto. Qed.

Lemma handleCommand_keeps m : stable (keeps P) (handleCommand cfg env m).
Proof. unfold handleCommand, checkAdminRights. keeps_auto. Qed.

Lemma step_keeps ev w w' : step cfg env ev w = Some w' -> P w -> P w'.
Proof.
  destruct ev as [m | q | h now]; cbn; intros Hstep Hp.
  - inversion Hstep; subst. unfold onMessage.
    destruct (text m) as [[| [[] [] [] [] [] [] [] []] ?]|];
      first [ apply handleCommand_keeps
            | apply keeps_of_timers_kept;
              [apply handleMedia_timers_kept|] ];
      assumption.
  - inversion Hstep; subst.
    apply keeps_of_timers_kept; [apply handleCallbackQuery_timers_kept|].
    assumption.
  - destruct (armed h w); [|discriminate].
    inversion Hstep; subst. apply handlePostTimer_keeps.
    apply P_expire, Hp.
Qed.

Lemma run_keeps evs : forall w w', run cfg env evs w = Some w' -> P w -> P w'.
Proof.
  induction evs as [| ev evs IH]; cbn; intros w w' Hrun Hp.
  - inversion Hrun; subst; assumption.
  - destruct (step cfg env ev w) as [w1|] eqn:Hstep; [|discriminate].
    apply (IH w1 w' Hrun). eapply step_keeps; eassumption.
Qed.

End TimerInvariant.

Lemma disarm_all (w : World) :
  timers_ok w -> disarm (postTimer w) (pending w) = [].
Proof.
  intros (Hlen & Hin & _). destruct (pending w) as [| t [| t' p]] eqn:Ep.
  - destruct (postTimer w); reflexivity.
  - rewrite (Hin t (or_introl eq_refl)). cbn.
    rewrite Nat.eqb_refl. reflexivity.
  - cbn in Hlen. lia.
Qed.

Lemma timers_ok_frame w w' : timers_kept w w' -> timers_ok w -> timers_ok w'.
Proof.
  intros (Ht & Hp & Hn & _) H. unfold timers_ok in *.
  rewrite Ht, Hp, Hn. exact H.
Qed.

Lemma timers_ok_schedule cfg env w :
  timers_ok w -> timers_ok (snd (schedulePostTimer cfg env w)).
Proof.
  intros Hok.
  destruct (schedulePostTimer_spec cfg env w)
    as (w' & Heq & Hpt & Hpe & Hnh & _).
  rewrite Heq. cbn. rewrite (disarm_all Hok) in Hpe. cbn in Hpe.
  unfold timers_ok. rewrite Hpt, Hpe, Hnh. cbn. split; [lia | split].
  - intros t [Ht | []]. subst t. reflexivity.
  - intros h Hh. inversion Hh. lia.
Qed.

Lemma filter_length_le {A} (f : A -> bool) (l : list A) :
  (List.length (filter f l) <= List.length l)%nat.
Proof.
  induction l as [| a l IH]; cbn; [lia|]. destruct (f a); cbn; lia.
Qed.

Lemma timers_ok_expire h w : timers_ok w -> timers_ok (expire h w).
Proof.
  intros (Hlen & Hin & Hfresh). unfold timers_ok, expire. cbn.
  split; [|split].
  - eapply Nat.le_trans; [apply filter_length_le | exact Hlen].
  - intros t Ht. apply filter_In in Ht. apply Hin, Ht.
  - exact Hfresh.
Qed.

Lemma existsb_filter_false {A} (f g : A -> bool) (l : list A) :
  existsb f l = false -> existsb f (filter g l) = false.
Proof.
  induction l as [| a l IH]; cbn; [auto|].
  intros H. apply orb_false_iff in H. destruct H as [Ha Hl].
  destruct (g a); cbn; [rewrite Ha|]; auto.
Qed.

Lemma retired_frame h w w' : timers_kept w w' -> retired h w -> retired h w'.
Proof.
  intros (_ & Hp & Hn & _) H. unfold retired, armed in *.
  rewrite Hp, Hn. exact H.
Qed.

Lemma retired_schedule cfg env h w :
  retired h w -> retired h (snd (schedulePostTimer cfg env w)).
Proof.
  intros [Hlt Ha].
  destruct (schedulePostTimer_spec cfg env w)
    as (w' & Heq & _ & Hpe & Hnh & _).
  rewrite Heq. cbn. unfold retired, armed in *. rewrite Hpe, Hnh.
  split; [lia|]. rewrite existsb_app. cbn.
  replace (Nat.eqb (next_handle w) h) with false
    by (symmetry; apply Nat.eqb_neq; lia).
  rewrite !orb_false_r.
  destruct (postTimer w); cbn; [apply existsb_filter_false|]; exact Ha.
Qed.

Lemma retired_expire h k w : retired h w -> retired h (expire k w).
Proof.
  intros [Hlt Ha]. unfold retired, armed, expire in *. cbn.
  split; [exact Hlt | apply existsb_filter_false, Ha].
Qed.

Lemma startup_timers_ok cfg env d n : timers_ok (startup cfg env d n).
Proof.
  unfold startup. apply timers_ok_schedule.
  unfold timers_ok, loaded. cbn. split; [lia | split; [tauto | discriminate]].
Qed.

(** Every state the process reaches has at most one armed timer. *)
Lemma reachable_timers_ok cfg env d n evs w :
  run cfg env evs (startup cfg env d n) = Some w -> timers_ok w.
Proof.
  intros Hrun.
  eapply (@run_keeps cfg env timers_ok); try eassumption.
  - apply timers_ok_frame.
  - apply timers_ok_schedule.
  - intros h w0. apply timers_ok_expire.
  - apply startup_timers_ok.
Qed.

(** A retired timer cannot fire, now or after any events. *)
Lemma retired_never_fires cfg env h evs w w' now :
  retired h w -> run cfg env evs w = Some w' ->
  step cfg env (Fires h now) w' = None.
Proof.
  intros Hr Hrun.
  assert (Hr' : retired h w').
  { eapply (@run_keeps cfg env (retired h)); try eassumption.
    - apply retired_frame.
    - intros w0. apply retired_schedule.
    - intros k w0. apply retired_expire. }
  cbn. destruct Hr' as [_ Ha]. rewrite Ha. reflexivity.
Qed.

(** ** The manual trigger *)

Lemma match_random_post_command (c : string) (g : option string) :
  match_random_post c = Some g ->
  (exists rest, c = String "/" rest) /\
  String.eqb c "/start" = false /\
  String.eqb c "/queue_info" = false.
Proof.
  intros H. split; [|split].
  - destruct c as [| a rest]; [discriminate|].
    unfold match_random_post in H. cbn [strip_prefix] in H.
    destruct (Ascii.eqb_spec "/"%char a); [|discriminate].
    subst a. eauto.
  - destruct (String.eqb_spec c "/start"); [|reflexivity].
    subst c. vm_compute in H. discriminate.
  - destruct (String.eqb_spec c "/queue_info"); [|reflexivity].
    subst c. vm_compute in H. discriminate.
Qed.

(** For an administrator, a text that matches the pattern is handled by
    replacing the timer and then publishing. *)
Lemma onMessage_random_post cfg env m w u c g :
  from m = Some u ->
  existsb (Z.eqb (user_id u)) (administratorsIds env) = true ->
  text m = Some c ->
  match_random_post c = Some g ->
  onMessage cfg env m w =
  postRandomMessages cfg env
    (match g with Some digits => Number digits | None => 1%Z end)
    (snd (schedulePostTimer cfg env w)).
Proof.
  intros Hfrom Hadmin Htext Hcmd.
  destruct (match_random_post_command c Hcmd) as ([rest Hc] & Hs & Hq).
  unfold onMessage. rewrite Htext, Hc.
  unfold handleCommand. run_monad.
  rewrite Hfrom. run_monad. rewrite Hadmin, Htext.
  cbn [is_string]. rewrite Hs, Hq. run_monad. rewrite Hcmd.
  destruct (schedulePostTimer_spec cfg env w) as (w1 & Heq & _).
  rewrite Heq. reflexivity.
Qed.

(** C6.  In any state the process reaches, an administrator's
    [/random_post] (with or without a count) first cancels the pending tick
    and arms a fresh one, and only then publishes: the calls it adds to the
    trace are the cancelling of the old handle, one [setTimeout], and then
    calls that are not timer calls.  Afterwards exactly the fresh timer is
    armed; the superseded handle cannot fire, at once or after any further
    events, so the run "manual trigger, then the tick that was due" does not
    exist; and in every state reached from here, as in every state reached
    from startup, at most one timer is armed. *)
Theorem manual_trigger_supersedes
  (cfg : Config) (env : Env) (d : list Doc) (n : nat) (evs : list Event)
  (w : World) (m : Message) (u : User) (c : string) (g : option string)
  (Hreach : run cfg env evs (startup cfg env d n) = Some w)
  (Hfrom : from m = Some u)
  (Hadmin : existsb (Z.eqb (user_id u)) (administratorsIds env) = true)
  (Htext : text m = Some c)
  (Hcmd : match_random_post c = Some g) :
  let count := match g with Some digits => Number digits | None => 1%Z end in
  let fresh := next_handle w in
  let delay := next_delay cfg env (draws w) in
  let w' := snd (onMessage cfg env m w) in
  onMessage cfg env m w =
    postRandomMessages cfg env count (snd (schedulePostTimer cfg env w)) /\
  (exists sends,
     trace w' = trace w ++ cancel (postTimer w) ++
                [SetTimeout fresh delay] ++ sends /\
     timer_calls sends = []) /\
  postTimer w' = Some fresh /\
  pending w' = [(fresh, delay)] /\
  (forall h, postTimer w = Some h ->
     forall evs' w'' now, run cfg env evs' w' = Some w'' ->
       step cfg env (Fires h now) w'' = None) /\
  (forall h now, postTimer w = Some h ->
     run cfg env [Incoming m; Fires h now] w = None) /\
  (List.length (pending w) <= 1)%nat /\
  (forall evs' w'', run cfg env evs' w' = Some w'' ->
     (List.length (pending w'') <= 1)%nat).
Proof.
  intros count fresh delay w'.
  pose proof (reachable_timers_ok cfg env d n evs Hreach) as Hok.
  pose proof (@onMessage_random_post cfg env m w u c g Hfrom Hadmin Htext Hcmd)
    as Hrun.
  fold count in Hrun.
  destruct (schedulePostTimer_spec cfg env w)
    as (w1 & Heq & Hpt & Hpe & Hnh & Htr & _).
  rewrite (disarm_all Hok) in Hpe. cbn [app] in Hpe.
  assert (Hw1 : snd (schedulePostTimer cfg env w) = w1) by (rewrite Heq; reflexivity).
  rewrite Hw1 in Hrun.
  pose proof (postRandomMessages_timers_kept cfg env count w1) as Hk.
  rewrite <- Hrun in Hk. fold w' in Hk.
  destruct Hk as (Kt & Kp & Kn & (sends & Ks & Kc) & _).
  assert (Hok1 : timers_ok w1).
  { rewrite <- Hw1. apply timers_ok_schedule, Hok. }
  assert (Hold : forall h, postTimer w = Some h -> retired h w').
  { intros h Hh. destruct Hok as (_ & _ & Hfresh).
    specialize (Hfresh h Hh).
    unfold retired, armed. rewrite Kn, Kp, Hnh, Hpe. cbn.
    split; [lia|]. rewrite orb_false_r. apply Nat.eqb_neq.
    fold fresh in Hfresh |- *. lia. }
  rewrite Hw1.
  split; [exact Hrun|]. split; [|split; [|split; [|split; [|split; [|split]]]]].
  - exists sends. split; [|exact Kc].
    rewrite Ks, Htr, <- !app_assoc. reflexivity.
  - rewrite Kt. exact Hpt.
  - rewrite Kp. exact Hpe.
  - intros h Hh evs' w'' now Hrun'.
    eapply retired_never_fires; [apply Hold, Hh | exact Hrun'].
  - intros h now Hh. cbn [run step].
    fold w'. destruct (Hold h Hh) as [_ Ha]. rewrite Ha. reflexivity.
  - apply Hok.
  - intros evs' w'' Hrun'.
    assert (H : timers_ok w'').
    { eapply (@run_keeps cfg env timers_ok); try eassumption.
      - apply timers_ok_frame.
      - apply timers_ok_schedule.
      - intros h w0. apply timers_ok_expire.
      - eapply timers_ok_frame; [|exact Hok1].
        unfold w'. rewrite Hrun. apply postRandomMessages_timers_kept. }
    apply H.
Qed.

(* ------------------------------------------------------------------ *)
(** ** Moderation *)

(** C3, as stated, fails: an album photo forwarded from a blacklisted chat
    by an ordinary user (5 is not an administrator) is answered with the
    codec's rejection and not with the refusal, because [handleMedia]
    serializes first and consults the blacklist only for a message that
    serialized. *)
Lemma blacklist_refusal_not_before_encoding :
  let m := Demo.forwarded_photo 5 (Some "album"%string) in
  let w' := snd (handleMedia Demo.cfg Demo.env m Demo.world) in
  from m = Some {| user_id := 5 |} /\
  existsb (Z.eqb 5) (administratorsIds Demo.env) = false /\
  carries_media m /\
  checkIfBlacklisted Demo.cfg m = true /\
  gateway_calls (trace w') =
    gateway_calls (trace Demo.world) ++
    [SendMessage 5 "Media groups are not supported yet :(" []] /\
  gateway_calls (trace w') <>
    gateway_calls (trace Demo.world) ++ [SendMessage 5 not_welcome []].
Proof.
  cbv zeta. repeat split.
  - left. discriminate.
  - vm_compute. discriminate.
Qed.

(** C3, amended.  For a message from an ordinary user whose forward-origin
    chat is blacklisted: if it serializes, the only call [handleMedia] makes
    is one "not welcome" reply to the submitter's chat, and the store and
    the timers are as before, so nothing is stored and no prompt goes to the
    owner; if the codec rejects it, the only call is the reply that carries
    the codec's message instead.  This holds whatever the gateway does. *)
Theorem handleMedia_blacklisted
  (cfg : Config) (env : Env) (m : Message) (w : World) (u : User)
  (Hfrom : from m = Some u)
  (Hordinary : existsb (Z.eqb (user_id u)) (administratorsIds env) = false)
  (Hblack : checkIfBlacklisted cfg m = true) :
  let w' := snd (handleMedia cfg env m w) in
  (forall s, serializeMessage m = Return s ->
     trace w' = trace w ++ [SendMessage (chat_id (chat m)) not_welcome []] /\
     store_kept w w' /\ timers_kept w w') /\
  (forall msg, serializeMessage m = Throw (SerializationError msg) ->
     trace w' = trace w ++ [SendMessage (chat_id (chat m)) msg []] /\
     store_kept w w' /\ timers_kept w w').
Proof.
  intros w'.
  assert (Hk : timers_kept w w') by apply handleMedia_timers_kept.
  subst w'. unfold handleMedia in *. revert Hk. run_monad.
  rewrite Hfrom. run_monad. rewrite Hordinary.
  split.
  - intros s Hs. revert Hk. rewrite Hs. cbn [truthy truthy_option truthy_Serialized].
    rewrite Hblack. run_monad.
    intros Hk. destruct (fails env (ios w)); cbn; (split; [reflexivity|]);
      (split; [split; reflexivity | exact Hk]).
  - intros msg Hs. revert Hk. rewrite Hs. run_monad.
    intros Hk. destruct (fails env (ios w)); cbn; (split; [reflexivity|]);
      (split; [split; reflexivity | exact Hk]).
Qed.

(** The amended claim on the photo of the counterexample, sent alone and
    sent as part of an album. *)
Lemma handleMedia_blacklisted_witness :
  trace (snd (handleMedia Demo.cfg Demo.env
                (Demo.forwarded_photo 5 None) Demo.world)) =
    trace Demo.world ++ [SendMessage 5 not_welcome []] /\
  trace (snd (handleMedia Demo.cfg Demo.env
                (Demo.forwarded_photo 5 (Some "album"%string)) Demo.world)) =
    trace Demo.world ++
    [SendMessage 5 "Media groups are not supported yet :(" []].
Proof.
  split.
  - refine (proj1 (proj1 (@handleMedia_blacklisted Demo.cfg Demo.env
                     (Demo.forwarded_photo 5 None) Demo.world
                     {| user_id := 5 |} eq_refl eq_refl eq_refl) _ eq_refl)).
  - refine (proj1 (proj2 (@handleMedia_blacklisted Demo.cfg Demo.env
                     (Demo.forwarded_photo 5 (Some "album"%string)) Demo.world
                     {| user_id := 5 |} eq_refl eq_refl eq_refl) _ eq_refl)).
Defined.

(** C10.  For a message from an administrator, [handleMedia] does the same
    whatever the blacklist is.  When the message serializes to [s] and the
    insert is not rejected, [s] is appended to the store under a fresh
    identifier and the only call made is the deletion of the original
    message, also when the forward-origin chat is blacklisted. *)
Theorem handleMedia_admin_ignores_blacklist
  (cfg : Config) (env : Env) (m : Message) (w : World) (u : User)
  (s : Serialized)
  (Hfrom : from m = Some u)
  (Hadmin : existsb (Z.eqb (user_id u)) (administratorsIds env) = true)
  (Hs : serializeMessage m = Return s)
  (Hinsert : fails env (ios w) = false) :
  let w' := snd (handleMedia cfg env m w) in
  docs w' = docs w ++ [{| _id := next_id w; doc_message := Some s |}] /\
  trace w' = trace w ++ [DeleteMessage (chat_id (chat m)) (message_id m)] /\
  (forall l, handleMedia (with_blacklist l cfg) env m w =
             handleMedia cfg env m w).
Proof.
  cbv zeta. unfold handleMedia. run_monad.
  rewrite Hfrom. run_monad. rewrite Hadmin, Hs.
  cbn [truthy truthy_option truthy_Serialized]. run_monad.
  rewrite Hinsert. run_monad.
  split; [|split].
  - destruct (fails env (S (ios w))); reflexivity.
  - destruct (fails env (S (ios w))); reflexivity.
  - intros l. reflexivity.
Qed.

(** Administrator 2 forwards a photo from the blacklisted chat: it is
    stored and the message deleted. *)
Lemma handleMedia_admin_ignores_blacklist_witness :
  checkIfBlacklisted Demo.cfg (Demo.forwarded_photo 2 None) = true /\
  docs (snd (handleMedia Demo.cfg Demo.env
               (Demo.forwarded_photo 2 None) Demo.world)) =
    docs Demo.world ++
    [{| _id := 2;
        doc_message := Some {| method := sendPhoto; fileId := "small";
                               options := [] |} |}] /\
  trace (snd (handleMedia Demo.cfg Demo.env
                (Demo.forwarded_photo 2 None) Demo.world)) =
    trace Demo.world ++ [DeleteMessage 2 7].
Proof.
  split; [reflexivity|].
  pose proof (@handleMedia_admin_ignores_blacklist Demo.cfg Demo.env
                (Demo.forwarded_photo 2 None) Demo.world {| user_id := 2 |}
                {| method := sendPhoto; fileId := "small"; options := [] |}
                eq_refl eq_refl eq_refl eq_refl) as H.
  cbv zeta in H. destruct H as (Hd & Ht & _).
  split; [exact Hd | exact Ht].
Defined.

(** ** Reviewer callbacks *)

(** C4 fails at this input: the catch clause of [handleCallbackQuery]
    returns after replying with the codec's message, so the callback is
    never acknowledged. *)
Lemma handleCallbackQuery_rejection_unanswered :
  let w' := snd (handleCallbackQuery Demo.env accept_stale_prompt Demo.world) in
  trace w' =
    trace Demo.world ++ [SendMessage 1 "No allowed content found :(" []] /\
  answers (trace w') = answers (trace Demo.world) /\
  ~ In (AnswerCallbackQuery "q1") (trace w').
Proof.
  cbv zeta. split; [reflexivity | split; [reflexivity|]].
  vm_compute. intros [H | [H | []]]; discriminate H.
Qed.

(** What [handleCallbackQuery] does acknowledge, with a gateway and store
    that do not fail: a query from someone who is not an administrator, a
    rejection, and an acceptance whose prompt serializes, each exactly
    once. *)
Lemma handleCallbackQuery_answered_otherwise
  (env : Env) (q : CallbackQuery) (w : World) (u : User) (m : Message) :
  reliable env ->
  cq_from q = Some u ->
  cq_message q = Some m ->
  existsb (Z.eqb (user_id u)) (administratorsIds env) = false \/
  is_string (cq_data q) "accept" = false \/
  (exists s, serializeMessage m = Return s) ->
  answers (trace (snd (handleCallbackQuery env q w))) = S (answers (trace w)).
Proof.
  intros Hio Hfrom Hmsg Hcase.
  unfold handleCallbackQuery. run_monad. rewrite Hfrom. run_monad.
  unfold answers.
  destruct (existsb (Z.eqb (user_id u)) (administratorsIds env)) eqn:Ha.
  - destruct (is_string (cq_data q) "accept") eqn:Hd.
    + destruct Hcase as [H | [H | [s Hs]]]; try discriminate.
      rewrite Hmsg. cbn [rbind deref]. rewrite Hs.
      repeat (progress (run_monad; rewrite ?Hio)).
      rewrite !filter_app, !length_app. cbn. lia.
    + rewrite Hmsg. repeat (progress (run_monad; rewrite ?Hio)).
      rewrite !filter_app, !length_app. cbn. lia.
  - run_monad. rewrite !filter_app, !length_app. cbn. lia.
Qed.

(* ------------------------------------------------------------------ *)
(** ** The statements at concrete inputs *)

Lemma demo_reliable : reliable Demo.env.
Proof. intros n. reflexivity. Defined.

Lemma demo_uniform : uniform Demo.env.
Proof. intros n. cbn. split; [discriminate | reflexivity]. Defined.

Lemma demo_store_ok : store_ok Demo.world.
Proof.
  split; cbn.
  - repeat constructor; cbn; intuition discriminate.
  - repeat constructor; cbn; lia.
Defined.

Lemma demo_stocked : stocked Demo.world.
Proof. repeat constructor; cbn; discriminate. Defined.

(** C7 on a store of one photo, when two [/random_post] commands of an
    administrator arrive together: both calls return normally and the chat
    gets the photo twice. *)
Lemma overlapping_takes_publish_twice_witness :
  fst (overlap Demo.cfg Demo.env in_turn
               (Pending Counting) (Pending Counting) two_commands) =
    (Fulfilled, Fulfilled) /\
  gateway_calls
    (trace (snd (overlap Demo.cfg Demo.env in_turn
                         (Pending Counting) (Pending Counting)
                         two_commands))) =
    [SendMedia sendPhoto (-1001) "a" []; SendMedia sendPhoto (-1001) "a" []].
Proof.
  destruct (@overlapping_takes_publish_twice Demo.cfg Demo.env two_commands
              (Demo.photo_doc 0 "a")
              {| method := sendPhoto; fileId := "a"; options := [] |}
              demo_reliable demo_uniform eq_refl eq_refl)
    as (_ & _ & _ & _ & Hr & Ht & _).
  split; [exact Hr | rewrite Ht; reflexivity].
Defined.

(** C6 right after startup: administrator 1 sends [/random_post 3]; the
    tick that was pending (handle 0) cannot fire afterwards. *)
Lemma manual_trigger_supersedes_witness :
  let m := Demo.text_message 1 "/random_post 3" in
  let now := {| getHours := 12; getTimezoneOffset := 0 |} in
  postTimer Demo.world = Some 0%nat /\
  run Demo.cfg Demo.env [Incoming m; Fires 0 now] Demo.world = None /\
  pending (snd (onMessage Demo.cfg Demo.env m Demo.world)) =
    [(1%nat, next_delay Demo.cfg Demo.env 1)].
Proof.
  intros m now.
  pose proof (@manual_trigger_supersedes Demo.cfg Demo.env
                [Demo.photo_doc 0 "a"; Demo.photo_doc 1 "b"] 2 [] Demo.world
                m {| user_id := 1 |} "/random_post 3" (Some "3"%string)
                eq_refl eq_refl eq_refl eq_refl eq_refl) as H.
  cbv zeta in H.
  destruct H as (_ & _ & _ & Hp & _ & Hold & _).
  split; [reflexivity | split; [exact (Hold 0%nat now eq_refl) | exact Hp]].
Defined.

(** C1 on the forwarded photo: alone it is a sendPhoto of the first size,
    with no caption since it is a forward; in an album it is rejected. *)
Lemma serializeMessage_rules_witness :
  serializeMessage (Demo.forwarded_photo 5 None) =
    Return {| method := sendPhoto; fileId := "small"; options := [] |} /\
  serializeMessage (Demo.forwarded_photo 5 (Some "album"%string)) =
    Throw grouped_media_unsupported /\
  serializeMessage (Demo.text_message 5 "hi") = Throw text_only_unsupported /\
  serializeMessage (Demo.bare_message 5) = Throw no_allowed_content.
Proof.
  split; [|split; [|split]].
  - exact (proj1 (proj1 (proj2 (serializeMessage_rules
                                   (Demo.forwarded_photo 5 None))) eq_refl)
                 _ _ eq_refl).
  - exact (proj1 (serializeMessage_rules
                    (Demo.forwarded_photo 5 (Some "album"%string))) eq_refl).
  - destruct (serializeMessage_rules (Demo.text_message 5 "hi"))
      as (_ & H & _).
    destruct (H eq_refl) as (_ & H1). destruct (H1 eq_refl) as (_ & H2).
    destruct (H2 eq_refl) as (_ & H3). destruct (H3 eq_refl) as (H4 & _).
    exact (H4 eq_refl).
  - destruct (serializeMessage_rules (Demo.bare_message 5)) as (_ & H & _).
    destruct (H eq_refl) as (_ & H1). destruct (H1 eq_refl) as (_ & H2).
    destruct (H2 eq_refl) as (_ & H3). destruct (H3 eq_refl) as (_ & H4).
    exact (H4 eq_refl).
Defined.

(** A photo whose size list is empty is neither serialized nor rejected by
    the codec: reading the first size raises a TypeError. *)
Lemma serializeMessage_no_sizes (message : Message) :
  truthy (media_group_id message) = false ->
  photo message = Some [] ->
  serializeMessage message = Throw TypeError.
Proof.
  intros Hg Hp. unfold serializeMessage. rewrite Hg, Hp. reflexivity.
Qed.

(** C9 on the forwarded photo (its caption is dropped) and on a photo that
    is not a forward (its caption is kept, and it has no parse mode). *)
Lemma pickMessageProps_forwarded_or_subset_witness :
  pickMessageProps (Demo.forwarded_photo 5 None) = [] /\
  lookup_prop (pickMessageProps Demo.own_photo) "caption" =
    Some (PStr "look") /\
  lookup_prop (pickMessageProps Demo.own_photo) "parse_mode" = None.
Proof.
  split.
  - refine (proj1 (pickMessageProps_forwarded_or_subset
                     (Demo.forwarded_photo 5 None)) 1600000000%Z eq_refl _).
    discriminate.
  - destruct (proj2 (pickMessageProps_forwarded_or_subset Demo.own_photo)
                    eq_refl) as (Hc & Hp & _).
    split; [exact Hc | exact Hp].
Defined.

(** C5 when everything fails: the tick throws, and still the next tick is
    scheduled. *)
Lemma handlePostTimer_always_reschedules_witness :
  fst (handlePostTimer Demo.cfg Demo.failing_env noon Demo.world) =
    Throw IOError /\
  exists k t,
    (draws Demo.world <= k)%nat /\
    draws (snd (handlePostTimer Demo.cfg Demo.failing_env noon Demo.world)) =
      S k /\
    timer_calls t = [] /\
    trace (snd (handlePostTimer Demo.cfg Demo.failing_env noon Demo.world)) =
      trace Demo.world ++ t ++ cancel (postTimer Demo.world) ++
      [SetTimeout (next_handle Demo.world)
                  (next_delay Demo.cfg Demo.failing_env k)] /\
    postTimer (snd (handlePostTimer Demo.cfg Demo.failing_env noon Demo.world)) =
      Some (next_handle Demo.world) /\
    pending (snd (handlePostTimer Demo.cfg Demo.failing_env noon Demo.world)) =
      disarm (postTimer Demo.world) (pending Demo.world) ++
      [(next_handle Demo.world, next_delay Demo.cfg Demo.failing_env k)].
Proof.
  split; [reflexivity|].
  exact (handlePostTimer_always_reschedules
           Demo.cfg Demo.failing_env noon Demo.world).
Defined.

(** C8 with a backlog of two (chance 1/50): at noon a draw of 0 publishes a
    batch of round(4 + 0 * 1) = 4; a draw of 1/2 does not; and at 5 o'clock,
    the first hour of the window, nothing is published whatever the draw. *)
Lemma handlePostTimer_gate_witness :
  handlePostTimer Demo.cfg Demo.eager_env noon Demo.world =
    try_finally (postRandomMessages Demo.cfg Demo.eager_env 4)
                (schedulePostTimer Demo.cfg Demo.eager_env)
                (counted 2 Demo.world) /\
  quiet Demo.world (snd (handlePostTimer Demo.cfg Demo.env noon Demo.world)) /\
  quiet Demo.world
        (snd (handlePostTimer Demo.cfg Demo.eager_env five Demo.world)).
Proof.
  split; [|split].
  - refine (proj2 (proj2 (handlePostTimer_gate
                            Demo.cfg Demo.eager_env noon Demo.world))
                  eq_refl _ _ eq_refl); reflexivity.
  - apply (proj1 (handlePostTimer_gate Demo.cfg Demo.env noon Demo.world)).
    right; right; right. reflexivity.
  - apply (proj1 (proj2 (handlePostTimer_gate
                           Demo.cfg Demo.eager_env five Demo.world))).
    left. reflexivity.
Defined.

(* ------------------------------------------------------------------ *)
(** * Further properties of the script *)

(** ** The command pattern *)

Lemma strip_prefix_app (p s r : string) :
  strip_prefix p s = Some r <-> s = (p ++ r)%string.
Proof.
  revert s. induction p as [| a p IH]; intros s; cbn.
  - split; [intros H; inversion H; reflexivity | intros ->; reflexivity].
  - destruct s as [| b s]; [split; discriminate|].
    destruct (Ascii.eqb_spec a b) as [-> | Hne].
    + rewrite IH. split; [intros ->; reflexivity | intros H; inversion H; reflexivity].
    + split; [discriminate | intros H; inversion H; congruence].
Qed.

Lemma append_assoc (a b c : string) :
  ((a ++ b) ++ c = a ++ (b ++ c))%string.
Proof. induction a as [| x a IH]; cbn; [reflexivity | f_equal; exact IH]. Qed.

Lemma append_length (a b : string) :
  String.length (a ++ b) = (String.length a + String.length b)%nat.
Proof. induction a as [| x a IH]; cbn; [reflexivity | f_equal; exact IH]. Qed.

Lemma strip_any_some (xs : list string) (s r : string) :
  strip_any xs s = Some r -> exists x, In x xs /\ s = (x ++ r)%string.
Proof.
  induction xs as [| x xs IH]; cbn; [discriminate|].
  destruct (strip_prefix x s) as [r'|] eqn:E.
  - intros H. inversion H; subst r'. exists x. split; [auto|].
    apply strip_prefix_app, E.
  - intros H. destruct (IH H) as (y & Hy & Hs). exists y. auto.
Qed.

(** No white-space character is the beginning of another, so the one a text
    starts with is the one stripped. *)
Lemma strip_any_white_space (x s : string) :
  In x white_space -> strip_any white_space (x ++ s) = Some s.
Proof.
  intros H. unfold white_space in H. cbn [map] in H.
  repeat (destruct H as [<- | H]; [reflexivity|]).
  destruct H.
Qed.

Lemma white_space_length (x : string) :
  In x white_space -> (1 <= String.length x)%nat.
Proof.
  intros H. unfold white_space in H. cbn [map] in H.
  repeat (destruct H as [<- | H]; [cbn; lia|]).
  destruct H.
Qed.

Lemma strip_any_digit (d : ascii) (s : string) :
  is_digit d = true -> strip_any white_space (String d s) = None.
Proof.
  intros Hd.
  assert (Hall : Forall (fun x => match x with
                                  | String a _ => is_digit a = false
                                  | EmptyString => False
                                  end) white_space)
    by (repeat constructor).
  induction Hall as [| x xs Hx _ IH]; [reflexivity|].
  cbn [strip_any]. destruct x as [| a x]; [destruct Hx|].
  cbn [strip_prefix].
  destruct (Ascii.eqb_spec a d) as [-> | _]; [congruence | exact IH].
Qed.

Lemma drop_spaces_fuel_split (n : nat) (s : string) :
  exists ws, s = (ws ++ drop_spaces_fuel n s)%string /\ white_spaces ws.
Proof.
  revert s. induction n as [| n IH]; intros s; cbn [drop_spaces_fuel].
  - exists EmptyString. split; [reflexivity | constructor].
  - destruct (strip_any white_space s) as [r|] eqn:E.
    + destruct (@strip_any_some white_space s r E) as (x & Hx & Hs).
      destruct (IH r) as (ws & Hr & Hws).
      exists (x ++ ws)%string. split; [|constructor; assumption].
      transitivity (x ++ r)%string; [exact Hs|].
      rewrite append_assoc. f_equal. exact Hr.
    + exists EmptyString. split; [reflexivity | constructor].
Qed.

Lemma drop_spaces_fuel_digits (ws : string) (d : ascii) (digits : string) :
  white_spaces ws -> is_digit d = true ->
  forall n, (String.length ws <= n)%nat ->
    drop_spaces_fuel n (ws ++ String d digits) = String d digits.
Proof.
  intros Hws Hd. induction Hws as [| x s Hx Hs IH]; intros n Hn.
  - destruct n; cbn [drop_spaces_fuel String.append]; [reflexivity|].
    rewrite (@strip_any_digit d digits Hd). reflexivity.
  - pose proof (@white_space_length x Hx) as Hlen.
    rewrite append_length in Hn.
    destruct n as [| n]; [lia|].
    cbn [drop_spaces_fuel]. rewrite append_assoc.
    rewrite (@strip_any_white_space x _ Hx). apply IH. lia.
Qed.

(** X1.  The pattern of the publish command matches exactly the text
    [/random_post] alone (group 1 undefined), and [/random_post] followed by
    one or more white-space characters and then one or more decimal digits
    up to the end of the text (group 1 is the digits). *)
Theorem match_random_post_spec (command : string) (group1 : option string) :
  match_random_post command = Some group1 <->
  (group1 = None /\ command = "/random_post"%string) \/
  (exists x ws digits,
     group1 = Some digits /\
     command = ("/random_post" ++ x ++ ws ++ digits)%string /\
     In x white_space /\ white_spaces ws /\
     digits <> EmptyString /\ all_chars is_digit digits = true).
Proof.
  unfold match_random_post. split.
  - destruct (strip_prefix "/random_post" command) as [rest|] eqn:Hs;
      [|discriminate].
    apply strip_prefix_app in Hs.
    destruct rest as [| c rest].
    + intros H. inversion H; subst. left. split; reflexivity.
    + destruct (strip_any white_space (String c rest)) as [rest'|] eqn:Hx;
        [|discriminate].
      destruct (@strip_any_some white_space _ rest' Hx) as (x & Hin & Hrest).
      unfold drop_spaces.
      destruct (drop_spaces_fuel_split (String.length rest') rest')
        as (ws & Hsplit & Hws).
      destruct (drop_spaces_fuel (String.length rest') rest')
        as [| y digits] eqn:Hd; [discriminate|].
      unfold_truthy. cbn [String.eqb negb andb].
      destruct (all_chars is_digit (String y digits)) eqn:Hall;
        [|discriminate].
      intros H. inversion H; subst group1. right.
      exists x, ws, (String y digits).
      repeat split; try discriminate; auto.
      rewrite Hs, Hrest, Hsplit at 1. reflexivity.
  - intros [[-> ->] | (x & ws & digits & -> & -> & Hx & Hws & Hd & Hdig)].
    + reflexivity.
    + assert (Hs : strip_prefix "/random_post"
                     ("/random_post" ++ x ++ ws ++ digits) =
                   Some (x ++ ws ++ digits)%string)
        by (apply strip_prefix_app; reflexivity).
      rewrite Hs.
      destruct digits as [| y digits]; [contradiction|].
      assert (Hy : is_digit y = true).
      { cbn in Hdig. apply andb_true_iff in Hdig. apply Hdig. }
      pose proof (@white_space_length x Hx) as Hlen.
      destruct (x ++ ws ++ String y digits)%string as [| c rest] eqn:E.
      { destruct x; cbn in Hlen, E; [lia | discriminate]. }
      rewrite <- E. rewrite (@strip_any_white_space x _ Hx).
      unfold drop_spaces.
      rewrite (@drop_spaces_fuel_digits ws y digits Hws Hy)
        by (rewrite append_length; lia).
      unfold_truthy. cbn [String.eqb negb andb]. rewrite Hdig.
      reflexivity.
Qed.

(** The pattern on a no-break space (U+00A0) before the count. *)
Lemma match_random_post_spec_witness :
  match_random_post ("/random_post" ++ bytes [194; 160]%nat ++ "3") =
    Some (Some "3"%string).
Proof.
  apply (proj2 (match_random_post_spec _ _)). right.
  exists (bytes [194; 160]%nat), EmptyString, "3"%string.
  split; [reflexivity | split; [reflexivity | split]].
  - unfold white_space. cbn [map]. do 6 right. left. reflexivity.
  - split; [constructor | split; [discriminate | reflexivity]].
Defined.

(** ** What users who are not administrators can do *)

Lemma call_world (env : Env) (e : Effect) (w : World) :
  snd (call env e w) = with_ios (S (ios w)) (with_trace (trace w ++ [e]) w).
Proof. run_monad. destruct (fails env (ios w)); reflexivity. Qed.

Lemma call_kept (env : Env) (e : Effect) (w : World) :
  is_timer_call e = false ->
  trace (snd (call env e w)) = trace w ++ [e] /\
  store_kept w (snd (call env e w)) /\ timers_kept w (snd (call env e w)).
Proof.
  intros He. split; [|split].
  - rewrite call_world. reflexivity.
  - rewrite call_world. split; reflexivity.
  - apply call_timers_kept, He.
Qed.

(** X2.  To someone who is not an administrator [handleCommand] makes
    exactly one call, whatever the gateway does: the greeting for [/start],
    and "Unknown command :(" for every other text, [/queue_info] and
    [/random_post] included; the store and the timers are left as they
    were. *)
Theorem handleCommand_ordinary
  (cfg : Config) (env : Env) (m : Message) (w : World) (u : User)
  (command : string)
  (Hfrom : from m = Some u)
  (Hordinary : is_admin env u = false)
  (Htext : text m = Some command) :
  trace (snd (handleCommand cfg env m w)) =
    trace w ++ [SendMessage (chat_id (chat m)) (ordinary_reply command) []] /\
  store_kept w (snd (handleCommand cfg env m w)) /\
  timers_kept w (snd (handleCommand cfg env m w)).
Proof.
  unfold is_admin in Hordinary.
  unfold handleCommand. run_monad. rewrite Hfrom. run_monad.
  rewrite Hordinary, Htext. cbn [is_string negb]. unfold ordinary_reply.
  destruct (String.eqb command "/start").
  - apply (@call_kept env _ w). reflexivity.
  - destruct (String.eqb command "/queue_info").
    + apply (@call_kept env _ w). reflexivity.
    + run_monad. destruct (match_random_post command);
        apply (@call_kept env _ w); reflexivity.
Qed.

Lemma handleCommand_ordinary_witness :
  trace (snd (handleCommand Demo.cfg Demo.env
                (Demo.text_message 5 "/random_post 3") Demo.world)) =
    trace Demo.world ++ [SendMessage 5 "Unknown command :(" []] /\
  docs (snd (handleCommand Demo.cfg Demo.env
               (Demo.text_message 5 "/random_post 3") Demo.world)) =
    docs Demo.world.
Proof.
  destruct (@handleCommand_ordinary Demo.cfg Demo.env
              (Demo.text_message 5 "/random_post 3") Demo.world
              {| user_id := 5 |} "/random_post 3" eq_refl eq_refl eq_refl)
    as (Ht & [Hd _] & _).
  split; [exact Ht | exact Hd].
Defined.

Lemma store_kept_refl w : store_kept w w.
Proof. split; reflexivity. Qed.

Lemma store_kept_trans a b c :
  store_kept a b -> store_kept b c -> store_kept a c.
Proof. intros [H1 H2] [G1 G2]. split; congruence. Qed.

Lemma call_store_kept env e : stable store_kept (call env e).
Proof. intros w. rewrite call_world. split; reflexivity. Qed.

Lemma call_detached_store_kept e : stable store_kept (call_detached e).
Proof. intros w. split; reflexivity. Qed.

#[local] Hint Resolve call_store_kept call_detached_store_kept : frame.

Lemma handleCommand_ordinary_frame
  (cfg : Config) (env : Env) (m : Message) (w : World) (u : User)
  (command : string) :
  from m = Some u -> is_admin env u = false -> text m = Some command ->
  store_kept w (snd (handleCommand cfg env m w)) /\
  timers_kept w (snd (handleCommand cfg env m w)).
Proof.
  intros Hfrom Hordinary Htext. unfold is_admin in Hordinary.
  unfold handleCommand. run_monad. rewrite Hfrom. run_monad.
  rewrite Hordinary, Htext. cbn [is_string negb].
  destruct (String.eqb command "/start").
  - apply (@call_kept env _ w). reflexivity.
  - destruct (String.eqb command "/queue_info").
    + apply (@call_kept env _ w). reflexivity.
    + run_monad. destruct (match_random_post command);
        apply (@call_kept env _ w); reflexivity.
Qed.

Lemma checkAdminRights_sender env u w :
  checkAdminRights env (Some u) w = (Return (is_admin env u), w).
Proof. reflexivity. Qed.

Lemma handleMedia_ordinary_store_kept cfg env m w u :
  from m = Some u -> is_admin env u = false ->
  store_kept w (snd (handleMedia cfg env m w)).
Proof.
  intros Hfrom Hord.
  unfold handleMedia. rewrite Hfrom.
  rewrite (bind_Return _ (checkAdminRights_sender env u w)), Hord.
  match goal with
  | |- store_kept w (snd (?c w)) => assert (Hs : stable store_kept c)
  end.
  { unfold sendMessage, sendSerializedMessage.
    stable_auto store_kept_refl store_kept_trans. }
  apply Hs.
Qed.

Lemma handleCallbackQuery_ordinary env q w u :
  cq_from q = Some u -> is_admin env u = false ->
  trace (snd (handleCallbackQuery env q w)) =
    trace w ++ [AnswerCallbackQuery (cq_id q)] /\
  store_kept w (snd (handleCallbackQuery env q w)).
Proof.
  intros Hfrom Hord.
  unfold handleCallbackQuery. rewrite Hfrom.
  rewrite (bind_Return _ (checkAdminRights_sender env u w)), Hord.
  split; [reflexivity | split; reflexivity].
Qed.

(** X3.  Events caused by users who are not administrators, in any number
    and order and whatever the gateway does, leave the store and the timers
    exactly as they were: only an administrator or a tick can add to the
    queue, publish from it, or reschedule. *)
Theorem ordinary_events_change_nothing
  (cfg : Config) (env : Env) (evs : list Event) (w w' : World)
  (Hordinary : Forall (ordinary env) evs)
  (Hrun : run cfg env evs w = Some w') :
  store_kept w w' /\ timers_kept w w'.
Proof.
  revert w Hrun. induction Hordinary as [| ev evs Hev _ IH]; intros w Hrun.
  - inversion Hrun; subst. split; [apply store_kept_refl | apply timers_kept_refl].
  - cbn [run] in Hrun.
    destruct (step cfg env ev w) as [w1|] eqn:Hstep; [|discriminate].
    destruct (IH w1 Hrun) as [Hs Ht].
    assert (H1 : store_kept w w1 /\ timers_kept w w1).
    { destruct Hev as (u & Hsender & Hord).
      destruct ev as [m | q | h now]; cbn in Hsender, Hstep;
        [| |discriminate]; inversion Hstep; subst w1; clear Hstep.
      - unfold onMessage.
        destruct (text m) as [[| [[] [] [] [] [] [] [] []] rest]|] eqn:Htext;
          try (split; [eapply handleMedia_ordinary_store_kept; eassumption
                      | apply handleMedia_timers_kept]).
        destruct (@handleCommand_ordinary_frame cfg env m w u _
                    Hsender Hord Htext) as [Hk Hk'].
        split; assumption.
      - split; [eapply handleCallbackQuery_ordinary; eassumption
               | apply handleCallbackQuery_timers_kept]. }
    destruct H1 as [Hs1 Ht1].
    split; [eapply store_kept_trans | eapply timers_kept_trans]; eassumption.
Qed.

Lemma ordinary_events_change_nothing_witness :
  let evs := [Incoming (Demo.forwarded_photo 5 None);
              Incoming (Demo.text_message 5 "/random_post 3");
              Pressed {| cq_id := "q"; cq_from := Some {| user_id := 5 |};
                         cq_message := Some (Demo.forwarded_photo 1 None);
                         cq_data := Some "accept"%string |}] in
  exists w', run Demo.cfg Demo.env evs Demo.world = Some w' /\
             docs w' = docs Demo.world /\ pending w' = pending Demo.world.
Proof.
  intros evs.
  destruct (run Demo.cfg Demo.env evs Demo.world) as [w'|] eqn:Hrun;
    [|discriminate Hrun].
  exists w'. split; [reflexivity|].
  assert (Hord : Forall (ordinary Demo.env) evs).
  { repeat constructor; exists {| user_id := 5 |}; split; reflexivity. }
  destruct (@ordinary_events_change_nothing Demo.cfg Demo.env evs Demo.world
              w' Hord Hrun) as [[Hd _] (_ & Hp & _)].
  split; [exact Hd | exact Hp].
Defined.

(** ** The review prompt *)

Lemma lookup_set_prop_eq (o : Options) (key : string) (v : PropVal) :
  lookup_prop (set_prop o key v) key = Some v.
Proof.
  unfold lookup_prop. induction o as [| [k x] o IH]; cbn.
  - rewrite String.eqb_refl. reflexivity.
  - destruct (String.eqb k key) eqn:E; cbn; rewrite E; [reflexivity | exact IH].
Qed.

Lemma lookup_set_prop_neq (o : Options) (key key' : string) (v : PropVal) :
  key' <> key ->
  lookup_prop (set_prop o key v) key' = lookup_prop o key'.
Proof.
  intros Hne. unfold lookup_prop. induction o as [| [k x] o IH]; cbn.
  - destruct (String.eqb_spec key key'); [congruence | reflexivity].
  - destruct (String.eqb_spec k key) as [-> | Hk]; cbn.
    + destruct (String.eqb_spec key key'); [congruence | reflexivity].
    + destruct (String.eqb k key'); [reflexivity | exact IH].
Qed.

Lemma set_prop_twice (o : Options) (key : string) (v v' : PropVal) :
  set_prop (set_prop o key v) key v' = set_prop o key v'.
Proof.
  induction o as [| [k x] o IH]; cbn.
  - rewrite String.eqb_refl. reflexivity.
  - destruct (String.eqb k key) eqn:E; cbn; rewrite E;
      [reflexivity | f_equal; exact IH].
Qed.

(** X4.  [addAdminReplyMarkup] keeps the method, the file handle and every
    option of the serialized message other than [reply_markup] (so the
    caption reaches the reviewer), sets [reply_markup] to the inline keyboard
    with "Yes"/accept and "No"/reject, and applying it twice is the same as
    applying it once. *)
Theorem addAdminReplyMarkup_spec (s : Serialized) :
  method (addAdminReplyMarkup s) = method s /\
  fileId (addAdminReplyMarkup s) = fileId s /\
  lookup_prop (options (addAdminReplyMarkup s)) "reply_markup" =
    Some review_keyboard /\
  (forall key, key <> "reply_markup"%string ->
     lookup_prop (options (addAdminReplyMarkup s)) key =
     lookup_prop (options s) key) /\
  addAdminReplyMarkup (addAdminReplyMarkup s) = addAdminReplyMarkup s.
Proof.
  unfold addAdminReplyMarkup. cbn [method fileId options].
  split; [reflexivity | split; [reflexivity | split; [|split]]].
  - apply lookup_set_prop_eq.
  - intros key Hk. apply lookup_set_prop_neq, Hk.
  - rewrite set_prop_twice. reflexivity.
Qed.

(** X5.  A message from a user who is not an administrator that serializes
    and is not blacklisted is sent to the owner, by the method and with the
    file handle of the serialized message and its options plus the review
    keyboard; when the gateway takes that call the submitter is thanked,
    and when it rejects it nothing more is sent.  Either way nothing is
    stored. *)
Theorem handleMedia_review_prompt
  (cfg : Config) (env : Env) (m : Message) (w : World) (u : User)
  (s : Serialized)
  (Hfrom : from m = Some u)
  (Hordinary : is_admin env u = false)
  (Hs : serializeMessage m = Return s)
  (Hclean : checkIfBlacklisted cfg m = false) :
  let prompt :=
    SendMedia (method s) (ownerId env) (fileId s)
              (set_prop (options s) "reply_markup" review_keyboard) in
  let thanks :=
    SendMessage (chat_id (chat m)) "Thanks for your contribution!" [] in
  (fails env (ios w) = false ->
     trace (snd (handleMedia cfg env m w)) = trace w ++ [prompt; thanks]) /\
  (fails env (ios w) = true ->
     handleMedia cfg env m w =
     (Throw IOError, with_ios (S (ios w)) (with_trace (trace w ++ [prompt]) w))) /\
  store_kept w (snd (handleMedia cfg env m w)).
Proof.
  intros prompt thanks.
  split; [|split].
  - intros Hok. unfold handleMedia. rewrite Hfrom.
    rewrite (bind_Return _ (checkAdminRights_sender env u w)), Hordinary, Hs.
    cbn [truthy truthy_option truthy_Serialized]. rewrite Hclean.
    run_monad. rewrite Hok. run_monad. cbn [option_map]. run_monad.
    subst prompt thanks. unfold addAdminReplyMarkup, review_keyboard.
    cbn [method fileId options].
    match goal with
    | |- context [fails env ?n] => destruct (fails env n)
    end; cbn [snd trace with_ios with_trace];
      rewrite <- app_assoc; reflexivity.
  - intros Hko. unfold handleMedia. rewrite Hfrom.
    rewrite (bind_Return _ (checkAdminRights_sender env u w)), Hordinary, Hs.
    cbn [truthy truthy_option truthy_Serialized]. rewrite Hclean.
    run_monad. rewrite Hko. reflexivity.
  - eapply handleMedia_ordinary_store_kept; eassumption.
Qed.

Lemma handleMedia_review_prompt_witness :
  trace (snd (handleMedia Demo.cfg Demo.env Demo.own_photo Demo.world)) =
    trace Demo.world ++
    [SendMedia sendPhoto 1 "small"
       [("caption", PStr "look"); ("reply_markup", review_keyboard)]%string;
     SendMessage 5 "Thanks for your contribution!" []].
Proof.
  exact (proj1 (@handleMedia_review_prompt Demo.cfg Demo.env Demo.own_photo
                  Demo.world {| user_id := 5 |}
                  {| method := sendPhoto; fileId := "small";
                     options := [("caption", PStr "look")]%string |}
                  eq_refl eq_refl eq_refl eq_refl) eq_refl).
Defined.

(** ** Administrator commands *)

(** X6.  For an administrator: [/start] is answered with "Hi!" and the
    keyboard of the two commands; [/queue_info] is answered with the number
    of documents in the store, or with nothing when the count is rejected;
    a text that is none of the commands is answered with
    "Unknown command :(".  None of these changes the store or the timers. *)
Theorem handleCommand_admin
  (cfg : Config) (env : Env) (m : Message) (w : World) (u : User)
  (command : string)
  (Hfrom : from m = Some u)
  (Hadmin : is_admin env u = true)
  (Htext : text m = Some command) :
  let w' := snd (handleCommand cfg env m w) in
  let chatId := chat_id (chat m) in
  (command = "/start"%string ->
     trace w' = trace w ++ [SendMessage chatId "Hi!" admin_keyboard] /\
     store_kept w w' /\ timers_kept w w') /\
  (command = "/queue_info"%string ->
     (fails env (ios w) = false ->
        trace w' = trace w ++
          [SendMessage chatId
             ("Message queue size: " ++
              toString (Z.of_nat (List.length (docs w)))) []]) /\
     (fails env (ios w) = true -> trace w' = trace w) /\
     store_kept w w' /\ timers_kept w w') /\
  (command <> "/start"%string -> command <> "/queue_info"%string ->
   match_random_post command = None ->
     trace w' = trace w ++ [SendMessage chatId "Unknown command :(" []] /\
     store_kept w w' /\ timers_kept w w').
Proof.
  intros w' chatId. subst w'. unfold is_admin in Hadmin.
  unfold handleCommand. run_monad. rewrite Hfrom. run_monad.
  rewrite Hadmin, Htext. cbn [is_string negb]. fold chatId.
  split; [|split].
  - intros ->. cbn [String.eqb Ascii.eqb Bool.eqb].
    apply (@call_kept env _ w). reflexivity.
  - intros ->. cbn [String.eqb Ascii.eqb Bool.eqb]. run_monad.
    destruct (fails env (ios w)) eqn:Hf.
    + split; [discriminate | split; [reflexivity |]].
      split; [split; reflexivity|].
      unfold timers_kept; cbn; repeat split; try lia.
      exists []. rewrite app_nil_r. auto.
    + run_monad.
      pose proof (@call_kept env
        (SendMessage chatId
           ("Message queue size: " ++
            toString (Z.of_nat (List.length (docs w)))) [])
        (with_ios (S (ios w)) w) eq_refl) as (Ht & [Hd Hn] & Hk).
      revert Ht Hd Hn Hk. run_monad. intros Ht Hd Hn Hk.
      split; [intros _; exact Ht | split; [discriminate |]].
      split; [split; assumption|].
      destruct Hk as (K1 & K2 & K3 & K4 & K5).
      unfold timers_kept. cbn [postTimer pending next_handle trace draws with_ios] in *.
      repeat split; assumption.
  - intros H1 H2 Hm.
    destruct (String.eqb_spec command "/start"); [contradiction|].
    destruct (String.eqb_spec command "/queue_info"); [contradiction|].
    run_monad. rewrite Hm.
    apply (@call_kept env _ w). reflexivity.
Qed.

Lemma handleCommand_admin_witness :
  trace (snd (handleCommand Demo.cfg Demo.env
                (Demo.text_message 1 "/queue_info") Demo.world)) =
    trace Demo.world ++ [SendMessage 1 "Message queue size: 2" []].
Proof.
  destruct (@handleCommand_admin Demo.cfg Demo.env
              (Demo.text_message 1 "/queue_info") Demo.world
              {| user_id := 1 |} "/queue_info" eq_refl eq_refl eq_refl)
    as (_ & Hq & _).
  destruct (Hq eq_refl) as (Hok & _).
  exact (Hok eq_refl).
Defined.

(** X7.  When nothing fails, a media message from an administrator followed
    by [/queue_info] from an administrator is answered with a queue size one
    larger than the store had: the submission is appended to the store, the
    original message is deleted, and the count sees the new document. *)
Theorem stored_then_counted
  (cfg : Config) (env : Env) (m q : Message) (w : World) (u v : User)
  (s : Serialized)
  (Hio : reliable env)
  (Hfrom : from m = Some u) (Hadmin : is_admin env u = true)
  (Hmedia : text m = None) (Hs : serializeMessage m = Return s)
  (Hfrom' : from q = Some v) (Hadmin' : is_admin env v = true)
  (Htext : text q = Some "/queue_info"%string) :
  exists w',
    run cfg env [Incoming m; Incoming q] w = Some w' /\
    docs w' = docs w ++ [{| _id := next_id w; doc_message := Some s |}] /\
    trace w' = trace w ++
      [DeleteMessage (chat_id (chat m)) (message_id m);
       SendMessage (chat_id (chat q))
         ("Message queue size: " ++
          toString (Z.of_nat (S (List.length (docs w))))) []].
Proof.
  unfold is_admin in *. eexists. split; [reflexivity|].
  cbn [run step]. unfold onMessage. rewrite Hmedia, Htext.
  unfold handleMedia. run_monad. rewrite Hfrom. run_monad.
  rewrite Hadmin, Hs. cbn [truthy truthy_option truthy_Serialized].
  repeat (progress (run_monad; rewrite ?Hio)).
  unfold handleCommand. run_monad. rewrite Hfrom'. run_monad.
  rewrite Hadmin', Htext. cbn [is_string negb String.eqb Ascii.eqb Bool.eqb].
  repeat (progress (run_monad; rewrite ?Hio)).
  split; [reflexivity|].
  rewrite length_app, <- app_assoc. cbn [List.length app].
  rewrite Nat.add_1_r. reflexivity.
Qed.

Lemma stored_then_counted_witness :
  exists w',
    run Demo.cfg Demo.env
        [Incoming (Demo.forwarded_photo 2 None);
         Incoming (Demo.text_message 1 "/queue_info")] Demo.world = Some w' /\
    trace w' = trace Demo.world ++
      [DeleteMessage 2 7; SendMessage 1 "Message queue size: 3" []].
Proof.
  destruct (@stored_then_counted Demo.cfg Demo.env
              (Demo.forwarded_photo 2 None)
              (Demo.text_message 1 "/queue_info") Demo.world
              {| user_id := 2 |} {| user_id := 1 |}
              {| method := sendPhoto; fileId := "small"; options := [] |}
              demo_reliable eq_refl eq_refl eq_refl eq_refl
              eq_refl eq_refl eq_refl) as (w' & Hrun & _ & Ht).
  exists w'. split; [exact Hrun | exact Ht].
Defined.

Lemma match_random_post_digits (c digits : string) :
  match_random_post c = Some (Some digits) ->
  all_chars is_digit digits = true.
Proof.
  unfold match_random_post.
  destruct (strip_prefix "/random_post" c) as [[| a rest]|]; try discriminate.
  destruct (strip_any white_space (String a rest)) as [rest'|];
    [|discriminate].
  destruct (truthy (drop_spaces rest')); [|discriminate].
  cbn [andb].
  destruct (all_chars is_digit (drop_spaces rest')) eqn:E; [|discriminate].
  intros H. inversion H; subst. exact E.
Qed.

Lemma Number_nonneg (digits : string) :
  all_chars is_digit digits = true -> (0 <= Number digits)%Z.
Proof.
  assert (H : forall s acc, (0 <= acc)%Z -> all_chars is_digit s = true ->
    (0 <= (fix go (acc : Z) (s : string) : Z :=
             match s with
             | EmptyString => acc
             | String c s' =>
                 go (10 * acc + (Z.of_N (N_of_ascii c) - 48))%Z s'
             end) acc s)%Z).
  { induction s as [| c s IH]; intros acc Hacc Hall; [exact Hacc|].
    cbn in Hall. apply andb_true_iff in Hall. destruct Hall as [Hc Hs].
    apply IH; [|exact Hs].
    unfold is_digit in Hc. apply andb_true_iff in Hc.
    destruct Hc as [H1 _]. apply N.leb_le in H1. lia. }
  intros Hd. unfold Number. apply H; [lia | exact Hd].
Qed.

Lemma published_timer_calls (t u : list Effect) :
  gateway_calls u = [] -> published (t ++ u) = published t.
Proof.
  intros H. rewrite published_app.
  assert (Hu : published u = 0%nat).
  { unfold published, gateway_calls in *.
    induction u as [| e u IH]; [reflexivity|].
    cbn in H |- *. destruct e; cbn in *; try discriminate; auto. }
  lia.
Qed.

(** X8.  With a store and gateway that do not fail, draws in [0, 1) and a
    well-formed store, an administrator's publish command for at most 2^53
    documents, handled with no other handler in between, returns normally
    having published min(n, backlog) documents and leaving the others, where
    n is 1 for [/random_post] alone and the number written after it
    otherwise (never negative).  Up to 2^53 the number is a double that the
    loop counter reaches; a larger one is outside this statement. *)
Theorem random_post_publishes
  (cfg : Config) (env : Env) (m : Message) (w : World) (u : User)
  (command : string) (group1 : option string)
  (Hio : reliable env) (Hu : uniform env)
  (Hok : store_ok w) (Hst : stocked w)
  (Hfrom : from m = Some u) (Hadmin : is_admin env u = true)
  (Htext : text m = Some command)
  (Hcmd : match_random_post command = Some group1)
  (Hsmall : (requested group1 <= 2 ^ 53)%Z) :
  let n := Z.to_nat (requested group1) in
  let w' := snd (onMessage cfg env m w) in
  (0 <= requested group1)%Z /\
  fst (onMessage cfg env m w) = Return tt /\
  published (trace w') =
    (published (trace w) + Nat.min n (List.length (docs w)))%nat /\
  List.length (docs w') = (List.length (docs w) - n)%nat.
Proof.
  intros n w'.
  split.
  { destruct group1 as [digits|]; cbn; [|lia].
    apply Number_nonneg. eapply match_random_post_digits; eassumption. }
  pose proof (@onMessage_random_post cfg env m w u command group1
                Hfrom Hadmin Htext Hcmd) as Hrun.
  fold (requested group1) in Hrun.
  destruct (schedulePostTimer_spec cfg env w)
    as (w1 & Heq & _ & _ & _ & Htr & _ & Hdocs & Hid & _).
  assert (Hw1 : snd (schedulePostTimer cfg env w) = w1)
    by (rewrite Heq; reflexivity).
  rewrite Hw1 in Hrun.
  assert (Hok1 : store_ok w1).
  { unfold store_ok. rewrite Hdocs, Hid. exact Hok. }
  assert (Hst1 : stocked w1).
  { unfold stocked. rewrite Hdocs. exact Hst. }
  destruct (@repeat_postRandomMessage cfg env Hio Hu n w1 Hok1 Hst1)
    as (H1 & _ & _ & H4 & H5).
  unfold w'. rewrite Hrun. unfold postRandomMessages. fold n.
  rewrite Hdocs in H4, H5. rewrite Htr in H5.
  rewrite published_timer_calls in H5
    by (destruct (postTimer w); reflexivity).
  split; [exact H1 | split; [exact H5 | exact H4]].
Qed.

Lemma random_post_publishes_witness :
  published (trace (snd (onMessage Demo.cfg Demo.env
                           (Demo.text_message 1 "/random_post 3")
                           Demo.world))) = 2%nat /\
  docs (snd (onMessage Demo.cfg Demo.env
               (Demo.text_message 1 "/random_post")
               Demo.world)) = [Demo.photo_doc 0 "a"].
Proof.
  split.
  - destruct (@random_post_publishes Demo.cfg Demo.env
                (Demo.text_message 1 "/random_post 3") Demo.world
                {| user_id := 1 |} "/random_post 3" (Some "3"%string)
                demo_reliable demo_uniform demo_store_ok demo_stocked
                eq_refl eq_refl eq_refl eq_refl
                ltac:(vm_compute; discriminate)) as (_ & _ & Hp & _).
    exact Hp.
  - reflexivity.
Defined.

(** ** Decisions on a prompt *)

(** X9.  When nothing fails, an administrator's decision on a prompt is
    carried out as follows: "accept" on a prompt that serializes appends the
    serialized prompt to the store; any other data (a rejection) leaves the
    store as it is; in both cases the prompt is then deleted and the
    callback acknowledged, in that order, and nothing else is called. *)
Theorem handleCallbackQuery_decision
  (env : Env) (q : CallbackQuery) (w : World) (u : User) (m : Message)
  (Hio : reliable env)
  (Hfrom : cq_from q = Some u) (Hadmin : is_admin env u = true)
  (Hmsg : cq_message q = Some m) :
  let w' := snd (handleCallbackQuery env q w) in
  let calls := [DeleteMessage (chat_id (chat m)) (message_id m);
                AnswerCallbackQuery (cq_id q)] in
  (forall s, is_string (cq_data q) "accept" = true ->
     serializeMessage m = Return s ->
     docs w' = docs w ++ [{| _id := next_id w; doc_message := Some s |}] /\
     trace w' = trace w ++ calls) /\
  (is_string (cq_data q) "accept" = false ->
     docs w' = docs w /\ trace w' = trace w ++ calls).
Proof.
  intros w' calls. subst w' calls.
  unfold handleCallbackQuery. rewrite Hfrom.
  rewrite (bind_Return _ (checkAdminRights_sender env u w)), Hadmin.
  split.
  - intros s Hacc Hs. rewrite Hacc, Hmsg. cbn [rbind deref]. rewrite Hs.
    repeat (progress (run_monad; rewrite ?Hio)).
    rewrite <- app_assoc. split; reflexivity.
  - intros Hrej. rewrite Hrej, Hmsg.
    repeat (progress (run_monad; rewrite ?Hio)).
    rewrite <- app_assoc. split; reflexivity.
Qed.

Lemma handleCallbackQuery_decision_witness :
  let q := {| cq_id := "q"; cq_from := Some {| user_id := 1 |};
              cq_message := Some Demo.own_photo;
              cq_data := Some "accept"%string |} in
  docs (snd (handleCallbackQuery Demo.env q Demo.world)) =
    docs Demo.world ++
    [{| _id := 2;
        doc_message := Some {| method := sendPhoto; fileId := "small";
                               options := [("caption", PStr "look")]%string |} |}] /\
  trace (snd (handleCallbackQuery Demo.env q Demo.world)) =
    trace Demo.world ++ [DeleteMessage 5 10; AnswerCallbackQuery "q"].
Proof.
  intros q.
  destruct (@handleCallbackQuery_decision Demo.env q Demo.world
              {| user_id := 1 |} Demo.own_photo demo_reliable
              eq_refl eq_refl eq_refl) as (Hacc & _).
  exact (Hacc _ eq_refl eq_refl).
Defined.

(** X10.  When the codec fails on an accepted prompt with an exception that
    is not a SerializationError (the query has no message, or its photo has
    no sizes), the exception is swallowed and a document whose message is
    [null] is inserted; for a query without a message the handler then
    throws before it deletes or acknowledges anything. *)
Theorem handleCallbackQuery_stores_null
  (env : Env) (q : CallbackQuery) (w : World) (u : User)
  (Hfrom : cq_from q = Some u) (Hadmin : is_admin env u = true)
  (Haccept : is_string (cq_data q) "accept" = true)
  (Hoops : reencoded q = Throw TypeError)
  (Hinsert : fails env (ios w) = false) :
  docs (snd (handleCallbackQuery env q w)) = docs w ++ [null_doc (next_id w)] /\
  (cq_message q = None ->
     fst (handleCallbackQuery env q w) = Throw TypeError /\
     trace (snd (handleCallbackQuery env q w)) = trace w).
Proof.
  unfold reencoded in Hoops.
  unfold handleCallbackQuery. rewrite Hfrom.
  rewrite (bind_Return _ (checkAdminRights_sender env u w)), Hadmin.
  rewrite Haccept, Hoops.
  repeat (progress (run_monad; rewrite ?Hinsert)).
  split.
  - destruct (cq_message q) as [m|]; run_monad; [|reflexivity].
    destruct (fails env (S (ios w))); reflexivity.
  - intros ->. run_monad. split; reflexivity.
Qed.

Lemma handleCallbackQuery_stores_null_witness :
  let q := {| cq_id := "q"; cq_from := Some {| user_id := 1 |};
              cq_message := None; cq_data := Some "accept"%string |} in
  docs (snd (handleCallbackQuery Demo.env q Demo.world)) =
    docs Demo.world ++ [null_doc 2].
Proof.
  intros q.
  exact (proj1 (@handleCallbackQuery_stores_null Demo.env q Demo.world
                  {| user_id := 1 |} eq_refl eq_refl eq_refl eq_refl eq_refl)).
Defined.

(** ** Failures while publishing *)

(** X11.  When the document a take picks holds [null], the take throws a
    TypeError having sent nothing and removed nothing, and so does every
    batch of one or more takes that starts there: the document stays in the
    store. *)
Theorem postRandomMessage_null_document
  (cfg : Config) (env : Env) (w : World) (d : Doc)
  (Hcount : fails env (ios w) = false)
  (Hfind : fails env (S (ios w)) = false)
  (Hpick : nth_error (docs w) (pick_index env w) = Some d)
  (Hnull : doc_message d = None) :
  let stuck := with_draws (S (draws w)) (with_ios (2 + ios w) w) in
  postRandomMessage cfg env w = (Throw TypeError, stuck) /\
  (forall count, (0 < count)%Z ->
     postRandomMessages cfg env count w = (Throw TypeError, stuck)).
Proof.
  intros stuck.
  assert (Hone : postRandomMessage cfg env w = (Throw TypeError, stuck)).
  { assert (Hpos : (0 <? Z.of_nat (List.length (docs w)))%Z = true).
    { apply Z.ltb_lt. destruct (docs w); [|cbn; lia].
      destruct (pick_index env w); discriminate. }
    unfold postRandomMessage.
    repeat (progress (run_monad; rewrite ?Hcount, ?Hpos)).
    cbn [Init.Nat.add]. rewrite Hfind. run_monad.
    fold (pick_index env w). rewrite Hpick. run_monad. rewrite Hnull.
    reflexivity. }
  split; [exact Hone|].
  intros count Hc. unfold postRandomMessages.
  destruct (Z.to_nat count) as [| n] eqn:E; [lia|].
  cbn [repeatM]. unfold bind. rewrite Hone. reflexivity.
Qed.

Lemma postRandomMessage_null_document_witness :
  postRandomMessages Demo.cfg Demo.env 3 poisoned =
    (Throw TypeError, with_draws 1 (with_ios 2 poisoned)).
Proof.
  exact (proj2 (@postRandomMessage_null_document Demo.cfg Demo.env poisoned
                  (null_doc 0) eq_refl eq_refl eq_refl eq_refl) 3%Z eq_refl).
Defined.

(** X12.  When the gateway rejects the send of a take, the take throws
    after that one call and the document it picked stays in the store. *)
Theorem postRandomMessage_send_rejected
  (cfg : Config) (env : Env) (w : World) (d : Doc) (s : Serialized)
  (Hcount : fails env (ios w) = false)
  (Hfind : fails env (S (ios w)) = false)
  (Hsend : fails env (S (S (ios w))) = true)
  (Hpick : nth_error (docs w) (pick_index env w) = Some d)
  (Hs : doc_message d = Some s) :
  fst (postRandomMessage cfg env w) = Throw IOError /\
  docs (snd (postRandomMessage cfg env w)) = docs w /\
  trace (snd (postRandomMessage cfg env w)) = trace w ++ [publish_of cfg env s].
Proof.
  assert (Hpos : (0 <? Z.of_nat (List.length (docs w)))%Z = true).
  { apply Z.ltb_lt. destruct (docs w); [|cbn; lia].
    destruct (pick_index env w); discriminate. }
  unfold postRandomMessage.
  repeat (progress (run_monad; rewrite ?Hcount, ?Hpos)).
  rewrite Hfind. run_monad.
  fold (pick_index env w). rewrite Hpick. run_monad. rewrite Hs.
  run_monad. rewrite Hsend.
  repeat split.
Qed.

Lemma postRandomMessage_send_rejected_witness :
  fst (postRandomMessage Demo.cfg third_fails Demo.world) = Throw IOError /\
  docs (snd (postRandomMessage Demo.cfg third_fails Demo.world)) =
    docs Demo.world.
Proof.
  destruct (@postRandomMessage_send_rejected Demo.cfg third_fails Demo.world
              (Demo.photo_doc 1 "b")
              {| method := sendPhoto; fileId := "b"; options := [] |}
              eq_refl eq_refl eq_refl eq_refl eq_refl) as (H1 & H2 & _).
  split; [exact H1 | exact H2].
Defined.

Lemma no_loss_refl cfg env w : no_loss cfg env w w.
Proof.
  split; [reflexivity | split; [auto|]].
  exists []. rewrite app_nil_r. split; [reflexivity | split; [constructor | cbn; lia]].
Qed.

Lemma no_loss_trans cfg env a b c :
  no_loss cfg env a b -> no_loss cfg env b c -> no_loss cfg env a c.
Proof.
  intros (H1 & H2 & t & Ht & Hf & Hl) (G1 & G2 & u & Hu & Gf & Gl).
  split; [congruence | split; [auto|]].
  exists (t ++ u). split; [rewrite Hu, Ht, app_assoc; reflexivity|].
  split; [apply Forall_app; split; assumption|].
  rewrite length_app. lia.
Qed.

Lemma remove_id_length_ge (i : nat) (l : list Doc) :
  (List.length l <= S (List.length (remove_id i l)))%nat.
Proof.
  induction l as [| d l IH]; cbn; [lia|].
  destruct (Nat.eqb (_id d) i); cbn; lia.
Qed.

Lemma no_loss_same cfg env w w' :
  next_id w' = next_id w -> docs w' = docs w -> trace w' = trace w ->
  no_loss cfg env w w'.
Proof.
  intros Hn Hd Ht. split; [exact Hn | split].
  - intros d. rewrite Hd. auto.
  - exists []. rewrite app_nil_r, Hd.
    split; [exact Ht | split; [constructor | cbn; lia]].
Qed.

Lemma postRandomMessage_no_loss cfg env :
  stable (no_loss cfg env) (postRandomMessage cfg env).
Proof.
  intros w. unfold postRandomMessage. run_monad.
  destruct (fails env (ios w)); [apply no_loss_same; reflexivity|].
  run_monad.
  destruct (0 <? Z.of_nat (List.length (docs w)))%Z;
    [|apply no_loss_same; reflexivity].
  run_monad.
  destruct (fails env (S (ios w))); [apply no_loss_same; reflexivity|].
  run_monad.
  destruct (nth_error (docs w) _) as [d|];
    [|apply no_loss_same; reflexivity].
  run_monad.
  destruct (doc_message d) as [s|]; [|apply no_loss_same; reflexivity].
  run_monad.
  assert (Hsent : forall w',
            next_id w' = next_id w ->
            (docs w' = docs w \/ docs w' = remove_id (_id d) (docs w)) ->
            trace w' = trace w ++ [publish_of cfg env s] ->
            no_loss cfg env w w').
  { intros w' Hn Hd Ht. split; [exact Hn | split].
    - intros x Hx. destruct Hd as [Hd | Hd]; rewrite Hd in Hx;
        [exact Hx | eapply remove_id_incl; exact Hx].
    - exists [publish_of cfg env s]. split; [exact Ht|].
      split; [repeat constructor; eexists; reflexivity|].
      destruct Hd as [Hd | Hd]; rewrite Hd; cbn;
        [lia | pose proof (remove_id_length_ge (_id d) (docs w)); lia]. }
  destruct (fails env (S (S (ios w))));
    [apply Hsent; cbn; auto|].
  run_monad.
  destruct (fails env (S (S (S (ios w))))); apply Hsent; cbn; auto.
Qed.

(** X13.  Whatever the draws and whatever fails, a batch of takes loses
    nothing: it hands out no identifier, leaves only documents that were in
    the store, calls nothing but media sends addressed to the target chat
    (the owner when debugging, the chat otherwise), and removes at most as
    many documents as it made such calls. *)
Theorem postRandomMessages_no_loss
  (cfg : Config) (env : Env) (count : Z) (w : World) :
  no_loss cfg env w (snd (postRandomMessages cfg env count w)).
Proof.
  unfold postRandomMessages.
  apply stable_repeatM.
  - apply no_loss_refl.
  - apply no_loss_trans.
  - apply postRandomMessage_no_loss.
Qed.

(** ** Ticks *)

Lemma repeat_postRandomMessage_empty cfg env (n : nat) :
  forall w, docs w = [] ->
    quiet w (snd (repeatM n (postRandomMessage cfg env) w)).
Proof.
  induction n as [| n IH]; intros w He; [apply quiet_refl|].
  cbn [repeatM]. unfold bind.
  destruct (postRandomMessage_empty cfg env w He) as [Hw _].
  destruct (postRandomMessage cfg env w) as [[[] | e] w1]; cbn [snd] in *;
    subst w1.
  - eapply quiet_trans; [|apply IH; exact He]. quiet_untouched.
  - quiet_untouched.
Qed.

(** X14.  On an empty store a tick sends nothing and stores nothing,
    whatever the configuration, the hour, the draws and the failures: it
    only schedules the next tick. *)
Theorem handlePostTimer_empty_queue
  (cfg : Config) (env : Env) (now : Date) (w : World)
  (Hempty : docs w = []) :
  quiet w (snd (handlePostTimer cfg env now w)) /\
  docs (snd (handlePostTimer cfg env now w)) = [].
Proof.
  assert (Hq : quiet w (snd (handlePostTimer cfg env now w))).
  { unfold handlePostTimer. rewrite try_finally_world.
    eapply quiet_trans; [|apply schedulePostTimer_quiet].
    run_monad.
    destruct (fails env (ios w)); cbn [snd]; [quiet_untouched|].
    destruct (Qltb (MIN_HOUR cfg) (hour_of now) &&
              Qltb (hour_of now) (MAX_HOUR cfg)); [|quiet_untouched].
    run_monad.
    destruct (num_ltb _ _); [|quiet_untouched].
    run_monad. unfold postRandomMessages.
    match goal with
    | |- quiet w (snd (repeatM ?n _ ?w1)) =>
        apply (@quiet_trans w w1); [quiet_untouched|];
        apply repeat_postRandomMessage_empty; exact Hempty
    end. }
  split; [exact Hq|].
  destruct Hq as (Hd & _). rewrite Hd. exact Hempty.
Qed.

Lemma handlePostTimer_empty_queue_witness :
  gateway_calls (trace (snd (handlePostTimer Demo.cfg Demo.eager_env noon
                               empty_world))) = [].
Proof.
  destruct (@handlePostTimer_empty_queue Demo.cfg Demo.eager_env noon
              empty_world eq_refl) as ((_ & _ & Hg) & _).
  exact Hg.
Defined.

(** X15.  With draws in [0, 1) and a non-negative offset, the timer that
    [schedulePostTimer] arms, the one [postTimer] then holds, has a delay of
    at least POST_INTERVAL and at most POST_INTERVAL + POST_INTERVAL_OFFSET.
    Both bounds can be reached: the first by a draw of 0, the second by the
    rounding of the code's sum of doubles for a draw close to 1, which the
    rational delay of the embedding stays below. *)
Theorem schedulePostTimer_delay_bounds
  (cfg : Config) (env : Env) (w : World)
  (Hu : uniform env) (Hoff : 0 <= POST_INTERVAL_OFFSET cfg) :
  exists delay,
    postTimer (snd (schedulePostTimer cfg env w)) = Some (next_handle w) /\
    In (next_handle w, delay) (pending (snd (schedulePostTimer cfg env w))) /\
    POST_INTERVAL cfg <= delay /\
    delay <= POST_INTERVAL cfg + POST_INTERVAL_OFFSET cfg.
Proof.
  destruct (schedulePostTimer_spec cfg env w)
    as (w' & Heq & Hpt & Hpe & _).
  rewrite Heq. cbn [snd].
  exists (next_delay cfg env (draws w)).
  destruct (Hu (draws w)) as [H0 H1].
  unfold next_delay.
  set (r := random env (draws w)) in *.
  set (o := POST_INTERVAL_OFFSET cfg) in *.
  split; [exact Hpt|]. split.
  { rewrite Hpe. apply in_or_app. right. left. reflexivity. }
  assert (Hlo : 0 <= o * r) by (apply Qmult_le_0_compat; assumption).
  assert (Hhi : o * r <= o).
  { rewrite <- (Qmult_1_r o) at 2. rewrite !(Qmult_comm o).
    apply Qmult_le_compat_r; [apply Qlt_le_weak; assumption | assumption]. }
  split; lra.
Qed.

(** With the default interval a tick comes after at least 90 and at most
    99 minutes. *)
Lemma schedulePostTimer_delay_bounds_witness :
  exists delay,
    In (1%nat, delay) (pending (snd (schedulePostTimer Demo.cfg Demo.env
                                       Demo.world))) /\
    5400000 <= delay /\ delay <= 5940000.
Proof.
  assert (Hoff : 0 <= POST_INTERVAL_OFFSET Demo.cfg)
    by (vm_compute; discriminate).
  destruct (@schedulePostTimer_delay_bounds Demo.cfg Demo.env Demo.world
              demo_uniform Hoff) as (delay & _ & Hin & Hlo & Hhi).
  exists delay. split; [exact Hin|].
  split.
  - eapply Qle_trans; [|exact Hlo]. vm_compute. discriminate.
  - eapply Qle_trans; [exact Hhi|]. vm_compute. discriminate.
Defined.

Lemma Math_round_mono (x y : Q) : x <= y -> (Math_round x <= Math_round y)%Z.
Proof.
  intros H. unfold Math_round. apply Qfloor_resp_le. lra.
Qed.

Lemma Math_round_integer (a : Z) : Math_round (inject_Z a) = a.
Proof.
  unfold Math_round.
  assert (Hlo : (a <= Qfloor (inject_Z a + (1 # 2)))%Z).
  { rewrite <- (Qfloor_Z a) at 1. apply Qfloor_resp_le. lra. }
  assert (Hhi : (Qfloor (inject_Z a + (1 # 2)) < a + 1)%Z).
  { rewrite Zlt_Qlt.
    eapply Qle_lt_trans; [apply Qfloor_le|].
    rewrite inject_Z_plus. change (inject_Z 1) with 1. lra. }
  lia.
Qed.

(** X16.  When MIN_POST_COUNT is at most MAX_POST_COUNT, the size of the
    batch a tick asks for is between the two, rounded, for every draw in
    [0, 1); for whole numbers it is between MIN_POST_COUNT and
    MAX_POST_COUNT themselves. *)
Theorem postCount_bounds (cfg : Config) (r : Q)
  (Hr : 0 <= r < 1)
  (Hle : MIN_POST_COUNT cfg <= MAX_POST_COUNT cfg) :
  (Math_round (MIN_POST_COUNT cfg) <= postCount cfg r <=
   Math_round (MAX_POST_COUNT cfg))%Z /\
  (forall a b : Z,
     MIN_POST_COUNT cfg == inject_Z a -> MAX_POST_COUNT cfg == inject_Z b ->
     (a <= postCount cfg r <= b)%Z).
Proof.
  destruct Hr as [H0 H1].
  set (lo := MIN_POST_COUNT cfg) in *. set (hi := MAX_POST_COUNT cfg) in *.
  assert (Hd : 0 <= hi - lo) by lra.
  assert (Hlo : 0 <= r * (hi - lo)) by (apply Qmult_le_0_compat; assumption).
  assert (Hhi : r * (hi - lo) <= hi - lo).
  { rewrite <- (Qmult_1_l (hi - lo)) at 2.
    apply Qmult_le_compat_r; [apply Qlt_le_weak; assumption | assumption]. }
  assert (Hb : (Math_round lo <= postCount cfg r <= Math_round hi)%Z).
  { unfold postCount. fold lo hi. split; apply Math_round_mono; lra. }
  split; [exact Hb|].
  intros a b Ha Hb'.
  assert (Ea : Math_round lo = a).
  { rewrite <- (Math_round_integer a). unfold Math_round.
    rewrite Ha. reflexivity. }
  assert (Eb : Math_round hi = b).
  { rewrite <- (Math_round_integer b). unfold Math_round.
    rewrite Hb'. reflexivity. }
  rewrite <- Ea, <- Eb. exact Hb.
Qed.

(** With the defaults a batch is of 4 or 5. *)
Lemma postCount_bounds_witness :
  (4 <= postCount Demo.cfg (1 # 3) <= 5)%Z.
Proof.
  assert (Hr : 0 <= 1 # 3 < 1) by (split; [discriminate | reflexivity]).
  assert (Hle : MIN_POST_COUNT Demo.cfg <= MAX_POST_COUNT Demo.cfg)
    by discriminate.
  exact (proj2 (@postCount_bounds Demo.cfg (1 # 3) Hr Hle) 4%Z 5%Z
               (Qeq_refl _) (Qeq_refl _)).
Defined.

(** ** What [handleMedia] does with messages it cannot queue *)

(** X17.  A message the codec rejects is answered with the codec's message
    and nothing else happens, whoever sent it: an administrator's rejected
    message is not stored and not deleted either. *)
Theorem handleMedia_rejected
  (cfg : Config) (env : Env) (m : Message) (w : World) (u : User)
  (msg : string)
  (Hfrom : from m = Some u)
  (Hrej : serializeMessage m = Throw (SerializationError msg)) :
  trace (snd (handleMedia cfg env m w)) =
    trace w ++ [SendMessage (chat_id (chat m)) msg []] /\
  store_kept w (snd (handleMedia cfg env m w)) /\
  timers_kept w (snd (handleMedia cfg env m w)).
Proof.
  unfold handleMedia. rewrite Hfrom.
  rewrite (bind_Return _ (checkAdminRights_sender env u w)), Hrej.
  apply (@call_kept env _ w). reflexivity.
Qed.

Lemma handleMedia_rejected_witness :
  trace (snd (handleMedia Demo.cfg Demo.env (Demo.text_message 1 "hello")
                Demo.world)) =
    trace Demo.world ++ [SendMessage 1 "No text only content :(" []].
Proof.
  exact (proj1 (@handleMedia_rejected Demo.cfg Demo.env
                  (Demo.text_message 1 "hello") Demo.world
                  {| user_id := 1 |} "No text only content :("
                  eq_refl eq_refl)).
Defined.

(** A message on which the codec raises a TypeError (a photo with an
    empty size list) is dropped in silence: [handleMedia] returns normally
    having called nothing and changed nothing, for every sender. *)
Theorem handleMedia_swallows_TypeError
  (cfg : Config) (env : Env) (m : Message) (w : World) (u : User)
  (Hfrom : from m = Some u)
  (Hoops : serializeMessage m = Throw TypeError) :
  handleMedia cfg env m w = (Return tt, w).
Proof.
  unfold handleMedia. rewrite Hfrom.
  rewrite (bind_Return _ (checkAdminRights_sender env u w)), Hoops.
  reflexivity.
Qed.

Lemma handleMedia_swallows_TypeError_witness :
  handleMedia Demo.cfg Demo.env no_sizes_photo Demo.world =
    (Return tt, Demo.world).
Proof.
  exact (@handleMedia_swallows_TypeError Demo.cfg Demo.env no_sizes_photo
           Demo.world {| user_id := 2 |} eq_refl eq_refl).
Defined.

(** A message without a sender (a channel post) makes the handler
    throw a TypeError at once, command or not: nothing is called and
    nothing changes. *)
Theorem onMessage_without_sender
  (cfg : Config) (env : Env) (m : Message) (w : World)
  (Hfrom : from m = None) :
  onMessage cfg env m w = (Throw TypeError, w).
Proof.
  unfold onMessage, handleCommand, handleMedia. rewrite Hfrom.
  destruct (text m) as [[| [[] [] [] [] [] [] [] []] rest]|]; reflexivity.
Qed.

Lemma onMessage_without_sender_witness :
  onMessage Demo.cfg Demo.env channel_post Demo.world =
    (Throw TypeError, Demo.world).
Proof.
  exact (@onMessage_without_sender Demo.cfg Demo.env channel_post Demo.world
           eq_refl).
Defined.

(** ** The store holds serialized messages *)

Lemma serializeMessage_not_IOError (m : Message) :
  serializeMessage m <> Throw IOError.
Proof.
  unfold serializeMessage.
  destruct (truthy (media_group_id m)); [discriminate|].
  destruct (photo m) as [[| p ps]|]; cbn; try discriminate.
  destruct (video m); cbn; [discriminate|].
  destruct (animation m); cbn; [discriminate|].
  destruct (truthy (text m)); discriminate.
Qed.

Section Stocked.

Variable cfg : Config.
Variable env : Env.

Ltac docs_untouched :=
  intros w; unfold keeps, stocked; run_monad;
  try destruct (fails env (ios w)); cbn; auto.

Lemma Math_random_stocked : stable (keeps stocked) (Math_random env).
Proof. docs_untouched. Qed.

Lemma io_stocked : stable (keeps stocked) (io env).
Proof. docs_untouched. Qed.

Lemma emit_stocked e : stable (keeps stocked) (emit e).
Proof. docs_untouched. Qed.

Lemma modify_ios_stocked f :
  stable (keeps stocked) (modify (fun w => with_ios (f w) w)).
Proof. docs_untouched. Qed.

Lemma modify_timers_stocked t p n :
  stable (keeps stocked)
         (modify (fun w => with_timers (t w) (p w) (n w) w)).
Proof. docs_untouched. Qed.

Lemma db_remove_stocked j : stable (keeps stocked) (db_remove env j).
Proof.
  intros w. unfold keeps, stocked. run_monad.
  destruct (fails env (ios w)); cbn; [auto|].
  rewrite !Forall_forall. intros H d Hd.
  apply H. eapply remove_id_incl; exact Hd.
Qed.

Lemma db_insert_stocked s : stable (keeps stocked) (db_insert env (Some s)).
Proof.
  intros w. unfold keeps, stocked. run_monad.
  destruct (fails env (ios w)); cbn; [auto|].
  intros H. apply Forall_app. split; [exact H|].
  repeat constructor. cbn. discriminate.
Qed.

#[local] Hint Resolve Math_random_stocked io_stocked emit_stocked
  modify_ios_stocked modify_timers_stocked db_remove_stocked
  db_insert_stocked : frame.

Ltac stocked_auto := stable_auto (@keeps_refl stocked) (@keeps_trans stocked).

Lemma call_stocked e : stable (keeps stocked) (call env e).
Proof. unfold call. stocked_auto. Qed.

Lemma call_detached_stocked e : stable (keeps stocked) (call_detached e).
Proof. unfold call_detached. stocked_auto. Qed.

Lemma db_count_stocked : stable (keeps stocked) (db_count env).
Proof. unfold db_count. stocked_auto. Qed.

Lemma db_findOne_skip_stocked k :
  stable (keeps stocked) (db_findOne_skip env k).
Proof. unfold db_findOne_skip. stocked_auto. Qed.

#[local] Hint Resolve call_stocked call_detached_stocked db_count_stocked
  db_findOne_skip_stocked : frame.

Lemma schedulePostTimer_stocked :
  stable (keeps stocked) (schedulePostTimer cfg env).
Proof. unfold schedulePostTimer, clearTimeout, setTimeout. stocked_auto. Qed.

Lemma postRandomMessages_stocked count :
  stable (keeps stocked) (postRandomMessages cfg env count).
Proof.
  unfold postRandomMessages, postRandomMessage, sendSerializedMessage.
  stocked_auto.
Qed.

#[local] Hint Resolve schedulePostTimer_stocked postRandomMessages_stocked
  : frame.

Lemma handlePostTimer_stocked now :
  stable (keeps stocked) (handlePostTimer cfg env now).
Proof. unfold handlePostTimer. stocked_auto. Qed.

Lemma handleCommand_stocked m : stable (keeps stocked) (handleCommand cfg env m).
Proof. unfold handleCommand, checkAdminRights, sendMessage. stocked_auto. Qed.

Lemma handleMedia_stocked m : stable (keeps stocked) (handleMedia cfg env m).
Proof.
  unfold handleMedia, checkAdminRights, sendMessage, sendSerializedMessage,
    storeSerializedMessage.
  apply stable_bind; [apply keeps_trans | stocked_auto | intros isAdmin].
  destruct (serializeMessage m) as [s | [msg | |]];
    cbn [truthy truthy_option truthy_Serialized option_map];
    stocked_auto.
Qed.

Lemma handleCallbackQuery_stocked q :
  reencoded q <> Throw TypeError ->
  stable (keeps stocked) (handleCallbackQuery env q).
Proof.
  intros Hwf. unfold handleCallbackQuery, checkAdminRights, sendMessage,
    storeSerializedMessage.
  apply stable_bind; [apply keeps_trans | stocked_auto | intros isAdmin].
  destruct isAdmin; [|stocked_auto].
  destruct (is_string (cq_data q) "accept"); [|stocked_auto].
  fold (reencoded q).
  destruct (reencoded q) as [s | [msg | |]] eqn:E;
    [stocked_auto | stocked_auto | contradiction |].
  exfalso. unfold reencoded in E.
  destruct (cq_message q) as [m|]; cbn in E; [|discriminate].
  exact (serializeMessage_not_IOError m E).
Qed.

End Stocked.

(** X19.  As long as every pressed button comes with a message on which the
    codec raises at most its own error, a store in which every document
    holds a serialized message stays so through any events: what the
    handlers insert is always the result of a successful serialization. *)
Theorem stocked_invariant
  (cfg : Config) (env : Env) (evs : list Event) (w w' : World)
  (Hwf : Forall well_formed evs)
  (Hrun : run cfg env evs w = Some w')
  (Hst : stocked w) :
  stocked w'.
Proof.
  revert w Hrun Hst. induction Hwf as [| ev evs Hev _ IH]; intros w Hrun Hst.
  - inversion Hrun; subst. exact Hst.
  - cbn [run] in Hrun.
    destruct (step cfg env ev w) as [w1|] eqn:Hstep; [|discriminate].
    apply (IH w1 Hrun).
    destruct ev as [m | q | h now]; cbn in Hstep, Hev.
    + inversion Hstep; subst. unfold onMessage.
      destruct (text m) as [[| [[] [] [] [] [] [] [] []] ?]|];
        first [apply handleCommand_stocked | apply handleMedia_stocked];
        exact Hst.
    + inversion Hstep; subst.
      apply handleCallbackQuery_stocked; assumption.
    + destruct (armed h w); [|discriminate].
      inversion Hstep; subst. apply handlePostTimer_stocked. exact Hst.
Qed.

Lemma stocked_invariant_witness :
  let evs := [Incoming (Demo.forwarded_photo 2 None);
              Pressed {| cq_id := "q"; cq_from := Some {| user_id := 1 |};
                         cq_message := Some Demo.own_photo;
                         cq_data := Some "accept"%string |};
              Fires 0 noon] in
  exists w', run Demo.cfg Demo.env evs Demo.world = Some w' /\ stocked w'.
Proof.
  intros evs.
  destruct (run Demo.cfg Demo.env evs Demo.world) as [w'|] eqn:Hrun;
    [|discriminate Hrun].
  exists w'. split; [reflexivity|].
  assert (Hwf : Forall well_formed evs).
  { repeat constructor. cbn. discriminate. }
  exact (@stocked_invariant Demo.cfg Demo.env evs Demo.world w' Hwf Hrun
           demo_stocked).
Defined.

(* ------------------------------------------------------------------ *)
(** ** Startup *)

(** [find] returns the first element that passes the test. *)
Lemma find_first {A} (f : A -> bool) (l : list A) (a : A) :
  find f l = Some a <->
  exists before after,
    l = before ++ a :: after /\
    Forall (fun b => f b = false) before /\ f a = true.
Proof.
  induction l as [| x l IH]; cbn.
  - split; [discriminate|].
    intros (before & after & H & _). destruct before; discriminate.
  - destruct (f x) eqn:Hx.
    + split.
      * intros H. inversion H; subst x.
        exists [], l. split; [reflexivity | split; [constructor | exact Hx]].
      * intros (before & after & H & Hb & Ha).
        destruct before as [| y before]; cbn in H; inversion H; subst.
        -- reflexivity.
        -- inversion Hb; subst. congruence.
    + rewrite IH. split.
      * intros (before & after & H & Hb & Ha).
        exists (x :: before), after. subst l.
        split; [reflexivity | split; [constructor; assumption | exact Ha]].
      * intros (before & after & H & Hb & Ha).
        destruct before as [| y before]; cbn in H; inversion H; subst.
        -- congruence.
        -- inversion Hb; subst. exists before, after. auto.
Qed.

(** X20.  Startup finds an owner exactly when the first administrator, in
    the order of the list, whose status is "creator" has an identifier that
    is not 0: the owner is that administrator, and the privileged
    identifiers are those of all the administrators.  The owner is among
    them, so the one who gets the review prompts may decide them.  When no
    administrator is the creator, startup fails. *)
Theorem administrators_of_owner (administrators : list ChatMember) :
  (forall ids owner,
     administrators_of administrators = Started ids owner <->
     ids = map (fun a => user_id (member_user a)) administrators /\
     owner <> 0%Z /\
     exists before a after,
       administrators = before ++ a :: after /\
       Forall (fun b => status b <> "creator"%string) before /\
       status a = "creator"%string /\
       user_id (member_user a) = owner) /\
  (forall ids owner,
     administrators_of administrators = Started ids owner ->
     existsb (Z.eqb owner) ids = true) /\
  ((forall a, In a administrators -> status a <> "creator"%string) ->
   administrators_of administrators = NoOwnerFound).
Proof.
  assert (Hstarted : forall ids owner,
    administrators_of administrators = Started ids owner <->
    ids = map (fun a => user_id (member_user a)) administrators /\
    owner <> 0%Z /\
    exists a,
      find (fun a => String.eqb (status a) "creator") administrators = Some a /\
      user_id (member_user a) = owner).
  { intros ids owner. unfold administrators_of.
    destruct (find (fun a => String.eqb (status a) "creator") administrators)
      as [a|]; cbn [option_map].
    - unfold_truthy.
      destruct (Z.eqb_spec (user_id (member_user a)) 0) as [Hz | Hz];
        cbn [negb].
      + split; [discriminate|].
        intros (_ & Hnz & a' & Ha & Ho). inversion Ha; subst a'. congruence.
      + split.
        * intros H. inversion H; subst ids owner.
          split; [reflexivity | split; [exact Hz | exists a; auto]].
        * intros (Hids & _ & a' & Ha & Ho). inversion Ha; subst a'.
          subst ids owner. reflexivity.
    - split; [discriminate|].
      intros (_ & _ & a' & Ha & _). discriminate. }
  split; [|split].
  - intros ids owner. rewrite Hstarted.
    split; intros (Hids & Hnz & H); (split; [exact Hids | split; [exact Hnz|]]).
    + destruct H as (a & Hfind & Ho).
      apply find_first in Hfind.
      destruct Hfind as (before & after & Hl & Hb & Ha).
      exists before, a, after.
      split; [exact Hl | split; [| split; [apply String.eqb_eq, Ha | exact Ho]]].
      rewrite Forall_forall in *. intros b Hin Hst.
      specialize (Hb b Hin). apply String.eqb_eq in Hst. congruence.
    + destruct H as (before & a & after & Hl & Hb & Ha & Ho).
      exists a. split; [|exact Ho].
      apply find_first. exists before, after.
      split; [exact Hl | split; [| apply String.eqb_eq, Ha]].
      rewrite Forall_forall in *. intros b Hin.
      destruct (String.eqb_spec (status b) "creator") as [Hst|]; [|reflexivity].
      exfalso. exact (Hb b Hin Hst).
  - intros ids owner H. apply Hstarted in H.
    destruct H as (Hids & _ & a & Hfind & Ho).
    apply find_some in Hfind. destruct Hfind as [Hin _].
    apply existsb_exists. exists owner. split; [|apply Z.eqb_refl].
    subst ids owner. apply in_map_iff. exists a. auto.
  - intros Hnone. unfold administrators_of.
    destruct (find (fun a => String.eqb (status a) "creator") administrators)
      as [a|] eqn:Hfind; [|reflexivity].
    apply find_some in Hfind. destruct Hfind as [Hin Hst].
    apply String.eqb_eq in Hst. exfalso. exact (Hnone a Hin Hst).
Qed.

(** X20 on a chat with two creators listed after an administrator: the
    owner is the first of the two. *)
Lemma administrators_of_owner_witness :
  administrators_of
    [{| member_user := {| user_id := 2 |}; status := "administrator" |};
     {| member_user := {| user_id := 7 |}; status := "creator" |};
     {| member_user := {| user_id := 9 |}; status := "creator" |}] =
  Started [2; 7; 9]%Z 7.
Proof.
  apply (proj1 (administrators_of_owner _)).
  split; [reflexivity | split; [discriminate|]].
  exists [{| member_user := {| user_id := 2 |}; status := "administrator" |}],
         {| member_user := {| user_id := 7 |}; status := "creator" |},
         [{| member_user := {| user_id := 9 |}; status := "creator" |}].
  split; [reflexivity | split; [| split; reflexivity]].
  constructor; [discriminate | constructor].
Defined.

(* ------------------------------------------------------------------ *)
(** ** The first revision *)

(** X21.  With an empty blacklist, the default, [handleMedia] of the second
    revision does exactly what [handleMedia] of the first revision does, on
    every message, in every state and whatever fails. *)
Theorem handleMedia_without_blacklist
  (cfg : Config) (env : Env) (m : Message) (w : World)
  (Hnone : BLACKLISTED_CHAT_IDS cfg = []) :
  handleMedia cfg env m w = Rev1.handleMedia env m w.
Proof.
  assert (Hb : checkIfBlacklisted cfg m = false).
  { unfold checkIfBlacklisted. rewrite Hnone.
    destruct (forward_from_chat m); reflexivity. }
  unfold handleMedia, Rev1.handleMedia. rewrite Hb. reflexivity.
Qed.

Lemma handleMedia_without_blacklist_witness :
  handleMedia (default_config (-1001)) Demo.env
              (Demo.forwarded_photo 5 None) Demo.world =
  Rev1.handleMedia Demo.env (Demo.forwarded_photo 5 None) Demo.world.
Proof.
  exact (@handleMedia_without_blacklist (default_config (-1001)) Demo.env
           (Demo.forwarded_photo 5 None) Demo.world eq_refl).
Defined.

Lemma postRandomMessage_at_most_one cfg env w :
  trace (snd (postRandomMessage cfg env w)) = trace w \/
  exists s, trace (snd (postRandomMessage cfg env w)) =
            trace w ++ [publish_of cfg env s].
Proof.
  unfold postRandomMessage. run_monad.
  destruct (fails env (ios w)); [left; reflexivity|].
  run_monad.
  destruct (0 <? Z.of_nat (List.length (docs w)))%Z; [|left; reflexivity].
  run_monad.
  destruct (fails env (S (ios w))); [left; reflexivity|].
  run_monad.
  destruct (nth_error (docs w) _) as [d|]; [|left; reflexivity].
  run_monad.
  destruct (doc_message d) as [s|]; [|left; reflexivity].
  run_monad. right. exists s.
  destruct (fails env (S (S (ios w)))); [reflexivity|].
  run_monad.
  destruct (fails env (S (S (S (ios w))))); reflexivity.
Qed.

Lemma Rev1_schedulePostTimer_spec cfg env w :
  exists w',
    Rev1.schedulePostTimer cfg env w = (Return tt, w') /\
    postTimer w' = postTimer w /\
    pending w' = pending w ++ [(next_handle w, next_delay cfg env (draws w))] /\
    trace w' = trace w ++
               [SetTimeout (next_handle w) (next_delay cfg env (draws w))] /\
    draws w' = S (draws w) /\ docs w' = docs w.
Proof.
  eexists. split; [reflexivity|]. cbn. repeat split.
Qed.

(** X22.  A tick of the first revision, whatever the clock, the draws and
    the failures, publishes at most one document and then arms exactly one
    new timer, of delay POST_INTERVAL + POST_INTERVAL_OFFSET * u for [u] the
    last draw; it cancels nothing and keeps no handle.  It publishes nothing
    unless the hour is strictly inside the window and the draw is below
    POST_CHANCE. *)
Theorem Rev1_handlePostTimer
  (cfg : Config) (env : Env) (POST_CHANCE : Q) (now : Date) (w : World) :
  let w' := snd (Rev1.handlePostTimer cfg env POST_CHANCE now w) in
  exists (k : nat) (t : list Effect),
    (draws w <= k)%nat /\ draws w' = S k /\
    trace w' = trace w ++ t ++
               [SetTimeout (next_handle w) (next_delay cfg env k)] /\
    (t = [] \/ exists s, t = [publish_of cfg env s]) /\
    (~ (MIN_HOUR cfg < hour_of now /\ hour_of now < MAX_HOUR cfg /\
        random env (draws w) < POST_CHANCE) -> t = []) /\
    pending w' = pending w ++ [(next_handle w, next_delay cfg env k)] /\
    postTimer w' = postTimer w.
Proof.
  intros w'. subst w'. unfold Rev1.handlePostTimer.
  rewrite try_finally_world.
  match goal with
  | |- context [snd (Rev1.schedulePostTimer cfg env (snd (?body w)))] =>
      set (w1 := snd (body w))
  end.
  assert (Hbody :
    timers_kept w w1 /\
    exists t, trace w1 = trace w ++ t /\
      (t = [] \/ exists s, t = [publish_of cfg env s]) /\
      (~ (MIN_HOUR cfg < hour_of now /\ hour_of now < MAX_HOUR cfg /\
          random env (draws w) < POST_CHANCE) -> t = [])).
  { subst w1. split.
    - match goal with
      | |- timers_kept w (snd (?c w)) => assert (Hs : stable timers_kept c)
      end.
      { stable_auto timers_kept_refl timers_kept_trans. }
      apply Hs.
    - destruct (Qltb (MIN_HOUR cfg) (hour_of now)) eqn:E1; cbn [andb];
        [|exists []; rewrite app_nil_r; repeat split; auto].
      destruct (Qltb (hour_of now) (MAX_HOUR cfg)) eqn:E2;
        [|exists []; rewrite app_nil_r; repeat split; auto].
      run_monad.
      destruct (Qltb (random env (draws w)) POST_CHANCE) eqn:E3;
        [|exists []; rewrite app_nil_r; repeat split; auto].
      destruct (postRandomMessage_at_most_one cfg env
                  (with_draws (S (draws w)) w)) as [Ht | [s Ht]];
        cbn [trace with_draws] in Ht.
      + exists []. rewrite app_nil_r. repeat split; auto.
      + exists [publish_of cfg env s]. split; [exact Ht|]. split; [eauto|].
        intros Hno. exfalso. apply Hno.
        apply Qltb_lt in E1, E2, E3. auto. }
  destruct Hbody as ((Kt & Kp & Kn & _ & Kd) & t & Ht & Hone & Hnone).
  destruct (Rev1_schedulePostTimer_spec cfg env w1)
    as (w2 & Heq & Hpt & Hpe & Htr & Hdr & _).
  rewrite Heq. cbn [snd].
  exists (draws w1), t.
  rewrite Hdr, Htr, Hpe, Hpt, Ht, Kp, Kn, Kt, <- app_assoc.
  repeat split; auto.
Qed.

(** X23.  In the first revision an administrator's [/random_post] is one
    take and nothing else: it publishes at most one document and leaves the
    pending tick as it is; followed by a count it is an unknown command. *)
Theorem Rev1_random_post
  (cfg : Config) (env : Env) (m : Message) (w : World) (u : User)
  (Hfrom : from m = Some u) (Hadmin : is_admin env u = true) :
  (text m = Some "/random_post"%string ->
     Rev1.handleCommand cfg env m w = postRandomMessage cfg env w /\
     timers_kept w (snd (Rev1.handleCommand cfg env m w))) /\
  (forall command digits,
     text m = Some command ->
     match_random_post command = Some (Some digits) ->
     trace (snd (Rev1.handleCommand cfg env m w)) =
       trace w ++ [SendMessage (chat_id (chat m)) "Unknown command :(" []] /\
     store_kept w (snd (Rev1.handleCommand cfg env m w))).
Proof.
  unfold is_admin in Hadmin. split.
  - intros Htext.
    assert (E : Rev1.handleCommand cfg env m w = postRandomMessage cfg env w).
    { unfold Rev1.handleCommand. rewrite Hfrom.
      rewrite (bind_Return _ (checkAdminRights_sender env u w)).
      unfold is_admin. rewrite Hadmin, Htext. reflexivity. }
    split; [exact E|]. rewrite E. apply postRandomMessage_timers_kept.
  - intros command digits Htext Hcmd.
    destruct (match_random_post_command command Hcmd) as (_ & Hs & Hq).
    assert (Hr : String.eqb command "/random_post" = false).
    { destruct (String.eqb_spec command "/random_post"); [|reflexivity].
      subst command. vm_compute in Hcmd. discriminate. }
    unfold Rev1.handleCommand. rewrite Hfrom.
    rewrite (bind_Return _ (checkAdminRights_sender env u w)).
    rewrite Htext. cbn [is_string]. rewrite Hs, Hq, Hr.
    destruct (@call_kept env
      (SendMessage (chat_id (chat m)) "Unknown command :(" []) w eq_refl)
      as (Ht & Hk & _).
    split; assumption.
Qed.

Lemma Rev1_random_post_witness :
  trace (snd (Rev1.handleCommand Demo.cfg Demo.env
                (Demo.text_message 1 "/random_post 3") Demo.world)) =
    trace Demo.world ++ [SendMessage 1 "Unknown command :(" []] /\
  pending (snd (Rev1.handleCommand Demo.cfg Demo.env
                  (Demo.text_message 1 "/random_post") Demo.world)) =
    pending Demo.world.
Proof.
  split.
  - destruct (@Rev1_random_post Demo.cfg Demo.env
                (Demo.text_message 1 "/random_post 3") Demo.world
                {| user_id := 1 |} eq_refl eq_refl) as (_ & H).
    exact (proj1 (H "/random_post 3"%string "3"%string eq_refl eq_refl)).
  - destruct (@Rev1_random_post Demo.cfg Demo.env
                (Demo.text_message 1 "/random_post") Demo.world
                {| user_id := 1 |} eq_refl eq_refl) as (H & _).
    destruct (H eq_refl) as (_ & (_ & Hp & _)). exact Hp.
Defined.

(* ------------------------------------------------------------------ *)
(** ** Rejections of the codec stay inside the handlers *)

Lemma contained_ret {A} (a : A) : contained (ret a).
Proof. intros w msg. discriminate. Qed.

Lemma contained_gets {A} (f : World -> A) : contained (gets f).
Proof. intros w msg. discriminate. Qed.

Lemma contained_modify (f : World -> World) : contained (modify f).
Proof. intros w msg. discriminate. Qed.

Lemma contained_deref {A} (o : option A) : contained (lift (deref o)).
Proof. intros w msg. destruct o; discriminate. Qed.

Lemma contained_bind {A B} (c : M A) (k : A -> M B) :
  contained c -> (forall a, contained (k a)) -> contained (bind c k).
Proof.
  intros Hc Hk w msg. unfold bind. specialize (Hc w msg).
  destruct (c w) as [[a | e] w']; cbn in *; [apply Hk|].
  intros H. apply Hc. inversion H. reflexivity.
Qed.

Lemma contained_repeatM (n : nat) (body : M unit) :
  contained body -> contained (repeatM n body).
Proof.
  intros Hb. induction n as [| n IH]; cbn.
  - apply contained_ret.
  - apply contained_bind; [exact Hb | intros _; exact IH].
Qed.

Lemma contained_try_finally {A} (body : M A) (fin : M unit) :
  contained body -> contained fin -> contained (try_finally body fin).
Proof.
  intros Hb Hf w msg. unfold try_finally. specialize (Hb w msg).
  destruct (body w) as [r w']. specialize (Hf w' msg).
  destruct (fin w') as [[[] | e] w'']; cbn in *; [assumption|].
  intros H. apply Hf. inversion H. reflexivity.
Qed.

Lemma contained_io env : contained (io env).
Proof. intros w msg. unfold io. destruct (fails env (ios w)); discriminate. Qed.

Create HintDb contain.
#[local] Hint Resolve contained_io : contain.

Ltac contained_auto :=
  repeat match goal with
    | |- contained (ret _) => apply contained_ret
    | |- contained (gets _) => apply contained_gets
    | |- contained (modify _) => apply contained_modify
    | |- contained (lift (deref _)) => apply contained_deref
    | |- contained (bind _ _) => apply contained_bind; [| intro]
    | |- contained (repeatM _ _) => apply contained_repeatM
    | |- contained (try_finally _ _) => apply contained_try_finally
    | |- contained (if ?b then _ else _) => destruct b
    | |- contained (match ?x with _ => _ end) => destruct x
    | |- contained _ => solve [auto with contain]
    end.

Ltac unfold_script :=
  unfold onMessage, handleCommand, handleMedia, handleCallbackQuery,
    handlePostTimer, schedulePostTimer, postRandomMessages, postRandomMessage,
    sendSerializedMessage, sendMessage, storeSerializedMessage,
    checkAdminRights, db_count, db_findOne_skip, db_remove, db_insert,
    clearTimeout, setTimeout, call, call_detached, emit, Math_random.

(** X18.  No SerializationError ever escapes a handler: whatever the
    message, the callback, the clock, the state and the failures, the
    message handler, [handleCallbackQuery] and [handlePostTimer] either
    return or throw something else (a TypeError or a rejected call), so a
    rejection of the codec never reaches the unhandled-rejection log. *)
Theorem rejections_contained (cfg : Config) (env : Env) :
  (forall m, contained (onMessage cfg env m)) /\
  (forall q, contained (handleCallbackQuery env q)) /\
  (forall now, contained (handlePostTimer cfg env now)).
Proof.
  split; [|split].
  - intros m. unfold_script.
    destruct (text m) as [[| [[] [] [] [] [] [] [] []] ?]|];
      contained_auto; intros w msg; discriminate.
  - intros q. unfold_script. contained_auto; intros w msg; discriminate.
  - intros now. unfold_script. contained_auto; intros w msg; discriminate.
Qed.

(** ** Takes that do not overlap *)

(** X24.  For calls of [postRandomMessage] that do not overlap, with a
    gateway and store that do not fail, draws in [0, 1) and a store of
    unique identifiers whose documents hold serialized messages: on an
    empty store the call returns without sending or changing anything (only
    the count of operations advances); on a non-empty store it publishes
    one stored document [d] and removes exactly that document, after which
    the identifier of [d] is never in the store again, whatever events are
    handled one after the other; storing N items and then taking N leaves
    the count where it was, 0 from an empty store; and a batch of N takes,
    for N up to 2^53, returns normally, having published min(N, backlog)
    documents. *)
Theorem postRandomMessage_takes_once
  (cfg : Config) (env : Env) (w : World)
  (Hio : reliable env) (Hu : uniform env)
  (Hok : store_ok w) (Hst : stocked w) :
  (docs w = [] ->
     postRandomMessage cfg env w = (Return tt, with_ios (S (ios w)) w)) /\
  (docs w <> [] ->
     exists d s,
       nth_error (docs w) (pick_index env w) = Some d /\
       doc_message d = Some s /\
       postRandomMessage cfg env w = (Return tt, taken cfg env d s w) /\
       trace (taken cfg env d s w) = trace w ++ [publish_of cfg env s] /\
       (forall d', In d' (docs (taken cfg env d s w)) <->
                   In d' (docs w) /\ _id d' <> _id d) /\
       List.length (docs (taken cfg env d s w)) =
         pred (List.length (docs w)) /\
       (forall evs w', run cfg env evs (taken cfg env d s w) = Some w' ->
                       ~ In (_id d) (ids (docs w')))) /\
  (forall items : list Serialized,
     let stored := snd (storeAll env items w) in
     let n := Z.of_nat (List.length items) in
     let drained := snd (postRandomMessages cfg env n stored) in
     (n <= 2 ^ 53)%Z ->
     List.length (docs drained) = List.length (docs w) /\
     (docs w = [] -> fst (db_count env drained) = Return 0%Z)) /\
  (forall n : Z,
     let after := snd (postRandomMessages cfg env n w) in
     (n <= 2 ^ 53)%Z ->
     fst (postRandomMessages cfg env n w) = Return tt /\
     published (trace after) =
       (published (trace w) + Nat.min (Z.to_nat n) (List.length (docs w)))%nat /\
     List.length (docs after) =
       (List.length (docs w) - Z.to_nat n)%nat).
Proof.
  split; [|split; [|split]].
  - intros He. destruct (postRandomMessage_empty cfg env w He) as [Hw Hr].
    specialize (Hr (Hio _)).
    destruct (postRandomMessage cfg env w) as [r w1]. cbn in *.
    subst. reflexivity.
  - intros Hne.
    destruct (postRandomMessage_nonempty cfg Hio Hu Hst Hne)
      as (d & s & Hnth & Hs & Hrun).
    assert (Hin : In d (docs w)) by (eapply nth_error_In; eassumption).
    exists d, s.
    split; [exact Hnth | split; [exact Hs | split; [exact Hrun |]]].
    split; [reflexivity|]. split; [|split].
    + intros d'. cbn. apply remove_id_In. apply Hok.
    + cbn. apply remove_id_length. unfold ids. apply in_map, Hin.
    + intros evs w' Hrun'.
      assert (Hsp : spent (_id d) (taken cfg env d s w)).
      { destruct Hok as [Hnd Hlt]. rewrite Forall_forall in Hlt.
        split; cbn; [apply (Hlt d Hin) | apply remove_id_absent, Hnd]. }
      destruct (@run_spent cfg env (_id d) evs _ _ Hrun' Hsp) as [_ Hout].
      exact Hout.
  - intros items stored n drained _.
    destruct (@storeAll_spec env Hio items w Hok Hst) as (H1 & H2 & H3).
    fold stored in H1, H2, H3.
    destruct (@repeat_postRandomMessage cfg env Hio Hu (Z.to_nat n) stored H1 H2)
      as (_ & _ & _ & H4 & _).
    unfold postRandomMessages in drained. fold drained in H4.
    assert (Hlen : List.length (docs drained) = List.length (docs w)).
    { rewrite H4, H3. subst n. rewrite Nat2Z.id. lia. }
    split; [exact Hlen|].
    intros He. run_monad. rewrite Hio. cbn. rewrite Hlen, He. reflexivity.
  - intros n after _.
    destruct (@repeat_postRandomMessage cfg env Hio Hu (Z.to_nat n) w Hok Hst)
      as (H1 & _ & _ & H4 & H5).
    unfold postRandomMessages in *. fold after in H4, H5.
    split; [exact H1 | split; [exact H5 | exact H4]].
Qed.

(** X24 on a store of two photos: a batch of five publishes both and
    returns. *)
Lemma postRandomMessage_takes_once_witness :
  fst (postRandomMessages Demo.cfg Demo.env 5 Demo.world) = Return tt /\
  published (trace (snd (postRandomMessages Demo.cfg Demo.env 5 Demo.world))) =
    2%nat /\
  List.length (docs (snd (postRandomMessages Demo.cfg Demo.env 5 Demo.world))) =
    0%nat.
Proof.
  destruct (@postRandomMessage_takes_once Demo.cfg Demo.env Demo.world
              demo_reliable demo_uniform demo_store_ok demo_stocked)
    as (_ & _ & _ & Hbatch).
  assert (Hn : (5 <= 2 ^ 53)%Z) by (vm_compute; discriminate).
  destruct (Hbatch 5%Z Hn) as (Hr & Hp & Hl).
  split; [exact Hr | split; [exact Hp | exact Hl]].
Defined.

(** X25.  When the store rejects the [remove] of a take, the document has
    been published and stays in the store, and the take throws.  On a store
    of that one document, the next take (when its four operations succeed)
    publishes the document again and removes it: the chat gets it twice. *)
Theorem postRandomMessage_remove_rejected
  (cfg : Config) (env : Env) (w : World) (d : Doc) (s : Serialized)
  (Hcount : fails env (ios w) = false)
  (Hfind : fails env (S (ios w)) = false)
  (Hsend : fails env (S (S (ios w))) = false)
  (Hremove : fails env (S (S (S (ios w)))) = true)
  (Hpick : nth_error (docs w) (pick_index env w) = Some d)
  (Hs : doc_message d = Some s) :
  let w1 := snd (postRandomMessage cfg env w) in
  fst (postRandomMessage cfg env w) = Throw IOError /\
  docs w1 = docs w /\
  next_id w1 = next_id w /\
  trace w1 = trace w ++ [publish_of cfg env s] /\
  (docs w = [d] -> 0 <= random env (S (draws w)) < 1 ->
   (forall k, (4 <= k < 8)%nat -> fails env (k + ios w) = false) ->
   fst (postRandomMessage cfg env w1) = Return tt /\
   docs (snd (postRandomMessage cfg env w1)) = [] /\
   trace (snd (postRandomMessage cfg env w1)) =
     trace w ++ [publish_of cfg env s; publish_of cfg env s]).
Proof.
  intros w1. subst w1.
  assert (Hpos : (0 <? Z.of_nat (List.length (docs w)))%Z = true).
  { apply Z.ltb_lt. destruct (docs w); [|cbn; lia].
    destruct (pick_index env w); discriminate. }
  assert (Hrun : postRandomMessage cfg env w =
    (Throw IOError,
     with_trace (trace w ++ [publish_of cfg env s])
       (with_draws (S (draws w)) (with_ios (4 + ios w) w)))).
  { unfold postRandomMessage.
    repeat (progress (run_monad; rewrite ?Hcount, ?Hpos)).
    rewrite Hfind. run_monad.
    fold (pick_index env w). rewrite Hpick. run_monad. rewrite Hs.
    run_monad. rewrite Hsend. run_monad. rewrite Hremove. reflexivity. }
  rewrite Hrun. cbn [fst snd].
  split; [reflexivity | split; [reflexivity | split; [reflexivity |]]].
  split; [reflexivity|].
  intros Hd Hr Hk.
  pose proof (first_of_one Hr) as H1.
  pose proof (Hk 4%nat ltac:(lia)) as K4.
  pose proof (Hk 5%nat ltac:(lia)) as K5.
  pose proof (Hk 6%nat ltac:(lia)) as K6.
  pose proof (Hk 7%nat ltac:(lia)) as K7.
  cbn [Nat.add] in K4, K5, K6, K7.
  unfold postRandomMessage.
  repeat (progress (run_monad; cbn [Nat.add];
                    rewrite ?K4, ?K5, ?K6, ?K7, ?Hd;
                    cbn [List.length Z.of_nat Pos.of_succ_nat Z.ltb Z.compare];
                    rewrite ?H1; cbn [Z.to_nat nth_error]; rewrite ?Hs)).
  cbn [remove_id]. rewrite Nat.eqb_refl.
  unfold publish_of, target. rewrite <- !app_assoc. cbn [app].
  repeat split.
Qed.

Lemma postRandomMessage_remove_rejected_witness :
  let w1 := snd (postRandomMessage Demo.cfg fourth_fails one_photo) in
  fst (postRandomMessage Demo.cfg fourth_fails one_photo) = Throw IOError /\
  docs w1 = [Demo.photo_doc 0 "a"] /\
  gateway_calls (trace (snd (postRandomMessage Demo.cfg fourth_fails w1))) =
    [SendMedia sendPhoto (-1001) "a" []; SendMedia sendPhoto (-1001) "a" []].
Proof.
  intros w1. subst w1.
  destruct (@postRandomMessage_remove_rejected Demo.cfg fourth_fails one_photo
              (Demo.photo_doc 0 "a")
              {| method := sendPhoto; fileId := "a"; options := [] |}
              eq_refl eq_refl eq_refl eq_refl eq_refl eq_refl)
    as (Hr & Hd & _ & _ & Hnext).
  split; [exact Hr | split; [exact Hd |]].
  assert (Hk : forall k, (4 <= k < 8)%nat ->
                 fails fourth_fails (k + ios one_photo) = false).
  { intros k Hk. cbn. destruct k as [|[|[|[|k]]]]; [lia | lia | lia | lia |].
    reflexivity. }
  destruct (Hnext eq_refl ltac:(split; [discriminate | reflexivity]) Hk)
    as (_ & _ & Ht).
  rewrite Ht. reflexivity.
Defined.
